(** * MemSurfer libsurfer: triangle-mesh connectivity, periodic unwrapping,
      differential attributes and the binary token stream

    A shallow embedding of [libsurfer/src/TriMesh.cpp] and of the periodic
    post-processing of [libsurfer/src/TriMesh_cgal.cpp].

    Conventions of the embedding.
    - [TriMesh.hpp] and the vector header are not among the sources.  The
      scalar type [TypeFunction] is a C [float].  Where a statement is a
      formula for a position, an area or a normal, scalars are real
      numbers and the formula is one of exact arithmetic, which the code
      follows up to rounding.  Where the code differs from exact arithmetic
      in kind, the embedding follows the code: a quotient is a [Scalar],
      which is not a number if the divisor is zero, and the coordinates
      that [wrap_vertices] compares with the box are binary32 numbers.
      Vertex indices ([TypeIndex]) are natural numbers; entries of the
      across-edge table ([Offset3], signed) are integers with the sentinel
      [-1].
    - [operator[]] of [std::vector] and of the fixed-size vectors has no
      bounds check: an access outside the container is undefined behaviour.
      The embedding makes every such access explicit ([l !! i]) and a
      function whose run performs one returns [None] (or [OutOfRange]).
    - Exceptions are values ([Throw]); a member function is a function from
      the object's state to the new state and the outcome of the call.
    - The OpenMP pragmas are ignored: loops run in index order. *)

From Stdlib Require Import ZArith List Lia Reals Lra String Ascii Bool.
From Stdlib Require Import Floats.SpecFloat.
From stdpp Require Import base option list gmap.
Import ListNotations.

(* ===================================================================== *)
(** * Part I: the embedding                                               *)
(* ===================================================================== *)

(** ** Outcomes of a call *)

Inductive exn : Type :=
| invalid_argument (what : string) (got : list Z)
| logic_error (what : string) (got : list Z).

Inductive outcome (A : Type) : Type :=
| Ok (a : A)
| Throw (e : exn)
| OutOfRange.

Arguments Ok {A} a.
Arguments Throw {A} e.
Arguments OutOfRange {A}.

Definition throws {A : Type} (o : outcome A) : Prop := ∃ e, o = Throw e.

(** [for (x : l) s = body(s, x)] with an abort on an invalid access. *)
Fixpoint foldlM {S A : Type} (body : S → A → option S) (s : S) (l : list A)
  : option S :=
  match l with
  | [] => Some s
  | a :: l' => s' ← body s a; foldlM body s' l'
  end.

(** ** Fixed-size vectors *)

Record Vertex : Type := mkVertex { vx : R; vy : R; vz : R }.

Abbreviation Normal := Vertex (only parsing).

(** [v[d]] on a three-component vector. *)
Definition coord (v : Vertex) (d : nat) : option R :=
  match d with
  | 0 => Some (vx v)
  | 1 => Some (vy v)
  | 2 => Some (vz v)
  | _ => None
  end.

(** [v[d] = x] on a three-component vector. *)
Definition set_coord (v : Vertex) (d : nat) (x : R) : option Vertex :=
  match d with
  | 0 => Some (mkVertex x (vy v) (vz v))
  | 1 => Some (mkVertex (vx v) x (vz v))
  | 2 => Some (mkVertex (vx v) (vy v) x)
  | _ => None
  end.

(** Modelled from the spec: the vector header, with the operators and the
    macros [DOT] and [CROSS], is not among the sources.  A default-built
    vector is zero. *)
Definition vzero : Vertex := mkVertex 0 0 0.

(** Modelled from the spec: [a - b], the edge vector between two points. *)
Definition vsub (a b : Vertex) : Vertex :=
  mkVertex (vx a - vx b) (vy a - vy b) (vz a - vz b).

(** Modelled from the spec: [a + b], as used by the accumulation [a += b]. *)
Definition vadd (a b : Vertex) : Vertex :=
  mkVertex (vx a + vx b) (vy a + vy b) (vz a + vz b).

(** Modelled from the spec: [a * s], a vector weighted by a scalar. *)
Definition vscale (a : Vertex) (s : R) : Vertex :=
  mkVertex (vx a * s) (vy a * s) (vz a * s).

(** Modelled from the spec: the scalar product [a DOT b]. *)
Definition DOT (a b : Vertex) : R :=
  (vx a * vx b + vy a * vy b + vz a * vz b)%R.

(** Modelled from the spec: the cross product [a CROSS b]. *)
Definition CROSS (a b : Vertex) : Vertex :=
  mkVertex (vy a * vz b - vz a * vy b)
           (vz a * vx b - vx a * vz b)
           (vx a * vy b - vy a * vx b).

(** Modelled from the spec: the squared length of a vector. *)
Definition len2 (a : Vertex) : R := DOT a a.

(** Modelled from the spec: the length (magnitude) of a vector. *)
Definition len (a : Vertex) : R := sqrt (len2 a).

Record Face : Type := mkFace { fc0 : nat; fc1 : nat; fc2 : nat }.

(** [f[k]] for [k] in 0..2; every index the sources compute is a constant
    or reduced modulo 3. *)
Definition corner (f : Face) (k : nat) : nat :=
  match k with
  | 0 => fc0 f
  | 1 => fc1 f
  | _ => fc2 f
  end.

Definition corners (f : Face) : list nat := [fc0 f; fc1 f; fc2 f].

Definition set_corner (f : Face) (k : nat) (x : nat) : Face :=
  match k with
  | 0 => mkFace x (fc1 f) (fc2 f)
  | 1 => mkFace (fc0 f) x (fc2 f)
  | _ => mkFace (fc0 f) (fc1 f) x
  end.

Record Offset3 : Type := mkOffset3 { o0 : Z; o1 : Z; o2 : Z }.

Definition oget (o : Offset3) (j : nat) : Z :=
  match j with
  | 0 => o0 o
  | 1 => o1 o
  | _ => o2 o
  end.

Definition oset (o : Offset3) (j : nat) (x : Z) : Offset3 :=
  match j with
  | 0 => mkOffset3 x (o1 o) (o2 o)
  | 1 => mkOffset3 (o0 o) x (o2 o)
  | _ => mkOffset3 (o0 o) (o1 o) x
  end.

Definition Edge : Type := (nat * nat)%type.

(** ** Scalars that need not be numbers

    A quotient is a real number only if its divisor is not zero: in the
    arithmetic of [TypeFunction], [0/0] is a NaN and any other quotient by
    zero an infinity.  [NaN] stands for both.  Sums, differences and
    products with it give it again, as they give a NaN or an infinity in
    the code.  The values of a field are scalars of this kind: the point
    areas are stored as a field and are computed with divisions that
    nothing guards. *)

Inductive Scalar : Type :=
| Num (x : R)
| NaN.

Coercion Num : R >-> Scalar.

(** A list of real numbers is read as a list of scalars where one is
    expected. *)
Arguments cons {A}%_type & a l.
Arguments pair {A B}%_type & a b.

(** [x / y] *)
Definition sdiv (x y : R) : Scalar :=
  if Req_dec_T y 0 then NaN else Num (x / y).

Definition sadd (a b : Scalar) : Scalar :=
  match a, b with
  | Num x, Num y => Num (x + y)
  | _, _ => NaN
  end.

Definition ssub (a b : Scalar) : Scalar :=
  match a, b with
  | Num x, Num y => Num (x - y)
  | _, _ => NaN
  end.

Definition smul (a b : Scalar) : Scalar :=
  match a, b with
  | Num x, Num y => Num (x * y)
  | _, _ => NaN
  end.

(** A [Vertex] whose components need not be numbers. *)
Record Areas3 : Type := mkAreas3 { ca0 : Scalar; ca1 : Scalar; ca2 : Scalar }.

(** ** The mesh store *)

Record TriMesh : Type := mkTriMesh {
  mDim : nat;
  mVertices : list Vertex;
  mFaces : list Face;
  mFields : list (string * list Scalar);
  mPointNormals : list Normal;
  mFaceNormals : list Normal;
  mVAdjFaces : list (list nat);
  mFAcrossEdge : list Offset3;
  bedges : list Edge
}.

Definition with_mDim (m : TriMesh) (d : nat) : TriMesh :=
  mkTriMesh d (mVertices m) (mFaces m) (mFields m) (mPointNormals m)
            (mFaceNormals m) (mVAdjFaces m) (mFAcrossEdge m) (bedges m).

Definition with_mVertices (m : TriMesh) (vs : list Vertex) : TriMesh :=
  mkTriMesh (mDim m) vs (mFaces m) (mFields m) (mPointNormals m)
            (mFaceNormals m) (mVAdjFaces m) (mFAcrossEdge m) (bedges m).

Definition with_mFaces (m : TriMesh) (fs : list Face) : TriMesh :=
  mkTriMesh (mDim m) (mVertices m) fs (mFields m) (mPointNormals m)
            (mFaceNormals m) (mVAdjFaces m) (mFAcrossEdge m) (bedges m).

Definition with_mFields (m : TriMesh) (fl : list (string * list Scalar))
  : TriMesh :=
  mkTriMesh (mDim m) (mVertices m) (mFaces m) fl (mPointNormals m)
            (mFaceNormals m) (mVAdjFaces m) (mFAcrossEdge m) (bedges m).

Definition with_normals (m : TriMesh) (pn fn : list Normal) : TriMesh :=
  mkTriMesh (mDim m) (mVertices m) (mFaces m) (mFields m) pn fn
            (mVAdjFaces m) (mFAcrossEdge m) (bedges m).

Definition with_mVAdjFaces (m : TriMesh) (a : list (list nat)) : TriMesh :=
  mkTriMesh (mDim m) (mVertices m) (mFaces m) (mFields m) (mPointNormals m)
            (mFaceNormals m) a (mFAcrossEdge m) (bedges m).

Definition with_mFAcrossEdge (m : TriMesh) (a : list Offset3) : TriMesh :=
  mkTriMesh (mDim m) (mVertices m) (mFaces m) (mFields m) (mPointNormals m)
            (mFaceNormals m) (mVAdjFaces m) a (bedges m).

Definition with_bedges (m : TriMesh) (b : list Edge) : TriMesh :=
  mkTriMesh (mDim m) (mVertices m) (mFaces m) (mFields m) (mPointNormals m)
            (mFaceNormals m) (mVAdjFaces m) (mFAcrossEdge m) b.

(** A duplicate-vertex record [(original id, off1, off2)]. *)
Definition dupMap : Type := (nat * Z * Z)%type.

Record TriMeshPeriodic : Type := mkTriMeshPeriodic {
  base : TriMesh;
  mBox0 : Vertex;
  mBox1 : Vertex;
  bbox_valid : bool;
  mPeriodicFaces : list Face;
  mTrimmedFaces : list Face;
  mDuplicateVerts_OrigIds : list dupMap;
  mDuplicateVerts : list Vertex
}.

Definition with_base (p : TriMeshPeriodic) (m : TriMesh) : TriMeshPeriodic :=
  mkTriMeshPeriodic m (mBox0 p) (mBox1 p) (bbox_valid p) (mPeriodicFaces p)
                    (mTrimmedFaces p) (mDuplicateVerts_OrigIds p)
                    (mDuplicateVerts p).

Definition with_bbox (p : TriMeshPeriodic) (b0 b1 : Vertex) : TriMeshPeriodic :=
  mkTriMeshPeriodic (base p) b0 b1 true (mPeriodicFaces p)
                    (mTrimmedFaces p) (mDuplicateVerts_OrigIds p)
                    (mDuplicateVerts p).

Definition with_mDuplicateVerts (p : TriMeshPeriodic) (dv : list Vertex)
  : TriMeshPeriodic :=
  mkTriMeshPeriodic (base p) (mBox0 p) (mBox1 p) (bbox_valid p)
                    (mPeriodicFaces p) (mTrimmedFaces p)
                    (mDuplicateVerts_OrigIds p) dv.

(** ** [TriMesh::set_dimensionality] *)

Definition set_dimensionality (m : TriMesh) (d : nat) : TriMesh * outcome bool :=
  let m' := with_mDim m d in
  if negb (mDim m' =? 2) && negb (mDim m' =? 3) then
    (m', Throw (invalid_argument
                  "TriMesh::TriMesh(): Invalid dimensionality of vertices! can only be 2 or 3"
                  [Z.of_nat (mDim m')]))
  else (m', Ok true).

(** ** [TriMeshPeriodic::set_bbox]

    [vals] is the array behind the [float*]; the function reads
    [vals[0..n-1]] and nothing tells it how long the array is. *)

Definition set_bbox (p : TriMeshPeriodic) (vals : list R) (n : Z)
  : TriMeshPeriodic * outcome bool :=
  let d := mDim (base p) in
  if (n =? 2)%Z && (d =? 2) then
    match vals !! 0, vals !! 1 with
    | Some a, Some b =>
        (with_bbox p (mkVertex 0 0 0) (mkVertex a b 0), Ok true)
    | _, _ => (p, OutOfRange)
    end
  else if (n =? 3)%Z && (d =? 3) then
    match vals !! 0, vals !! 1, vals !! 2 with
    | Some a, Some b, Some c =>
        (with_bbox p (mkVertex 0 0 0) (mkVertex a b c), Ok true)
    | _, _, _ => (p, OutOfRange)
    end
  else if (n =? 4)%Z && (d =? 2) then
    match vals !! 0, vals !! 1, vals !! 2, vals !! 3 with
    | Some a, Some b, Some c, Some e =>
        (with_bbox p (mkVertex a b 0) (mkVertex c e 0), Ok true)
    | _, _, _, _ => (p, OutOfRange)
    end
  else if (n =? 6)%Z && (d =? 3) then
    match vals !! 0, vals !! 1, vals !! 2, vals !! 3, vals !! 4, vals !! 5 with
    | Some a, Some b, Some c, Some e, Some f, Some g =>
        (with_bbox p (mkVertex a b c) (mkVertex e f g), Ok true)
    | _, _, _, _, _, _ => (p, OutOfRange)
    end
  else
    (p, Throw (invalid_argument
                 "TriMeshPeriodic::set_bbox(): Invalid periodic box!"
                 [n; Z.of_nat d])).

(** ** [TriMeshPeriodic::wrap_vertices]

    The function compares a coordinate with the bounds of the box, adds or
    subtracts the extent of the box, and compares again: what it returns
    depends on how the sum is rounded.  Coordinates are therefore binary32
    numbers here, with the arithmetic of IEEE 754 in round-to-nearest-even
    ([spec_float] at precision 24 and maximal exponent 128), and the object
    is reduced to the members that the function reads or writes. *)

Module Binary32.

(** [TypeFunction], a C [float]. *)
Definition TypeFunction : Type := spec_float.

Definition prec : Z := 24.
Definition emax : Z := 128.

(** [a + b] and [a - b] *)
Definition fadd (a b : TypeFunction) : TypeFunction := SFadd prec emax a b.
Definition fsub (a b : TypeFunction) : TypeFunction := SFsub prec emax a b.

(** [a < b] and [a >= b]; both are false if an operand is a NaN. *)
Definition flt (a b : TypeFunction) : bool := SFltb a b.
Definition fge (a b : TypeFunction) : bool := SFleb b a.

Record Vertex : Type :=
  mkVertex { vx : TypeFunction; vy : TypeFunction; vz : TypeFunction }.

(** [v[d]] *)
Definition coord (v : Vertex) (d : nat) : option TypeFunction :=
  match d with
  | 0 => Some (vx v)
  | 1 => Some (vy v)
  | 2 => Some (vz v)
  | _ => None
  end.

(** [v[d] = x] *)
Definition set_coord (v : Vertex) (d : nat) (x : TypeFunction)
  : option Vertex :=
  match d with
  | 0 => Some (mkVertex x (vy v) (vz v))
  | 1 => Some (mkVertex (vx v) x (vz v))
  | 2 => Some (mkVertex (vx v) (vy v) x)
  | _ => None
  end.

(** Modelled from the spec: [a - b], component by component. *)
Definition vsub (a b : Vertex) : Vertex :=
  mkVertex (fsub (vx a) (vx b)) (fsub (vy a) (vy b)) (fsub (vz a) (vz b)).

Record TriMeshPeriodic : Type := mkTriMeshPeriodic {
  mDim : nat;
  mVertices : list Vertex;
  mBox0 : Vertex;
  mBox1 : Vertex;
  bbox_valid : bool
}.

Definition with_mVertices (p : TriMeshPeriodic) (vs : list Vertex)
  : TriMeshPeriodic :=
  mkTriMeshPeriodic (mDim p) vs (mBox0 p) (mBox1 p) (bbox_valid p).

(** The two consecutive [if]s applied to one coordinate: the second one
    tests the coordinate as the first one left it. *)
Definition wrap_coord (lo hi w x : TypeFunction) : TypeFunction :=
  let x1 := if flt x lo then fadd x w else x in
  if fge x1 hi then fsub x1 w else x1.

(** Body of the inner loop: [x = mVertices[i][d]] is wrapped in place. *)
Definition wrap_axis (box0 box1 boxw : Vertex) (v : Vertex) (d : nat)
  : option Vertex :=
  x ← coord v d;
  lo ← coord box0 d;
  hi ← coord box1 d;
  w ← coord boxw d;
  set_coord v d (wrap_coord lo hi w x).

Definition wrap_vertex (box0 box1 boxw : Vertex) (dim : nat) (v : Vertex)
  : option Vertex :=
  foldlM (wrap_axis box0 box1 boxw) v (seq 0 dim).

Definition wrap_vertices (p : TriMeshPeriodic) (dim : nat)
  : TriMeshPeriodic * outcome bool :=
  if (dim <? 1) || (mDim p <? dim) then
    (p, Throw (logic_error
                 "TriMeshPeriodic::wrap_vertices(): Invalid dim specified"
                 [Z.of_nat dim; Z.of_nat (mDim p)]))
  else if negb (bbox_valid p) then
    (p, Throw (logic_error
                 "TriMeshPeriodic::wrap_vertices(): Bounding box not available!"
                 [Z.of_nat dim]))
  else
    let boxw := vsub (mBox1 p) (mBox0 p) in
    match mapM (wrap_vertex (mBox0 p) (mBox1 p) boxw dim) (mVertices p) with
    | Some vs => (with_mVertices p vs, Ok true)
    | None => (p, OutOfRange)
    end.

End Binary32.

(** ** [TriMesh::write_binary]

    The file is modelled by what is written to it, in order: the five
    header words, then the tokens.  A token stands for the token byte and
    the payload written right after it. *)

Inductive token : Type :=
| TokV (vert : nat) (pos : Vertex) (fields : list Scalar)
| TokE (a b : nat)
| TokF (vert : nat).

(** [index_size], [function_size], [dummy_dimensions]. *)
Definition header : list Z := [4; 4; 1; 1; 1]%Z.

(** [uint8_t] and [uint32_t] arithmetic. *)
Definition wrap8 (z : Z) : Z := (z mod 256)%Z.
Definition wrap32 (z : Z) : Z := (z mod 2 ^ 32)%Z.

(** [counts[v]++] *)
Definition incr8 (counts : list Z) (v : nat) : option (list Z) :=
  c ← counts !! v; Some (<[v := wrap8 (c + 1)]> counts).

(** [first[v] = std::min(first[v], count)] *)
Definition min_first (first : list Z) (v : nat) (count : Z) : option (list Z) :=
  x ← first !! v; Some (<[v := Z.min x count]> first).

(** Body of the first loop over the faces. *)
Definition tally_face (s : list Z * list Z * Z) (f : Face)
  : option (list Z * list Z * Z) :=
  let '(counts, first, count) := s in
  counts ← incr8 counts (fc0 f);
  counts ← incr8 counts (fc1 f);
  counts ← incr8 counts (fc2 f);
  first ← min_first first (fc0 f) count;
  first ← min_first first (fc1 f) count;
  first ← min_first first (fc2 f) count;
  Some (counts, first, wrap32 (count + 1)).

Definition tally (nv : nat) (faces : list Face) : option (list Z * list Z * Z) :=
  foldlM tally_face (replicate nv 0%Z, replicate nv (2 ^ 32 - 1)%Z, 0%Z) faces.

(** The ['v'] token of corner [vert] of the face numbered [count], if this
    is the first face that has the vertex. *)
Definition write_vertex (m : TriMesh) (first : list Z) (count : Z) (vert : nat)
  : option (list token) :=
  fst ← first !! vert;
  if (count =? fst)%Z then
    pos ← mVertices m !! vert;
    fl ← mapM (λ nd : string * list Scalar, nd.2 !! vert) (mFields m);
    Some [TokV vert pos fl]
  else Some [].

(** [counts[v]--; if (counts[v] == 0) write 'f', v] *)
Definition close_corner (counts : list Z) (v : nat)
  : option (list Z * list token) :=
  c ← counts !! v;
  let c' := wrap8 (c - 1) in
  Some (<[v := c']> counts, if (c' =? 0)%Z then [TokF v] else []).

(** Body of the second loop: what one face appends to the file. *)
Definition write_face (m : TriMesh) (first : list Z) (s : list Z * Z) (face : Face)
  : option (list Z * Z * list token) :=
  let '(counts, count) := s in
  tv0 ← write_vertex m first count (fc0 face);
  tv1 ← write_vertex m first count (fc1 face);
  tv2 ← write_vertex m first count (fc2 face);
  let te := [TokE (fc0 face) (fc1 face); TokE (fc1 face) (fc2 face);
             TokE (fc2 face) (fc0 face)] in
  '(counts, tf0) ← close_corner counts (fc0 face);
  '(counts, tf1) ← close_corner counts (fc1 face);
  '(counts, tf2) ← close_corner counts (fc2 face);
  Some (counts, wrap32 (count + 1), tv0 ++ tv1 ++ tv2 ++ te ++ tf0 ++ tf1 ++ tf2).

(** The second loop; the result lists, face by face, what was appended. *)
Fixpoint write_faces (m : TriMesh) (first : list Z) (s : list Z * Z)
    (faces : list Face) : option (list (list token)) :=
  match faces with
  | [] => Some []
  | f :: fs =>
      '(counts, count, b) ← write_face m first s f;
      bs ← write_faces m first (counts, count) fs;
      Some (b :: bs)
  end.

Definition write_binary (m : TriMesh) : option (list Z * list token) :=
  '(counts, first, _) ← tally (length (mVertices m)) (mFaces m);
  blocks ← write_faces m first (counts, 0%Z) (mFaces m);
  Some (header, concat blocks).

(** ** Connectivity: [need_adjacentfaces], [need_across_edge], [need_boundary] *)

Definition is_empty {A : Type} (l : list A) : bool :=
  match l with
  | [] => true
  | _ => false
  end.

(** [numadjacentfaces[v]++]; the counters only size a [reserve]. *)
Definition bump (num : list nat) (v : nat) : option (list nat) :=
  c ← num !! v; Some (<[v := S c]> num).

Definition count_adjacent (nv : nat) (faces : list Face) : option (list nat) :=
  foldlM (λ num f,
            num ← bump num (fc0 f);
            num ← bump num (fc1 f);
            bump num (fc2 f))
         (replicate nv 0) faces.

(** [mVAdjFaces[v].push_back(i)] *)
Definition push_adjacent (adj : list (list nat)) (v i : nat)
  : option (list (list nat)) :=
  a ← adj !! v; Some (<[v := a ++ [i]]> adj).

Definition adjacent_step (faces : list Face) (adj : list (list nat)) (i : nat)
  : option (list (list nat)) :=
  f ← faces !! i;
  adj ← push_adjacent adj (fc0 f) i;
  adj ← push_adjacent adj (fc1 f) i;
  push_adjacent adj (fc2 f) i.

Definition need_adjacentfaces (m : TriMesh) : option TriMesh :=
  if negb (is_empty (mVAdjFaces m)) then Some m
  else
    let nv := length (mVertices m) in
    let nf := length (mFaces m) in
    _ ← count_adjacent nv (mFaces m);
    adj ← foldlM (adjacent_step (mFaces m)) (replicate nv []) (seq 0 nf);
    Some (with_mVAdjFaces m adj).

(** [mFAcrossEdge[i][j]] and [mFAcrossEdge[i][j] = x]. *)
Definition across_get (A : list Offset3) (i j : nat) : option Z :=
  o ← A !! i; Some (oget o j).

Definition across_set (A : list Offset3) (i j : nat) (x : Z)
  : option (list Offset3) :=
  o ← A !! i; Some (<[i := oset o j x]> A).

(** The position of [v1] in face [fo], or [-1]. *)
Definition vidx_of (fo : Face) (v1 : nat) : Z :=
  if fc0 fo =? v1 then 0
  else if fc1 fo =? v1 then 1
  else if fc2 fo =? v1 then 2
  else (-1).

(** The loop over [k1]: the first face of [a1], other than [i] and also in
    [a2], in which the edge runs from [v2] to [v1]; with the local edge
    [ind] of that face.  The two writes and the [break] that the sources
    perform at this point are done by the caller. *)
Fixpoint find_across (faces : list Face) (a2 : list nat) (i v1 v2 : nat)
    (a1 : list nat) : option (option (nat * nat)) :=
  match a1 with
  | [] => Some None
  | other :: rest =>
      if other =? i then find_across faces a2 i v1 v2 rest
      else if negb (existsb (Nat.eqb other) a2)
      then find_across faces a2 i v1 v2 rest
      else
        fo ← faces !! other;
        let ind := Z.to_nat ((vidx_of fo v1 + 1) mod 3) in
        if negb (corner fo ((ind + 1) mod 3) =? v2)
        then find_across faces a2 i v1 v2 rest
        else Some (Some (other, ind))
  end.

(** Body of the loops over [i] and [j]. *)
Definition across_edge_step (faces : list Face) (adj : list (list nat))
    (i : nat) (A : list Offset3) (j : nat) : option (list Offset3) :=
  cur ← across_get A i j;
  if negb (cur =? -1)%Z then Some A
  else
    f ← faces !! i;
    let v1 := corner f ((j + 1) mod 3) in
    let v2 := corner f ((j + 2) mod 3) in
    a1 ← adj !! v1;
    a2 ← adj !! v2;
    r ← find_across faces a2 i v1 v2 a1;
    match r with
    | None => Some A
    | Some (other, ind) =>
        A ← across_set A i j (Z.of_nat other);
        across_set A other ind (Z.of_nat i)
    end.

Definition across_edge_loop (faces : list Face) (adj : list (list nat))
    (A : list Offset3) (nf : nat) : option (list Offset3) :=
  foldlM (λ A i, foldlM (across_edge_step faces adj i) A [0; 1; 2])
         A (seq 0 nf).

Definition need_across_edge (m : TriMesh) : option TriMesh :=
  if negb (is_empty (mFAcrossEdge m)) then Some m
  else
    m ← need_adjacentfaces m;
    if is_empty (mVAdjFaces m) then Some m
    else
      let nf := length (mFaces m) in
      A ← across_edge_loop (mFaces m) (mVAdjFaces m)
             (replicate nf (mkOffset3 (-1) (-1) (-1))) nf;
      Some (with_mFAcrossEdge m A).

(** The first pass of [need_boundary]: the edges whose entry is [-1]. *)
Definition boundary_step (faces : list Face) (A : list Offset3) (i : nat)
    (be : list Edge) (j : nat) : option (list Edge) :=
  x ← across_get A i j;
  if (x =? -1)%Z then
    f ← faces !! i;
    Some (be ++ [(corner f ((j + 1) mod 3), corner f ((j + 2) mod 3))])
  else Some be.

Definition collect_boundary (faces : list Face) (A : list Offset3)
  : option (list Edge) :=
  foldlM (λ be i, foldlM (boundary_step faces A i) be [0; 1; 2])
         [] (seq 0 (length faces)).

(** A loop body either goes on to the next iteration or leaves the loop. *)
Inductive ctl (S : Type) : Type :=
| Next (s : S)
| Break (s : S).

Arguments Next {S} s.
Arguments Break {S} s.

Definition ctl_state {S : Type} (c : ctl S) : S :=
  match c with
  | Next s => s
  | Break s => s
  end.

(** [p] iterations of a loop body, unless it breaks or aborts; on the
    binary representation of [p], so that a trip count of [2^64 - 1] is a
    term like any other. *)
Fixpoint repeat_pos {S : Type} (body : S → option (ctl S)) (p : positive)
    (s : S) : option (ctl S) :=
  match p with
  | xH => body s
  | xO p' =>
      match repeat_pos body p' s with
      | Some (Next s') => repeat_pos body p' s'
      | r => r
      end
  | xI p' =>
      match body s with
      | Some (Next s') =>
          match repeat_pos body p' s' with
          | Some (Next s'') => repeat_pos body p' s''
          | r => r
          end
      | r => r
      end
  end.

(** The same loop by counting down. *)
Fixpoint repeat_nat {S : Type} (body : S → option (ctl S)) (n : nat) (s : S)
  : option (ctl S) :=
  match n with
  | 0 => Some (Next s)
  | S n' =>
      match body s with
      | Some (Next s') => repeat_nat body n' s'
      | r => r
      end
  end.

Definition repeat_N {S : Type} (body : S → option (ctl S)) (n : N) (s : S)
  : option (ctl S) :=
  match n with
  | N0 => Some (Next s)
  | Npos p => repeat_pos body p s
  end.

(** [nbedges - 1] in [size_t]: the trip count of the reordering loop. *)
Definition size_t_pred (n : nat) : N :=
  Z.to_N ((Z.of_nat n - 1) mod 2 ^ 64).

(** The scan for an edge that starts where edge [bidx] ends; [n] is the
    number of iterations left, [nbedges - jidx]. *)
Fixpoint scan_from (be : list Edge) (bidx jidx n : nat) : option (option nat) :=
  match n with
  | 0 => Some None
  | S n' =>
      ej ← be !! jidx;
      eb ← be !! bidx;
      if ej.1 =? eb.2 then Some (Some jidx)
      else scan_from be bidx (S jidx) n'
  end.

(** Body of the reordering loop, on the state [(bedges, bidx)]. *)
Definition orient_step (nbedges : nat) (s : list Edge * nat)
  : option (ctl (list Edge * nat)) :=
  let '(be, bidx) := s in
  r ← scan_from be bidx (bidx + 1) (nbedges - (bidx + 1));
  match r with
  | Some jidx =>
      x ← be !! (bidx + 1);
      y ← be !! jidx;
      Some (Next (<[jidx := x]> (<[bidx + 1 := y]> be), bidx + 1))
  | None =>
      eb ← be !! bidx;
      e0 ← be !! 0;
      if eb.2 =? e0.1 then Some (Next (be, bidx + 1))
      else Some (Break (be, bidx))
  end.

Definition orient_boundary (be : list Edge) : option (list Edge) :=
  r ← repeat_N (orient_step (length be)) (size_t_pred (length be)) (be, 0);
  Some (ctl_state r).1.

(** The edges are returned as they are stored; the flattening done by
    [linearize] is left out. *)
Definition need_boundary (m : TriMesh) : option (TriMesh * list Edge) :=
  if is_empty (bedges m) then
    m ← need_across_edge m;
    be ← collect_boundary (mFaces m) (mFAcrossEdge m);
    be ← orient_boundary be;
    Some (with_bedges m be, be)
  else Some (m, bedges m).

(** ** [TriMeshPeriodic::delaunay]: unwrapping the periodic triangulation

    The triangulation itself is computed by the geometry library.  What the
    code below consumes is its result after
    [convert_to_9_sheeted_covering]: the finite faces as triples of vertex
    handles, and for every handle its [info()] (the index of the input
    point) and the offset of its periodic point. *)

Definition Vertex_handle : Type := nat.

Record DFace : Type := mkDFace {
  vertex0 : Vertex_handle;
  vertex1 : Vertex_handle;
  vertex2 : Vertex_handle
}.

Definition vertex (f : DFace) (vid : nat) : Vertex_handle :=
  match vid with
  | 0 => vertex0 f
  | 1 => vertex1 f
  | _ => vertex2 f
  end.

Record Delaunay : Type := mkDelaunay {
  finite_faces : list DFace;
  info : Vertex_handle → nat;
  periodic_offset : Vertex_handle → Z * Z
}.

(** [off[0] == 0 && off[1] == 0] *)
Definition zero_offset (off : Z * Z) : bool :=
  (off.1 =? 0)%Z && (off.2 =? 0)%Z.

(** [off == 2 ? -1 : int(off)] *)
Definition unwrap_offset (o : Z) : Z := if (o =? 2)%Z then (-1)%Z else o.

(** What the loop over the faces changes. *)
Record Unwrap : Type := mkUnwrap {
  uFaces : list Face;
  uPeriodicFaces : list Face;
  uTrimmedFaces : list Face;
  uDuplicates : list dupMap;
  duplicateHandles : gmap Vertex_handle nat
}.

(** Body of the loop that unwraps the corners of a periodic face, on the
    face being rewritten, the duplicate list and the handle map. *)
Definition unwrap_corner (dt : Delaunay) (nOrigVerts : nat) (df : DFace)
    (s : Face * list dupMap * gmap Vertex_handle nat) (vid : nat)
  : Face * list dupMap * gmap Vertex_handle nat :=
  let '(face, dups, dh) := s in
  let off := periodic_offset dt (vertex df vid) in
  if zero_offset off then s
  else
    let vh := vertex df vid in
    let origId := info dt vh in
    let '(dups, dh) :=
      match dh !! vh with
      | None =>
          let dups' := dups ++ [(origId, unwrap_offset off.1, unwrap_offset off.2)] in
          (dups', <[vh := length dups' + nOrigVerts - 1]> dh)
      | Some _ => (dups, dh)
      end in
    (set_corner face vid (default 0 (dh !! vh)), dups, dh).

(** Body of the loop over the finite faces. *)
Definition unwrap_face (dt : Delaunay) (nOrigVerts : nat) (s : Unwrap) (df : DFace)
  : Unwrap :=
  let num_orig_verts :=
    length (List.filter (λ vid, zero_offset (periodic_offset dt (vertex df vid)))
              [0; 1; 2]) in
  if num_orig_verts =? 0 then s
  else
    let face := mkFace (info dt (vertex0 df)) (info dt (vertex1 df))
                       (info dt (vertex2 df)) in
    if num_orig_verts =? 3 then
      mkUnwrap (uFaces s ++ [face]) (uPeriodicFaces s) (uTrimmedFaces s)
               (uDuplicates s) (duplicateHandles s)
    else
      let '(face', dups, dh) :=
        fold_left (unwrap_corner dt nOrigVerts df) [0; 1; 2]
                  (face, uDuplicates s, duplicateHandles s) in
      mkUnwrap (uFaces s) (uPeriodicFaces s ++ [face]) (uTrimmedFaces s ++ [face'])
               dups dh.

(** [TriMeshPeriodic::create_duplicate_vertices] *)
Definition duplicate_vertex (verts : list Vertex) (boxw : Vertex) (d : dupMap)
  : option Vertex :=
  let '(orig, off1, off2) := d in
  dv ← verts !! orig;
  Some (mkVertex
          (vx dv + (if (off1 =? 0)%Z then 0 else IZR off1 * vx boxw))
          (vy dv + (if (off2 =? 0)%Z then 0 else IZR off2 * vy boxw))
          (vz dv)).

Definition create_duplicate_vertices (p : TriMeshPeriodic)
  : option TriMeshPeriodic :=
  let norig := length (mVertices (base p)) in
  let ndups := length (mDuplicateVerts_OrigIds p) in
  if (norig =? 0) || (ndups =? 0) || negb (bbox_valid p) then Some p
  else
    let boxw := vsub (mBox1 p) (mBox0 p) in
    dv ← mapM (duplicate_vertex (mVertices (base p)) boxw)
              (mDuplicateVerts_OrigIds p);
    Some (with_mDuplicateVerts p dv).

(** The part of [delaunay] after the triangulation [dt] was computed:
    [mFaces.clear()], the loop over the finite faces and
    [create_duplicate_vertices]. *)
Definition delaunay (p : TriMeshPeriodic) (dt : Delaunay)
  : option TriMeshPeriodic :=
  let nOrigVerts := length (mVertices (base p)) in
  let s := fold_left (unwrap_face dt nOrigVerts) (finite_faces dt)
             (mkUnwrap [] (mPeriodicFaces p) (mTrimmedFaces p)
                       (mDuplicateVerts_OrigIds p) ∅) in
  create_duplicate_vertices
    (mkTriMeshPeriodic (with_mFaces (base p) (uFaces s)) (mBox0 p) (mBox1 p)
                       (bbox_valid p) (uPeriodicFaces s) (uTrimmedFaces s)
                       (uDuplicates s) (mDuplicateVerts p)).

(** ** Differential attributes: [need_normals] and [need_pointareas] *)

(** Modelled from the spec: [normalize] is defined in the vector header,
    which is not among the sources.  The spec has every accumulator
    normalized to unit length, a zero vector staying zero. *)
Definition normalize (v : Normal) : Normal :=
  if Req_dec_T (len v) 0 then v else vscale v (1 / len v).

(** [v[i] += x] on a vector of vectors. *)
Definition vadd_at (l : list Normal) (i : nat) (x : Normal) : option (list Normal) :=
  y ← l !! i; Some (<[i := vadd y x]> l).

(** [!x] for a scalar. *)
Definition is_zero (x : R) : bool := if Req_dec_T x 0 then true else false.

(** Body of the loop over the faces, on [(mPointNormals, mFaceNormals)]. *)
Definition normals_step (verts : list Vertex) (s : list Normal * list Normal)
    (i : nat) (f : Face) : option (list Normal * list Normal) :=
  let '(pn, fn) := s in
  p0 ← verts !! fc0 f;
  p1 ← verts !! fc1 f;
  p2 ← verts !! fc2 f;
  let a := vsub p0 p1 in
  let b := vsub p1 p2 in
  let c := vsub p2 p0 in
  let l2a := len2 a in
  let l2b := len2 b in
  let l2c := len2 c in
  if is_zero l2a || is_zero l2b || is_zero l2c then Some s
  else
    _ ← fn !! i;
    let n := CROSS a b in
    let fn := <[i := n]> fn in
    pn ← vadd_at pn (fc0 f) (vscale n (1 / (l2a * l2c)));
    pn ← vadd_at pn (fc1 f) (vscale n (1 / (l2b * l2a)));
    pn ← vadd_at pn (fc2 f) (vscale n (1 / (l2c * l2b)));
    Some (pn, fn).

(** [for (i = i0; i < nf; i++)] over the faces from [i0] on. *)
Fixpoint normals_loop (verts : list Vertex) (faces : list Face) (i : nat)
    (s : list Normal * list Normal) : option (list Normal * list Normal) :=
  match faces with
  | [] => Some s
  | f :: fs => s' ← normals_step verts s i f; normals_loop verts fs (S i) s'
  end.

(** The normals are returned as they are stored; the flattening done by
    [linearize] is left out. *)
Definition need_normals (m : TriMesh) : option (TriMesh * list Normal) :=
  let nv := length (mVertices m) in
  if negb (length (mPointNormals m) =? nv) then
    let nf := length (mFaces m) in
    '(pn, fn) ← normals_loop (mVertices m) (mFaces m) 0
                  (replicate nv vzero, replicate nf vzero);
    let pn := map normalize pn in
    Some (with_normals m pn fn, pn)
  else Some (m, mPointNormals m).

(** [0.5f * len(e[0] CROSS e[1])] for the face [p0 p1 p2]. *)
Definition face_area (p0 p1 p2 : Vertex) : R :=
  0.5 * len (CROSS (vsub p2 p1) (vsub p0 p2)).

(** The three corner areas of one face, [cornerareas[i]].  The edge
    vectors, the area, the squared lengths and the edge weights are
    numbers; the quotients need not be. *)
Definition corner_areas (p0 p1 p2 : Vertex) : Areas3 :=
  let e0 := vsub p2 p1 in
  let e1 := vsub p0 p2 in
  let e2 := vsub p1 p0 in
  let area := (0.5 * len (CROSS e0 e1))%R in
  let l20 := len2 e0 in
  let l21 := len2 e1 in
  let l22 := len2 e2 in
  let ew0 := (l20 * (l21 + l22 - l20))%R in
  let ew1 := (l21 * (l22 + l20 - l21))%R in
  let ew2 := (l22 * (l20 + l21 - l22))%R in
  if Rle_dec ew0 0 then
    let c1 := sdiv (-0.25 * l22 * area) (DOT e0 e2) in
    let c2 := sdiv (-0.25 * l21 * area) (DOT e0 e1) in
    mkAreas3 (ssub (ssub area c1) c2) c1 c2
  else if Rle_dec ew1 0 then
    let c2 := sdiv (-0.25 * l20 * area) (DOT e1 e0) in
    let c0 := sdiv (-0.25 * l22 * area) (DOT e1 e2) in
    mkAreas3 c0 (ssub (ssub area c2) c0) c2
  else if Rle_dec ew2 0 then
    let c0 := sdiv (-0.25 * l21 * area) (DOT e2 e1) in
    let c1 := sdiv (-0.25 * l20 * area) (DOT e2 e0) in
    mkAreas3 c0 c1 (ssub (ssub area c0) c1)
  else
    let ewscale := sdiv (0.5 * area) (ew0 + ew1 + ew2) in
    mkAreas3 (smul ewscale (ew1 + ew2)%R) (smul ewscale (ew2 + ew0)%R)
             (smul ewscale (ew0 + ew1)%R).

(** [pointAreas[v] += x] *)
Definition add_at (l : list Scalar) (v : nat) (x : Scalar)
  : option (list Scalar) :=
  y ← l !! v; Some (<[v := sadd y x]> l).

(** Body of the loop over the faces. *)
Definition pointareas_step (verts : list Vertex) (pa : list Scalar) (f : Face)
  : option (list Scalar) :=
  p0 ← verts !! fc0 f;
  p1 ← verts !! fc1 f;
  p2 ← verts !! fc2 f;
  let ca := corner_areas p0 p1 p2 in
  pa ← add_at pa (fc0 f) (ca0 ca);
  pa ← add_at pa (fc1 f) (ca1 ca);
  add_at pa (fc2 f) (ca2 ca).

(** [mFields] is a [std::map]: found by name, kept in the order of the
    names. *)
Fixpoint fields_find (name : string) (fl : list (string * list Scalar))
  : option (list Scalar) :=
  match fl with
  | [] => None
  | (n, d) :: r => if String.eqb name n then Some d else fields_find name r
  end.

Fixpoint fields_set (name : string) (data : list Scalar)
    (fl : list (string * list Scalar)) : list (string * list Scalar) :=
  match fl with
  | [] => [(name, data)]
  | (n, d) :: r =>
      match String.compare name n with
      | Eq => (name, data) :: r
      | Lt => (name, data) :: (n, d) :: r
      | Gt => (n, d) :: fields_set name data r
      end
  end.

Definition need_pointareas (m : TriMesh) : option (TriMesh * list Scalar) :=
  match fields_find "point_areas" (mFields m) with
  | Some pa => Some (m, pa)
  | None =>
      let nv := length (mVertices m) in
      pointAreas ← foldlM (pointareas_step (mVertices m))
                          (replicate nv (Num 0)) (mFaces m);
      Some (with_mFields m (fields_set "point_areas" pointAreas (mFields m)),
            pointAreas)
  end.

(** ** Vocabulary of the statements *)

Definition empty_mesh (d : nat) : TriMesh := mkTriMesh d [] [] [] [] [] [] [] [].

Definition empty_periodic (d : nat) : TriMeshPeriodic :=
  mkTriMeshPeriodic (empty_mesh d) vzero vzero false [] [] [] [].

(** The call returns [true] and leaves the box marked valid. *)
Definition bbox_accepted (p : TriMeshPeriodic) (vals : list R) (n : Z) : Prop :=
  (set_bbox p vals n).2 = Ok true ∧ bbox_valid (set_bbox p vals n).1 = true.

(** Binary32 numbers by their value: an integer, and a number of tenths
    rounded to nearest, as the literals [0.1f] and [0.3f] are. *)
Definition f32 (z : Z) : Binary32.TypeFunction :=
  binary_normalize Binary32.prec Binary32.emax z 0 false.

Definition tenths (z : Z) : Binary32.TypeFunction :=
  SFdiv Binary32.prec Binary32.emax (f32 z) (f32 10).






(** The box [[0, 1)] on both axes of the plane, and one vertex at
    [-2^-30] along x, just below the box. *)
Definition unit_box : Binary32.TriMeshPeriodic :=
  Binary32.mkTriMeshPeriodic 2
    [Binary32.mkVertex (S754_finite true 8388608 (-53)) (tenths 5) (f32 0)]
    (Binary32.mkVertex (f32 0) (f32 0) (f32 0))
    (Binary32.mkVertex (f32 1) (f32 1) (f32 0)) true.


(** Every corner of every face is a vertex of the mesh. *)
Definition faces_in_range (nv : nat) (faces : list Face) : Prop :=
  Forall (λ f, fc0 f < nv ∧ fc1 f < nv ∧ fc2 f < nv) faces.

(** Every registered field has a value for every vertex. *)
Definition fields_cover (nv : nat) (fields : list (string * list Scalar))
  : Prop :=
  Forall (λ nd : string * list Scalar, nv ≤ length nd.2) fields.

(** All corners of a list of faces, in face order. *)
Definition all_corners (faces : list Face) : list nat := flat_map corners faces.

(** How often [v] is a corner: what the first loop of [write_binary]
    counts.  For triangles with three distinct corners this is the number of
    faces incident to [v]. *)
Definition incident_count (faces : list Face) (v : nat) : nat :=
  count_occ Nat.eq_dec (all_corners faces) v.

(** Number of ['f'] tokens for vertex [v] in a token list. *)
Fixpoint count_tokF (v : nat) (ts : list token) : nat :=
  match ts with
  | [] => 0
  | TokF u :: r => (if u =? v then 1 else 0) + count_tokF v r
  | _ :: r => count_tokF v r
  end.

(** The faces that have [v] as a corner. *)
Definition incident (v : nat) (f : Face) : Prop := In v (corners f).

Definition distinct_corners (f : Face) : Prop :=
  fc0 f ≠ fc1 f ∧ fc1 f ≠ fc2 f ∧ fc2 f ≠ fc0 f.

Definition single_triangle (p0 p1 p2 : Vertex) (name : string) (a b c : R)
  : TriMesh :=
  mkTriMesh 3 [p0; p1; p2] [mkFace 0 1 2] [(name, [a; b; c])] [] [] [] [] [].

(** The 8-bit counters hold, modulo 256, how often each vertex occurs in
    the list [l] of corners. *)
Definition counts_ok (nv : nat) (counts : list Z) (l : list nat) : Prop :=
  length counts = nv
  ∧ ∀ v, v < nv →
      counts !! v = Some (Z.of_nat (count_occ Nat.eq_dec l v) mod 256)%Z.

Definition ceil256 (n : nat) : nat := (n + 255) / 256.

(** [n] copies of the triangle 0,1,2 on three vertices, no fields. *)
Definition stacked_triangles (n : nat) : TriMesh :=
  mkTriMesh 3 [vzero; mkVertex 1 0 0; mkVertex 0 1 0]
            (replicate n (mkFace 0 1 2)) [] [] [] [] [] [].

(** A mesh with the given faces on [nv] vertices, nothing computed yet. *)
Definition fresh_mesh (nv : nat) (faces : list Face) : TriMesh :=
  mkTriMesh 3 (replicate nv vzero) faces [] [] [] [] [] [].

(** The boundary of a tetrahedron, consistently wound. *)
Definition tetrahedron : TriMesh :=
  fresh_mesh 4 [mkFace 0 1 2; mkFace 0 3 1; mkFace 1 3 2; mkFace 2 3 0].

(** Three triangles around the edge 1-2; faces 1 and 2 both run it from 2
    to 1. *)
Definition three_on_an_edge : TriMesh :=
  fresh_mesh 5 [mkFace 0 1 2; mkFace 2 1 3; mkFace 2 1 4].

(** A square with one diagonal: its boundary is one cycle of four edges. *)
Definition square : TriMesh :=
  fresh_mesh 4 [mkFace 0 1 2; mkFace 0 2 3].

(** Every entry of the adjacent-face lists is a face with that corner. *)
Definition adj_ok (nv : nat) (faces : list Face) (adj : list (list nat)) : Prop :=
  length adj = nv
  ∧ ∀ v a k, adj !! v = Some a → In k a →
      ∃ fk, faces !! k = Some fk ∧ In v (corners fk).

(** Local edge [l] of face [k] is local edge [j] of face [i] run backwards. *)
Definition mate (faces : list Face) (i j k l : nat) : Prop :=
  ∃ fi fk,
    faces !! i = Some fi ∧ faces !! k = Some fk
    ∧ corner fk ((l + 1) mod 3) = corner fi ((j + 2) mod 3)
    ∧ corner fk ((l + 2) mod 3) = corner fi ((j + 1) mod 3).

(** No directed edge belongs to two faces (or twice to one): the mesh is
    consistently wound and no edge is shared by more than two faces. *)
Definition unique_directed (faces : list Face) : Prop :=
  ∀ i j k l fi fk,
    j < 3 → l < 3 →
    faces !! i = Some fi → faces !! k = Some fk →
    corner fi ((j + 1) mod 3) = corner fk ((l + 1) mod 3) →
    corner fi ((j + 2) mod 3) = corner fk ((l + 2) mod 3) →
    i = k ∧ j = l.

(** The across-edge table is symmetric: an entry [k] at edge [j] of face [i]
    is answered by an entry [i] at some edge of face [k]. *)
Definition across_symmetric (A : list Offset3) : Prop :=
  ∀ i j k, j < 3 → across_get A i j = Some (Z.of_nat k) →
    ∃ l, l < 3 ∧ across_get A k l = Some (Z.of_nat i).

(** Every entry that is not the sentinel names a mate that points back. *)
Definition across_inv (faces : list Face) (A : list Offset3) : Prop :=
  length A = length faces
  ∧ ∀ i j x, j < 3 → across_get A i j = Some x → x ≠ (-1)%Z →
      ∃ k l, x = Z.of_nat k ∧ l < 3 ∧ mate faces i j k l
             ∧ across_get A k l = Some (Z.of_nat i).

(** No entry of the table is the sentinel. *)
Definition no_sentinel (A : list Offset3) : Prop :=
  Forall (λ o, o0 o ≠ (-1)%Z ∧ o1 o ≠ (-1)%Z ∧ o2 o ≠ (-1)%Z) A.

(** The key of the periodic copy behind a handle: original vertex and
    normalized offset pair. *)
Definition dup_key (dt : Delaunay) (vh : Vertex_handle) : dupMap :=
  (info dt vh, unwrap_offset (periodic_offset dt vh).1,
   unwrap_offset (periodic_offset dt vh).2).

(** [vh] is a corner of a finite face of the triangulation. *)
Definition handle_of (dt : Delaunay) (vh : Vertex_handle) : Prop :=
  ∃ df vid, In df (finite_faces dt) ∧ vid < 3 ∧ vertex df vid = vh.

(** What the periodic triangulation is relied upon for: every handle
    carries the index of an input point and an offset in {0,1,2}^2, and two
    handles are the same copy of the same point only if they are equal. *)
Definition covering_ok (dt : Delaunay) (nOrig : nat) : Prop :=
  (∀ vh, handle_of dt vh →
     info dt vh < nOrig
     ∧ (0 ≤ (periodic_offset dt vh).1 ≤ 2)%Z
     ∧ (0 ≤ (periodic_offset dt vh).2 ≤ 2)%Z)
  ∧ (∀ h1 h2, handle_of dt h1 → handle_of dt h2 →
       info dt h1 = info dt h2 →
       periodic_offset dt h1 = periodic_offset dt h2 → h1 = h2).

(** Number of corners of a face in the fundamental domain. *)
Definition num_orig (dt : Delaunay) (df : DFace) : nat :=
  length (List.filter (λ vid, zero_offset (periodic_offset dt (vertex df vid)))
            [0; 1; 2]).

(** The face has one or two corners in the fundamental domain. *)
Definition straddles (dt : Delaunay) (df : DFace) : bool :=
  negb (num_orig dt df =? 0) && negb (num_orig dt df =? 3).

(** [face] is the trimmed form of [df]: a corner in the domain keeps the
    index of its point, any other corner is the original vertex count plus
    the position of its key in the duplicate list. *)
Definition trimmed_of (dt : Delaunay) (nOrig : nat) (dups : list dupMap)
    (df : DFace) (face : Face) : Prop :=
  ∀ vid, vid < 3 →
    if zero_offset (periodic_offset dt (vertex df vid))
    then corner face vid = info dt (vertex df vid)
    else ∃ pos, corner face vid = nOrig + pos
                ∧ dups !! pos = Some (dup_key dt (vertex df vid)).

(** The duplicate list and the handle map describe each other. *)
Definition dup_inv (dt : Delaunay) (nOrig : nat) (dups : list dupMap)
    (dh : gmap Vertex_handle nat) : Prop :=
  (∀ h idx, dh !! h = Some idx →
     handle_of dt h
     ∧ ∃ pos, idx = nOrig + pos ∧ dups !! pos = Some (dup_key dt h))
  ∧ (∀ pos k, dups !! pos = Some k →
       ∃ h, handle_of dt h ∧ dup_key dt h = k ∧ dh !! h = Some (nOrig + pos)).

Definition face_below (n : nat) (f : Face) : Prop :=
  fc0 f < n ∧ fc1 f < n ∧ fc2 f < n.

(** The loop invariant of [delaunay] once the faces [done] are processed. *)
Definition unwrap_inv (dt : Delaunay) (nOrig : nat) (done : list DFace)
    (s : Unwrap) : Prop :=
  dup_inv dt nOrig (uDuplicates s) (duplicateHandles s)
  ∧ Forall2 (trimmed_of dt nOrig (uDuplicates s))
            (List.filter (straddles dt) done) (uTrimmedFaces s)
  ∧ Forall (face_below nOrig) (uFaces s).

(** A small covering: handles 0, 1, 2 are the input points, handle 3 is
    point 0 shifted by one box width along x, handle 4 is point 1 shifted
    back by one box width (offset 2). *)
Definition sample_covering : Delaunay :=
  mkDelaunay
    [mkDFace 0 1 2; mkDFace 1 3 2; mkDFace 3 4 2; mkDFace 3 4 4; mkDFace 2 4 1]
    (λ vh, match vh with 3 => 0 | 4 => 1 | _ => vh end)
    (λ vh, match vh with 3 => (1, 0)%Z | 4 => (2, 0)%Z | _ => (0, 0)%Z end).

Definition sample_periodic : TriMeshPeriodic :=
  mkTriMeshPeriodic
    (mkTriMesh 2 [mkVertex (1/4) (1/4) 0; mkVertex (3/4) (1/4) 0;
                  mkVertex (1/2) (3/4) 0] [] [] [] [] [] [] [])
    vzero (mkVertex 1 1 0) true [] [] [] [].

(** A face that the loop of [need_normals] skips: one of its edges has
    squared length zero. *)
Definition zero_edge (p0 p1 p2 : Vertex) : Prop :=
  len2 (vsub p0 p1) = 0%R ∨ len2 (vsub p1 p2) = 0%R ∨ len2 (vsub p2 p0) = 0%R.

(** The face has valid corners and no edge of length zero. *)
Definition valid_face (verts : list Vertex) (f : Face) : Prop :=
  ∃ p0 p1 p2,
    verts !! fc0 f = Some p0 ∧ verts !! fc1 f = Some p1
    ∧ verts !! fc2 f = Some p2 ∧ ¬ zero_edge p0 p1 p2.


(** The area of a face of the mesh (0 for a face with a missing corner). *)
Definition face_area_of (verts : list Vertex) (f : Face) : R :=
  match verts !! fc0 f, verts !! fc1 f, verts !! fc2 f with
  | Some p0, Some p1, Some p2 => face_area p0 p1 p2
  | _, _, _ => 0%R
  end.



(** Two vertices at the same position and a third one, joined by one
    face: the edge between the first two has length zero. *)
Definition pinched_triangle : TriMesh :=
  mkTriMesh 3 [vzero; vzero; mkVertex 1 0 0] [mkFace 0 1 2] [] [] [] [] [] [].

(** A triangle on the vertices 0, 2 and 3, which lie apart, and a face on
    the vertices 0, 1 and 2, the first two of which lie at the same
    position. *)
Definition pinched_fan : TriMesh :=
  mkTriMesh 3 [vzero; vzero; mkVertex 1 0 0; mkVertex 0 1 0]
            [mkFace 0 2 3; mkFace 0 1 2] [] [] [] [] [] [].

(** The unit square in the plane [z = 0], cut along a diagonal. *)
Definition unit_square : TriMesh :=
  mkTriMesh 3 [vzero; mkVertex 1 0 0; mkVertex 1 1 0; mkVertex 0 1 0]
            [mkFace 0 1 2; mkFace 0 2 3] [] [] [] [] [] [].

(** One triangle, listed twice with opposite windings. *)
Definition two_sided : TriMesh :=
  mkTriMesh 3 [vzero; mkVertex 1 0 0; mkVertex 0 1 0]
            [mkFace 0 1 2; mkFace 0 2 1] [] [] [] [] [] [].

Definition incidentb (v : nat) (f : Face) : bool :=
  (fc0 f =? v) || (fc1 f =? v) || (fc2 f =? v).

(** The number of faces that have [v] as a corner. *)
Definition incident_faces (faces : list Face) (v : nat) : nat :=
  length (List.filter (incidentb v) faces).
(* ===================================================================== *)
(** * Part I, continued: the rest of the two files                        *)
(* ===================================================================== *)

(** ** Barycentric coordinates: [TriMesh::Point2Bary], [TriMesh::Bary2Point]

    [Point3] and [Point2] are the points of the geometry kernel, with
    [double] coordinates; like [TypeFunction] they are real numbers here. *)

Abbreviation Point3 := Vertex (only parsing).

Record Point2 : Type := mkPoint2 { p2x : R; p2y : R }.

Definition Point2Bary (p a b c : Point3) : Point3 :=
  let v0 := vsub b a in
  let v1 := vsub c a in
  let v2 := vsub p a in
  let d00 := DOT v0 v0 in
  let d01 := DOT v0 v1 in
  let d11 := DOT v1 v1 in
  let d20 := DOT v2 v0 in
  let d21 := DOT v2 v1 in
  let denom := (d00 * d11 - d01 * d01)%R in
  let v := ((d11 * d20 - d01 * d21) / denom)%R in
  let w := ((d00 * d21 - d01 * d20) / denom)%R in
  let u := (1 - v - w)%R in
  mkVertex u v w.

Definition Bary2Point (bary : Point3) (a b c : Point2) : Point2 :=
  mkPoint2 (vx bary * p2x a + vy bary * p2x b + vz bary * p2x c)
           (vx bary * p2y a + vy bary * p2y b + vz bary * p2y c).

(** ** [TriMesh::parameterize_xy] *)

(** [retval[2*i] = mVertices[i][0]; retval[2*i+1] = mVertices[i][1]] *)
Definition parameterize_xy_step (verts : list Vertex) (retval : list R) (i : nat)
  : option (list R) :=
  v ← verts !! i;
  _ ← retval !! (2 * i);
  let retval := <[2 * i := vx v]> retval in
  _ ← retval !! (2 * i + 1);
  Some (<[2 * i + 1 := vy v]> retval).

Definition parameterize_xy (m : TriMesh) : option (list R) :=
  let nverts := length (mVertices m) in
  foldlM (parameterize_xy_step (mVertices m)) (replicate (2 * nverts) 0%R)
         (seq 0 nverts).

(** ** [TriMesh::need_neighbors]

    The member [mVNeighbors] is passed in and returned. *)

(** [if (std::find(me.begin(), me.end(), n) == me.end()) me.push_back(n)] *)
Definition push_unique (me : list nat) (n : nat) : list nat :=
  if existsb (Nat.eqb n) me then me else me ++ [n].

(** Body of the loops over [i] and [j]. *)
Definition neighbors_step (faces : list Face) (i : nat) (nb : list (list nat))
    (j : nat) : option (list (list nat)) :=
  f ← faces !! i;
  me ← nb !! corner f j;
  let n1 := corner f ((j + 1) mod 3) in
  let n2 := corner f ((j + 2) mod 3) in
  Some (<[corner f j := push_unique (push_unique me n1) n2]> nb).

Definition need_neighbors (m : TriMesh) (mVNeighbors : list (list nat))
  : option (list (list nat)) :=
  if negb (is_empty mVNeighbors) then Some mVNeighbors
  else
    let nv := length (mVertices m) in
    let nf := length (mFaces m) in
    _ ← count_adjacent nv (mFaces m);
    foldlM (λ nb i, foldlM (neighbors_step (mFaces m) i) nb [0; 1; 2])
           (replicate nv []) (seq 0 nf).


(** ** [TriMesh::project_on_surface]

    The search tree over the triangles of the mesh belongs to the geometry
    library.  What the code consumes of it is
    [closest_point_and_primitive]: for the list of triangles and a query
    point, the closest point of the surface and the position of its
    triangle in the list. *)







(** ** Vocabulary of the further statements *)

(** The point [a + s (b - a) + t (c - a) + h ((b - a) x (c - a))]: the point
    of the plane of the triangle with coordinates [s], [t], moved by [h]
    along the normal of the plane. *)
Definition plane_point (a b c : Point3) (s t h : R) : Point3 :=
  vadd a (vadd (vadd (vscale (vsub b a) s) (vscale (vsub c a) t))
               (vscale (CROSS (vsub b a) (vsub c a)) h)).

(** A planar point as a point of space, and back. *)
Definition lift (p : Point2) : Point3 := mkVertex (p2x p) (p2y p) 0.
Definition drop_z (p : Point3) : Point2 := mkPoint2 (vx p) (vy p).

(** The [x] and [y] coordinates of the vertices, vertex after vertex. *)
Definition xy_flat (verts : list Vertex) : list R :=
  flat_map (λ v, [vx v; vy v]) verts.

(** The faces from number [i] on that have corner [v], each once for every
    corner that is [v], in face order. *)
Fixpoint adjacent_from (i : nat) (faces : list Face) (v : nat) : list nat :=
  match faces with
  | [] => []
  | f :: fs =>
      replicate (count_occ Nat.eq_dec (corners f) v) i
      ++ adjacent_from (S i) fs v
  end.

(** [u] follows or precedes [v] in one of the first [n] faces, or in face
    [n] at a corner position below [nj]. *)
Definition shares_face_upto (faces : list Face) (n nj : nat) (v u : nat) : Prop :=
  ∃ i j f,
    (i < n ∨ (i = n ∧ j < nj)) ∧ j < 3 ∧ faces !! i = Some f
    ∧ corner f j = v
    ∧ (u = corner f ((j + 1) mod 3) ∨ u = corner f ((j + 2) mod 3)).

(** [u] and [v] are corners, at different positions, of one face. *)
Definition shares_face (faces : list Face) (v u : nat) : Prop :=
  ∃ i j f,
    j < 3 ∧ faces !! i = Some f ∧ corner f j = v
    ∧ (u = corner f ((j + 1) mod 3) ∨ u = corner f ((j + 2) mod 3)).

(** Some other face runs local edge [j] of face [i] backwards. *)
Definition has_mate (faces : list Face) (i j : nat) : Prop :=
  ∃ k l, k ≠ i ∧ l < 3 ∧ mate faces i j k l.

(** The adjacent-face lists hold exactly the incident faces. *)
Definition adj_complete (nv : nat) (faces : list Face) (adj : list (list nat))
  : Prop :=
  length adj = nv
  ∧ ∀ v a, adj !! v = Some a →
      ∀ k, In k a ↔ ∃ f, faces !! k = Some f ∧ incident v f.

(** Every entry that is not the sentinel names another face, which runs
    the edge backwards. *)
Definition across_sound (faces : list Face) (A : list Offset3) : Prop :=
  length A = length faces
  ∧ ∀ i j x, j < 3 → across_get A i j = Some x → x ≠ (-1)%Z →
      ∃ k l, x = Z.of_nat k ∧ k ≠ i ∧ l < 3 ∧ mate faces i j k l.

(** The entries of the face edges before position [(n, nj)] are set
    wherever the edge has a mate. *)
Definition across_done (faces : list Face) (A : list Offset3) (n nj : nat)
  : Prop :=
  ∀ i j x, (i < n ∨ (i = n ∧ j < nj)) → j < 3 → has_mate faces i j →
    across_get A i j = Some x → x ≠ (-1)%Z.

(** A face edge with no mate, as the pair of its end points. *)
Definition unmatched_edge (faces : list Face) (e : Edge) : Prop :=
  ∃ i j f,
    faces !! i = Some f ∧ j < 3 ∧ ¬ has_mate faces i j
    ∧ e = (corner f ((j + 1) mod 3), corner f ((j + 2) mod 3)).

(** Edge [b + 1] starts where edge [b] ends. *)
Definition follows (be : list Edge) (b : nat) : Prop :=
  ∃ e e', be !! b = Some e ∧ be !! (b + 1) = Some e' ∧ e'.1 = e.2.

(** Edge [b] ends where the first edge starts. *)
Definition closes (be : list Edge) (b : nat) : Prop :=
  ∃ e e0, be !! b = Some e ∧ be !! 0 = Some e0 ∧ e.2 = e0.1.

(** No later edge starts where edge [b] ends. *)
Definition no_successor (be : list Edge) (b : nat) : Prop :=
  ∃ e, be !! b = Some e
       ∧ ∀ j e', b < j → be !! j = Some e' → e'.1 ≠ e.2.

(** The state of the reordering loop after [k] iterations that went on. *)
Definition orient_inv (be0 : list Edge) (k : nat) (s : list Edge * nat)
  : Prop :=
  s.2 = k ∧ s.1 ≡ₚ be0 ∧ s.1 !! 0 = be0 !! 0
  ∧ ∀ b, b < k → follows s.1 b ∨ (closes s.1 b ∧ no_successor s.1 b).

(** The state in which the reordering loop gives up. *)
Definition orient_stuck (be0 : list Edge) (s : list Edge * nat) : Prop :=
  s.2 + 1 < length be0 ∧ s.1 ≡ₚ be0 ∧ s.1 !! 0 = be0 !! 0
  ∧ (∀ b, b < s.2 → follows s.1 b ∨ (closes s.1 b ∧ no_successor s.1 b))
  ∧ no_successor s.1 s.2 ∧ ¬ closes s.1 s.2.

(** The edges collected by the first pass of [need_boundary] when it has
    reached local edge [nj] of face [n]. *)
Definition collected (faces : list Face) (A : list Offset3) (n nj : nat)
    (be : list Edge) : Prop :=
  length be ≤ 3 * n + nj
  ∧ ∀ e, In e be ↔
      ∃ i j f,
        (i < n ∨ (i = n ∧ j < nj))
        ∧ faces !! i = Some f ∧ j < 3
        ∧ across_get A i j = Some (-1)%Z
        ∧ e = (corner f ((j + 1) mod 3), corner f ((j + 2) mod 3)).

(** The face of the triangulation as a triple of input-point indices. *)
Definition face_of (dt : Delaunay) (df : DFace) : Face :=
  mkFace (info dt (vertex0 df)) (info dt (vertex1 df)) (info dt (vertex2 df)).

(** All three corners of the face lie in the fundamental domain. *)
Definition inside (dt : Delaunay) (df : DFace) : bool :=
  num_orig dt df =? 3.

(** Every entry of the duplicate list names an existing vertex. *)
Definition dups_in_range (nOrig : nat) (dups : list dupMap) : Prop :=
  Forall (λ d : dupMap, d.1.1 < nOrig) dups.

(** What the face loop of [delaunay] has done to the state [s] after the
    faces [fs]. *)
Definition classified (dt : Delaunay) (nOrig : nat) (fs : list DFace)
    (s s' : Unwrap) : Prop :=
  uFaces s' = uFaces s ++ map (face_of dt) (List.filter (inside dt) fs)
  ∧ uPeriodicFaces s'
    = uPeriodicFaces s ++ map (face_of dt) (List.filter (straddles dt) fs)
  ∧ length (uTrimmedFaces s')
    = length (uTrimmedFaces s) + length (List.filter (straddles dt) fs)
  ∧ dups_in_range nOrig (uDuplicates s').

(** Both offsets of the entry are -1, 0 or 1. *)
Definition unit_offsets (d : dupMap) : Prop :=
  (-1 ≤ d.1.2 ≤ 1)%Z ∧ (-1 ≤ d.2 ≤ 1)%Z.

(** The sample mesh with two duplicates listed: vertex 0 one box to the
    right, vertex 1 one box to the left. *)
Definition sample_with_duplicates : TriMeshPeriodic :=
  mkTriMeshPeriodic (base sample_periodic) vzero (mkVertex 1 1 0)
    true [] [] [(0, 1%Z, 0%Z); (1, (-1)%Z, 0%Z)] [].

(** Number of ['v'] tokens for vertex [v] in a token list. *)
Fixpoint count_tokV (v : nat) (ts : list token) : nat :=
  match ts with
  | [] => 0
  | TokV u _ _ :: r => (if u =? v then 1 else 0) + count_tokV v r
  | _ :: r => count_tokV v r
  end.

Definition is_tokV (t : token) : bool :=
  match t with TokV _ _ _ => true | _ => false end.

Definition is_tokF (t : token) : bool :=
  match t with TokF _ => true | _ => false end.

(** Index, counted from [i], of the first face that has [v] as a corner. *)
Fixpoint first_face_from (i : nat) (faces : list Face) (v : nat)
  : option nat :=
  match faces with
  | [] => None
  | f :: fs => if incidentb v f then Some i else first_face_from (S i) fs v
  end.

Definition first_face (faces : list Face) (v : nat) : option nat :=
  first_face_from 0 faces v.

(** The value of [first[v]] after the first loop of [write_binary]. *)
Definition first_value (faces : list Face) (v : nat) : Z :=
  match first_face faces v with
  | Some i => Z.of_nat i
  | None => (2 ^ 32 - 1)%Z
  end.

(** The payload of a ['v'] token: the position and the value of every
    field at the vertex. *)
Definition payload_ok (m : TriMesh) (v : nat) (pos : Vertex)
    (fl : list Scalar) : Prop :=
  mVertices m !! v = Some pos
  ∧ Forall2 (λ (nd : string * list Scalar) x, nd.2 !! v = Some x)
            (mFields m) fl.

(** The block written for face [f], the [i]-th face of [faces]. *)
Definition block_ok (m : TriMesh) (faces : list Face) (i : nat) (f : Face)
    (b : list token) : Prop :=
  (∃ tv tf,
     b = tv ++ [TokE (fc0 f) (fc1 f); TokE (fc1 f) (fc2 f);
                TokE (fc2 f) (fc0 f)] ++ tf
     ∧ forallb is_tokV tv = true ∧ forallb is_tokF tf = true)
  ∧ (∀ v, count_tokV v b
          = if decide (first_face faces v = Some i) then 1 else 0)
  ∧ ∀ v pos fl, In (TokV v pos fl) b → payload_ok m v pos fl.

(** What face [f] adds to the point area of vertex [v]: its corner area at
    every corner that is [v] (0 for a face with a missing corner). *)
Definition corner_share (verts : list Vertex) (v : nat) (f : Face) : Scalar :=
  match verts !! fc0 f, verts !! fc1 f, verts !! fc2 f with
  | Some p0, Some p1, Some p2 =>
      let ca := corner_areas p0 p1 p2 in
      sadd (sadd (if fc0 f =? v then ca0 ca else Num 0)
                 (if fc1 f =? v then ca1 ca else Num 0))
           (if fc2 f =? v then ca2 ca else Num 0)
  | _, _, _ => Num 0
  end.

(** The sum of a list of scalars. *)
Definition ssum (l : list Scalar) : Scalar := fold_right sadd (Num 0) l.

(** The sum of a list of vectors. *)
Definition vsum (l : list Normal) : Normal := fold_right vadd vzero l.

(** The face is passed over by the loop of [need_normals]: one of its
    edges has squared length zero (or a corner is missing). *)
Definition skipped (verts : list Vertex) (f : Face) : bool :=
  match verts !! fc0 f, verts !! fc1 f, verts !! fc2 f with
  | Some p0, Some p1, Some p2 =>
      is_zero (len2 (vsub p0 p1)) || is_zero (len2 (vsub p1 p2))
      || is_zero (len2 (vsub p2 p0))
  | _, _, _ => true
  end.

(** The face normal stored for [f]: the cross product of its first two
    edge vectors, not normalized; zero for a face that is passed over. *)
Definition raw_normal (verts : list Vertex) (f : Face) : Normal :=
  match verts !! fc0 f, verts !! fc1 f, verts !! fc2 f with
  | Some p0, Some p1, Some p2 =>
      if skipped verts f then vzero else CROSS (vsub p0 p1) (vsub p1 p2)
  | _, _, _ => vzero
  end.

(** What face [f] adds to the normal of vertex [v]: at every corner that is
    [v], its face normal divided by the squared lengths of the two edges
    at that corner. *)
Definition normal_share (verts : list Vertex) (v : nat) (f : Face) : Normal :=
  match verts !! fc0 f, verts !! fc1 f, verts !! fc2 f with
  | Some p0, Some p1, Some p2 =>
      let l2a := len2 (vsub p0 p1) in
      let l2b := len2 (vsub p1 p2) in
      let l2c := len2 (vsub p2 p0) in
      let n := raw_normal verts f in
      vadd (vadd (if fc0 f =? v then vscale n (1 / (l2a * l2c)) else vzero)
                 (if fc1 f =? v then vscale n (1 / (l2b * l2a)) else vzero))
           (if fc2 f =? v then vscale n (1 / (l2c * l2b)) else vzero)
  | _, _, _ => vzero
  end.


(** What is relied upon of an entry of the duplicate list: it names an
    existing vertex, its offsets are -1, 0 or 1, and not both are 0. *)
Definition displaced (nOrig : nat) (d : dupMap) : Prop :=
  d.1.1 < nOrig ∧ unit_offsets d ∧ (d.1.2 ≠ 0%Z ∨ d.2 ≠ 0%Z).

(* ===================================================================== *)
(** * Part II: properties                                                 *)
(* ===================================================================== *)

(** ** Dimensionality *)

(** C9: [set_dimensionality] stores its argument before it validates it:
    whatever the argument, the mesh holds it afterwards; for an argument
    other than 2 or 3 the call throws and the mesh is left with that invalid
    dimensionality (every other member is untouched), and for 2 or 3 the
    call returns [true]. *)
Theorem set_dimensionality_not_atomic (m : TriMesh) (d : nat) :
  mDim (set_dimensionality m d).1 = d
  ∧ (set_dimensionality m d).1 = with_mDim m d
  ∧ (d ≠ 2 → d ≠ 3 →
       throws (set_dimensionality m d).2 ∧ mDim (set_dimensionality m d).1 = d)
  ∧ (d = 2 ∨ d = 3 → (set_dimensionality m d).2 = Ok true).
Proof.
  unfold set_dimensionality, throws; cbn [mDim with_mDim].
  repeat split.
  - by destruct (_ && _).
  - by destruct (_ && _).
  - destruct (Nat.eqb_spec d 2); [done|]. destruct (Nat.eqb_spec d 3); [done|].
    cbn. eauto.
  - by destruct (_ && _).
  - intros [-> | ->]; reflexivity.
Qed.

(** ** The periodic box *)


(** C1, as stated ("succeeds exactly when n = 2 or n = 2*d"), fails in three
    dimensions: two values are rejected there (and three are accepted). *)
Lemma set_bbox_two_values_rejected_in_3d :
  ¬ (∀ (d : nat) (n : Z) (p : TriMeshPeriodic) (vals : list R),
        (d = 2 ∨ d = 3) → mDim (base p) = d → Z.of_nat (length vals) = n →
        (bbox_accepted p vals n ↔ n = 2%Z ∨ n = (2 * Z.of_nat d)%Z)).
Proof.
  intros H.
  destruct (H 3 2%Z (empty_periodic 3) [1%R; 1%R]) as [_ Hacc];
    [by right | done | done |].
  destruct Hacc as [Hok _]; [by left|].
  discriminate Hok.
Qed.

(** C1 (amended): for a mesh of dimensionality [d] in {2,3}, [set_bbox]
    given an array of at least [n] values returns [true] and marks the box
    valid exactly when [n = d] or [n = 2*d]; for any other count it throws
    [invalid_argument] and leaves the object as it was; the [n = d] form
    puts the box origin at zero and the [n = 2*d] form takes both corners
    from the array. *)
Theorem set_bbox_accepts_d_or_2d (p : TriMeshPeriodic) (vals : list R) (n : Z) :
  (mDim (base p) = 2 ∨ mDim (base p) = 3) →
  (n ≤ Z.of_nat (length vals))%Z →
  let d := Z.of_nat (mDim (base p)) in
  (bbox_accepted p vals n ↔ n = d ∨ n = (2 * d)%Z)
  ∧ (¬ (n = d ∨ n = (2 * d)%Z) →
       throws (set_bbox p vals n).2 ∧ (set_bbox p vals n).1 = p)
  ∧ (n = d → mBox0 (set_bbox p vals n).1 = vzero).
Proof.
  intros Hd Hlen d.
  assert (Hget : ∀ i, (Z.of_nat i < n)%Z → ∃ x, vals !! i = Some x).
  { intros i Hi. apply lookup_lt_is_Some. lia. }
  unfold bbox_accepted, set_bbox, throws.
  destruct Hd as [Hd | Hd]; subst d; rewrite Hd; cbn [Nat.eqb andb Z.of_nat].
  - destruct (Z.eqb_spec n 2) as [-> | N2]; cbn [andb].
    { destruct (Hget 0) as [a ->]; [lia|]. destruct (Hget 1) as [b ->]; [lia|].
      cbn. intuition lia. }
    rewrite !andb_false_r.
    destruct (Z.eqb_spec n 4) as [-> | N4]; cbn [andb].
    { destruct (Hget 0) as [a ->]; [lia|]. destruct (Hget 1) as [b ->]; [lia|].
      destruct (Hget 2) as [c ->]; [lia|]. destruct (Hget 3) as [e ->]; [lia|].
      cbn. intuition lia. }
    cbn. split_and!; [split; [intros [? ?]; discriminate | lia] | eauto | lia].
  - rewrite !andb_false_r.
    destruct (Z.eqb_spec n 3) as [-> | N3]; cbn [andb].
    { destruct (Hget 0) as [a ->]; [lia|]. destruct (Hget 1) as [b ->]; [lia|].
      destruct (Hget 2) as [c ->]; [lia|].
      cbn. intuition lia. }
    destruct (Z.eqb_spec n 6) as [-> | N6]; cbn [andb].
    { destruct (Hget 0) as [a ->]; [lia|]. destruct (Hget 1) as [b ->]; [lia|].
      destruct (Hget 2) as [c ->]; [lia|]. destruct (Hget 3) as [e ->]; [lia|].
      destruct (Hget 4) as [f ->]; [lia|]. destruct (Hget 5) as [g ->]; [lia|].
      cbn. intuition lia. }
    cbn. split_and!; [split; [intros [? ?]; discriminate | lia] | eauto | lia].
Qed.

Lemma set_bbox_accepts_d_or_2d_witness :
  (bbox_accepted (empty_periodic 3) [1%R; 2%R; 3%R] 3
     ↔ 3%Z = Z.of_nat 3 ∨ 3%Z = (2 * Z.of_nat 3)%Z)
  ∧ (¬ (3%Z = Z.of_nat 3 ∨ 3%Z = (2 * Z.of_nat 3)%Z) →
       throws (set_bbox (empty_periodic 3) [1%R; 2%R; 3%R] 3).2
       ∧ (set_bbox (empty_periodic 3) [1%R; 2%R; 3%R] 3).1 = empty_periodic 3)
  ∧ (3%Z = Z.of_nat 3 →
       mBox0 (set_bbox (empty_periodic 3) [1%R; 2%R; 3%R] 3).1 = vzero).
Proof.
  apply (set_bbox_accepts_d_or_2d (empty_periodic 3) [1%R; 2%R; 3%R] 3).
  - right; reflexivity.
  - simpl; lia.
Defined.

(** ** Wrapping vertices into the box *)





(** A coordinate just below the minimum: in the box [[0, 1)] the sum
    [-2^-30 + 1] is rounded to 1, which is the maximum, and the second
    test subtracts the extent again: the coordinate ends at 0, not at the
    sum. *)
Lemma wrap_vertices_unit_box :
  Binary32.fadd (S754_finite true 8388608 (-53)) (f32 1) = f32 1
  ∧ Binary32.wrap_vertices unit_box 2
    = (Binary32.with_mVertices unit_box
         [Binary32.mkVertex (f32 0) (tenths 5) (f32 0)],
       Ok true).
Proof. split; vm_compute; reflexivity. Qed.




(** ** The binary token stream *)

(** C5: a mesh of one triangle on vertices 0, 1, 2 with one registered
    field is written as the header followed by exactly three ['v'] tokens
    (vertex index, position, one field value each), then exactly three
    ['e'] tokens for the directed edges 0->1, 1->2, 2->0, then exactly three
    ['f'] tokens, one per vertex, in this order. *)
Theorem write_binary_single_triangle
    (m : TriMesh) (p0 p1 p2 : Vertex) (name : string) (a b c : Scalar) :
  mVertices m = [p0; p1; p2] →
  mFaces m = [mkFace 0 1 2] →
  mFields m = [(name, [a; b; c])] →
  write_binary m
  = Some (header,
          [TokV 0 p0 [a]; TokV 1 p1 [b]; TokV 2 p2 [c];
           TokE 0 1; TokE 1 2; TokE 2 0;
           TokF 0; TokF 1; TokF 2]).
Proof.
  intros Hv Hf Hfl.
  unfold write_binary, tally. rewrite Hv, Hf. cbn.
  unfold write_vertex. rewrite Hv, Hfl. reflexivity.
Qed.

Lemma write_binary_single_triangle_witness :
  write_binary (single_triangle vzero (mkVertex 1 0 0) (mkVertex 0 1 0)
                  "f" 10 20 30)
  = Some (header,
          [TokV 0 vzero [10%R]; TokV 1 (mkVertex 1 0 0) [20%R];
           TokV 2 (mkVertex 0 1 0) [30%R];
           TokE 0 1; TokE 1 2; TokE 2 0;
           TokF 0; TokF 1; TokF 2]).
Proof.
  apply (write_binary_single_triangle
           (single_triangle vzero (mkVertex 1 0 0) (mkVertex 0 1 0) "f" 10 20 30)
           vzero (mkVertex 1 0 0) (mkVertex 0 1 0) "f" 10%R 20%R 30%R);
    reflexivity.
Defined.

(** *** The 8-bit counters *)

Ltac divmod_lia :=
  zify; rewrite ?Nat2Z.inj_div, ?Nat2Z.inj_mod, ?Nat2Z.inj_add, ?Nat2Z.inj_mul in *;
  Z.to_euclidean_division_equations; lia.

Lemma ceil256_S (n : nat) :
  ceil256 (S n) = ceil256 n + (if n mod 256 =? 0 then 1 else 0).
Proof.
  unfold ceil256.
  destruct (Nat.eqb_spec (n mod 256) 0) as [H | H]; cbv iota; divmod_lia.
Qed.

Lemma ceil256_small (n : nat) : 1 ≤ n ≤ 255 → ceil256 n = 1.
Proof.
  intros H. unfold ceil256. divmod_lia.
Qed.

Lemma ceil256_multiple (q : nat) : ceil256 (256 * q) = q.
Proof.
  unfold ceil256. divmod_lia.
Qed.

Lemma count_tokF_app (v : nat) (a b : list token) :
  count_tokF v (a ++ b) = count_tokF v a + count_tokF v b.
Proof.
  induction a as [|t a IH]; [reflexivity|].
  destruct t; cbn; rewrite IH; lia.
Qed.

Lemma counts_ok_same_occ (nv : nat) (counts : list Z) (l l' : list nat) :
  (∀ v, count_occ Nat.eq_dec l v = count_occ Nat.eq_dec l' v) →
  counts_ok nv counts l → counts_ok nv counts l'.
Proof.
  intros Heq [Hlen Hval]. split; [exact Hlen|].
  intros v Hv. rewrite <- Heq. by apply Hval.
Qed.

Lemma incr8_ok (nv : nat) (counts : list Z) (l : list nat) (u : nat) :
  counts_ok nv counts l → u < nv →
  ∃ counts', incr8 counts u = Some counts' ∧ counts_ok nv counts' (u :: l).
Proof.
  intros [Hlen Hval] Hu. unfold incr8. rewrite (Hval u Hu). cbn.
  eexists; split; [reflexivity|]. split; [by rewrite length_insert|].
  intros v Hv. cbn [count_occ]. destruct (Nat.eq_dec u v) as [<- | Hne].
  - rewrite list_lookup_insert_eq by lia. f_equal. unfold wrap8.
    rewrite Nat2Z.inj_succ, Zplus_mod_idemp_l. f_equal; lia.
  - rewrite list_lookup_insert_ne by done. by apply Hval.
Qed.

Lemma close_corner_ok (nv : nat) (counts : list Z) (l : list nat) (u : nat) :
  counts_ok nv counts (u :: l) → u < nv →
  ∃ counts',
    close_corner counts u
    = Some (counts',
            if count_occ Nat.eq_dec l u mod 256 =? 0 then [TokF u] else [])
    ∧ counts_ok nv counts' l.
Proof.
  intros [Hlen Hval] Hu. unfold close_corner. rewrite (Hval u Hu).
  cbn [mbind option_bind count_occ].
  destruct (Nat.eq_dec u u) as [_ | ?]; [|done].
  set (k := count_occ Nat.eq_dec l u).
  assert (Hc : wrap8 (Z.of_nat (S k) mod 256 - 1) = (Z.of_nat k mod 256)%Z).
  { unfold wrap8. rewrite Zminus_mod_idemp_l. f_equal; lia. }
  rewrite Hc. eexists; split.
  - f_equal. f_equal.
    change 256%Z with (Z.of_nat 256). rewrite <- Nat2Z.inj_mod.
    destruct (Nat.eqb_spec (k mod 256) 0) as [H0 | H0];
      destruct (Z.eqb_spec (Z.of_nat (k mod 256)) 0) as [H1 | H1];
      try reflexivity; lia.
  - split; [by rewrite length_insert|].
    intros v Hv. destruct (decide (u = v)) as [<- | Hne].
    + rewrite list_lookup_insert_eq by lia. reflexivity.
    + rewrite list_lookup_insert_ne by done. rewrite (Hval v Hv).
      cbn [count_occ]. destruct (Nat.eq_dec u v); [done | reflexivity].
Qed.

Lemma close_step_count (v u : nat) (rest : list nat) :
  count_tokF v (if count_occ Nat.eq_dec rest u mod 256 =? 0
                then [TokF u] else [])
  + ceil256 (count_occ Nat.eq_dec rest v)
  = ceil256 (count_occ Nat.eq_dec (u :: rest) v).
Proof.
  cbn [count_occ]. destruct (Nat.eq_dec u v) as [<- | Hne].
  - rewrite ceil256_S. destruct (_ =? 0); cbn; [rewrite Nat.eqb_refl|]; lia.
  - destruct (_ =? 0); cbn; [|lia].
    destruct (Nat.eqb_spec u v); [done | lia].
Qed.

Lemma min_first_ok (first : list Z) (u : nat) (k : Z) :
  u < length first →
  ∃ first', min_first first u k = Some first' ∧ length first' = length first.
Proof.
  intros Hu. unfold min_first.
  destruct (lookup_lt_is_Some_2 first u Hu) as [x ->]. cbn.
  eexists; split; [reflexivity | by rewrite length_insert].
Qed.

Lemma tally_ok (nv : nat) (fs : list Face) :
  ∀ counts first k l,
    faces_in_range nv fs → counts_ok nv counts l → length first = nv →
    ∃ counts' first' k',
      foldlM tally_face (counts, first, k) fs = Some (counts', first', k')
      ∧ counts_ok nv counts' (all_corners fs ++ l)
      ∧ length first' = nv.
Proof.
  induction fs as [|f fs IH]; intros counts first k l Hr Hc Hf.
  - exists counts, first, k. split_and!; [reflexivity | exact Hc | exact Hf].
  - apply Forall_cons in Hr as [(H0 & H1 & H2) Hr].
    destruct (incr8_ok nv counts l (fc0 f) Hc H0) as (c1 & E1 & Hc1).
    destruct (incr8_ok nv c1 _ (fc1 f) Hc1 H1) as (c2 & E2 & Hc2).
    destruct (incr8_ok nv c2 _ (fc2 f) Hc2 H2) as (c3 & E3 & Hc3).
    destruct (min_first_ok first (fc0 f) k) as (g1 & F1 & L1); [lia|].
    destruct (min_first_ok g1 (fc1 f) k) as (g2 & F2 & L2); [lia|].
    destruct (min_first_ok g2 (fc2 f) k) as (g3 & F3 & L3); [lia|].
    destruct (IH c3 g3 (wrap32 (k + 1)) _ Hr Hc3) as (c' & g' & k' & E & Hc' & L');
      [lia|].
    exists c', g', k'. split_and!; [|clear E|exact L'].
    + assert (Hstep : tally_face (counts, first, k) f
                      = Some (c3, g3, wrap32 (k + 1))).
      { unfold tally_face. rewrite E1; cbn. rewrite E2; cbn. rewrite E3; cbn.
        rewrite F1; cbn. rewrite F2; cbn. rewrite F3; reflexivity. }
      cbn [foldlM]. rewrite Hstep. exact E.
    + eapply counts_ok_same_occ; [|exact Hc'].
      intros v. unfold all_corners. cbn [flat_map]. unfold corners.
      rewrite !count_occ_app. cbn [count_occ app].
      repeat destruct (Nat.eq_dec _ v); lia.
Qed.

Lemma fields_lookup_total (nv u : nat)
    (fields : list (string * list Scalar)) :
  fields_cover nv fields → u < nv →
  ∃ fl, mapM (λ nd : string * list Scalar, nd.2 !! u) fields = Some fl.
Proof.
  intros Hc Hu. induction Hc as [|nd fields Hnd _ [fl IH]].
  - by exists [].
  - destruct (lookup_lt_is_Some_2 nd.2 u) as [x Hx]; [lia|].
    exists (x :: fl). cbn. rewrite Hx. cbn. rewrite IH. reflexivity.
Qed.

Lemma write_vertex_ok (m : TriMesh) (first : list Z) (k : Z) (u : nat) :
  length first = length (mVertices m) →
  fields_cover (length (mVertices m)) (mFields m) →
  u < length (mVertices m) →
  ∃ tv, write_vertex m first k u = Some tv ∧ ∀ v, count_tokF v tv = 0.
Proof.
  intros Hf Hc Hu. unfold write_vertex.
  destruct (lookup_lt_is_Some_2 first u) as [x ->]; [lia|].
  cbn [mbind option_bind]. destruct (k =? x)%Z.
  - destruct (lookup_lt_is_Some_2 (mVertices m) u Hu) as [pos ->].
    destruct (fields_lookup_total _ u _ Hc Hu) as [fl ->].
    cbn [mbind option_bind]. eexists; split; [reflexivity | done].
  - eexists; split; [reflexivity | done].
Qed.

Lemma write_face_ok (m : TriMesh) (first counts : list Z) (k : Z) (f : Face)
    (l : list nat) :
  let nv := length (mVertices m) in
  length first = nv → fields_cover nv (mFields m) →
  fc0 f < nv ∧ fc1 f < nv ∧ fc2 f < nv →
  counts_ok nv counts (corners f ++ l) →
  ∃ counts' b,
    write_face m first (counts, k) f = Some (counts', wrap32 (k + 1), b)
    ∧ counts_ok nv counts' l
    ∧ ∀ v, count_tokF v b + ceil256 (count_occ Nat.eq_dec l v)
           = ceil256 (count_occ Nat.eq_dec (corners f ++ l) v).
Proof.
  intros nv Hf Hc (H0 & H1 & H2) Hcnt. unfold corners in Hcnt |- *.
  cbn [app] in Hcnt |- *.
  destruct (write_vertex_ok m first k (fc0 f) Hf Hc H0) as (tv0 & V0 & Z0).
  destruct (write_vertex_ok m first k (fc1 f) Hf Hc H1) as (tv1 & V1 & Z1).
  destruct (write_vertex_ok m first k (fc2 f) Hf Hc H2) as (tv2 & V2 & Z2).
  destruct (close_corner_ok nv counts _ (fc0 f) Hcnt H0) as (c1 & E1 & Hc1).
  destruct (close_corner_ok nv c1 _ (fc1 f) Hc1 H1) as (c2 & E2 & Hc2).
  destruct (close_corner_ok nv c2 _ (fc2 f) Hc2 H2) as (c3 & E3 & Hc3).
  eexists c3, _. split_and!; [|exact Hc3|].
  - unfold write_face. rewrite V0, V1, V2. cbn [mbind option_bind].
    rewrite E1. cbn [mbind option_bind]. rewrite E2. cbn [mbind option_bind].
    rewrite E3. reflexivity.
  - intros v. rewrite !count_tokF_app, Z0, Z1, Z2.
    cbn [count_tokF].
    rewrite <- (close_step_count v (fc0 f)), <- (close_step_count v (fc1 f)),
      <- (close_step_count v (fc2 f)).
    lia.
Qed.

Lemma write_faces_ok (m : TriMesh) (first : list Z) (fs : list Face) :
  let nv := length (mVertices m) in
  length first = nv → fields_cover nv (mFields m) →
  ∀ counts k,
    faces_in_range nv fs → counts_ok nv counts (all_corners fs) →
    ∃ blocks,
      write_faces m first (counts, k) fs = Some blocks
      ∧ length blocks = length fs
      ∧ (∀ v, count_tokF v (concat blocks)
              = ceil256 (count_occ Nat.eq_dec (all_corners fs) v))
      ∧ (∀ i b v, blocks !! i = Some b →
           count_tokF v b
           + ceil256 (count_occ Nat.eq_dec (all_corners (drop (S i) fs)) v)
           = ceil256 (count_occ Nat.eq_dec (all_corners (drop i fs)) v)).
Proof.
  intros nv Hf Hc. induction fs as [|f fs IH]; intros counts k Hr Hcnt.
  - exists []. split_and!; try reflexivity. intros i b v Hb. by destruct i.
  - apply Forall_cons in Hr as [Hf0 Hr].
    change (all_corners (f :: fs)) with (corners f ++ all_corners fs) in Hcnt.
    destruct (write_face_ok m first counts k f _ Hf Hc Hf0 Hcnt)
      as (c' & b & E & Hc' & Hb).
    destruct (IH c' (wrap32 (k + 1)) Hr Hc') as (bs & Es & Hlen & Htot & Hblk).
    exists (b :: bs). split_and!.
    + cbn [write_faces]. rewrite E. cbn [mbind option_bind]. rewrite Es.
      reflexivity.
    + cbn. by rewrite Hlen.
    + intros v. cbn [concat]. rewrite count_tokF_app, Htot.
      change (all_corners (f :: fs)) with (corners f ++ all_corners fs).
      apply Hb.
    + intros [|i] b' v Hb'.
      * cbn in Hb'. injection Hb' as <-. cbn [drop].
        change (all_corners (f :: fs)) with (corners f ++ all_corners fs).
        rewrite drop_0. apply Hb.
      * cbn in Hb'. cbn [drop]. by apply Hblk.
Qed.

Lemma all_corners_cons (f : Face) (fs : list Face) :
  all_corners (f :: fs) = corners f ++ all_corners fs.
Proof. reflexivity. Qed.

Lemma count_occ_no_later_face (v : nat) (fs : list Face) (i : nat) :
  (∀ j f', i < j → fs !! j = Some f' → ¬ incident v f') →
  count_occ Nat.eq_dec (all_corners (drop (S i) fs)) v = 0.
Proof.
  intros Hlater. apply count_occ_not_In. unfold all_corners.
  rewrite in_flat_map. intros (f' & Hin & Hv).
  apply list_elem_of_In, list_elem_of_lookup in Hin as [j Hj].
  rewrite lookup_drop in Hj. eapply (Hlater (S i + j)); [lia | exact Hj | exact Hv].
Qed.

Lemma count_occ_corners_incident (v : nat) (f : Face) :
  incident v f → 1 ≤ count_occ Nat.eq_dec (corners f) v ≤ 3.
Proof.
  unfold incident, corners. cbn [In count_occ].
  intros H. repeat destruct (Nat.eq_dec _ v); lia.
Qed.

Lemma incident_count_distinct (faces : list Face) (v : nat) :
  Forall distinct_corners faces →
  incident_count faces v = incident_faces faces v.
Proof.
  unfold incident_count, incident_faces. intros Hd.
  induction Hd as [|f faces (H01 & H12 & H20) _ IH]; [reflexivity|].
  rewrite all_corners_cons, count_occ_app, IH. cbn [List.filter].
  unfold corners, incidentb. cbn [count_occ].
  destruct (Nat.eq_dec (fc0 f) v) as [E0 | N0];
    destruct (Nat.eq_dec (fc1 f) v) as [E1 | N1];
    destruct (Nat.eq_dec (fc2 f) v) as [E2 | N2]; try congruence;
    repeat match goal with
           | H : _ = v |- _ => rewrite (proj2 (Nat.eqb_eq _ _) H)
           | H : _ ≠ v |- _ => rewrite (proj2 (Nat.eqb_neq _ _) H)
           end; reflexivity.
Qed.

(** C10: the first loop of [write_binary] leaves in the 8-bit counter of
    every vertex its incident-face count modulo 256 (the count being how
    often the vertex is a corner).  The second loop therefore writes, for a
    vertex with count [c], [ceil(c/256)] tokens ['f']: exactly one when
    [1 <= c <= 255], and that one in the output of the last face incident to
    the vertex (after the ['v'] and ['e'] tokens of that face); for
    triangles with three distinct corners [c] is the number of faces
    incident to the vertex; and for a
    nonzero multiple [c = 256*q] the counter starts at the wrapped value 0
    and [q] tokens are written, one each time the number of remaining
    corners is a multiple of 256.  All of this on a mesh whose faces name
    existing vertices and whose fields cover the vertices, for which the
    call completes. *)
Theorem write_binary_counters_mod_256 (m : TriMesh) :
  let nv := length (mVertices m) in
  faces_in_range nv (mFaces m) →
  fields_cover nv (mFields m) →
  ∃ counts first k blocks,
    tally nv (mFaces m) = Some (counts, first, k)
    ∧ write_faces m first (counts, 0%Z) (mFaces m) = Some blocks
    ∧ write_binary m = Some (header, concat blocks)
    ∧ length blocks = length (mFaces m)
    ∧ ∀ v, v < nv →
        let c := incident_count (mFaces m) v in
        counts !! v = Some (Z.of_nat c mod 256)%Z
        ∧ (Forall distinct_corners (mFaces m) → c = incident_faces (mFaces m) v)
        ∧ count_tokF v (concat blocks) = (c + 255) / 256
        ∧ (1 ≤ c ≤ 255 →
             count_tokF v (concat blocks) = 1
             ∧ ∀ i f, mFaces m !! i = Some f → incident v f →
                 (∀ j f', i < j → mFaces m !! j = Some f' → ¬ incident v f') →
                 ∃ b, blocks !! i = Some b ∧ count_tokF v b = 1)
        ∧ (∀ q, 0 < q → c = 256 * q →
             counts !! v = Some 0%Z ∧ count_tokF v (concat blocks) = q).
Proof.
  intros nv Hr Hc.
  assert (Hinit : counts_ok nv (replicate nv 0%Z) []).
  { split; [by rewrite length_replicate|].
    intros v Hv. by rewrite lookup_replicate_2. }
  destruct (tally_ok nv (mFaces m) _ (replicate nv (2 ^ 32 - 1)%Z) 0%Z [] Hr Hinit)
    as (counts & first & k & Et & Hcnt & Hfirst); [by rewrite length_replicate|].
  rewrite app_nil_r in Hcnt.
  destruct (write_faces_ok m first (mFaces m) Hfirst Hc counts 0%Z Hr Hcnt)
    as (blocks & Ew & Hlen & Htot & Hblk).
  exists counts, first, k, blocks. split_and!; [exact Et | exact Ew | | exact Hlen |].
  { unfold write_binary. fold nv. unfold tally in Et |- *. rewrite Et.
    cbn [mbind option_bind]. rewrite Ew. reflexivity. }
  intros v Hv c. unfold incident_count in c.
  assert (Hcounter : counts !! v = Some (Z.of_nat c mod 256)%Z)
    by (apply Hcnt; exact Hv).
  assert (Htokens : count_tokF v (concat blocks) = (c + 255) / 256)
    by apply Htot.
  split_and!; [exact Hcounter | apply incident_count_distinct | exact Htokens | |].
  - intros Hsmall. split.
    { rewrite Htokens. by apply ceil256_small. }
    intros i f Hi Hinc Hlast.
    destruct (lookup_lt_is_Some_2 blocks i) as [b Hb].
    { rewrite Hlen. by eapply lookup_lt_Some. }
    exists b. split; [exact Hb|].
    pose proof (Hblk i b v Hb) as Heq.
    rewrite (count_occ_no_later_face v _ i Hlast) in Heq.
    rewrite (drop_S _ f i Hi), all_corners_cons, count_occ_app in Heq.
    rewrite (count_occ_no_later_face v _ i Hlast) in Heq.
    pose proof (count_occ_corners_incident v f Hinc) as Hocc.
    rewrite (ceil256_small (_ + 0)) in Heq by lia.
    change (ceil256 0) with 0 in Heq. lia.
  - intros q Hq Hcq. split.
    + rewrite Hcounter. f_equal. rewrite Hcq. 
      rewrite Nat2Z.inj_mul. apply Z.mod_divide; [lia|]. by apply Z.divide_factor_l.
    + rewrite Htokens, Hcq. apply ceil256_multiple.
Qed.

Lemma write_binary_counters_mod_256_witness :
  (∃ blocks b,
      write_binary (stacked_triangles 1) = Some (header, concat blocks)
      ∧ count_tokF 0 (concat blocks) = 1
      ∧ blocks !! 0 = Some b ∧ count_tokF 0 b = 1)
  ∧ (∃ counts first k blocks,
        tally 3 (mFaces (stacked_triangles 512)) = Some (counts, first, k)
        ∧ write_binary (stacked_triangles 512) = Some (header, concat blocks)
        ∧ counts !! 0 = Some 0%Z
        ∧ count_tokF 0 (concat blocks) = 2).
Proof.
  split.
  - destruct (write_binary_counters_mod_256 (stacked_triangles 1))
      as (counts & first & k & blocks & _ & _ & Hw & _ & Hv).
    + apply Forall_replicate. simpl. lia.
    + constructor.
    + destruct (Hv 0) as (_ & _ & _ & Hone & _); [simpl; lia|].
      destruct Hone as [Htot Hlast]; [vm_compute; lia|].
      destruct (Hlast 0 (mkFace 0 1 2)) as (b & Hb & Hcount).
      * reflexivity.
      * left; reflexivity.
      * intros j f' Hj Hf'. destruct j; [lia | discriminate Hf'].
      * exists blocks, b. auto.
  - destruct (write_binary_counters_mod_256 (stacked_triangles 512))
      as (counts & first & k & blocks & Ht & _ & Hw & _ & Hv).
    + apply Forall_replicate. simpl. lia.
    + constructor.
    + destruct (Hv 0) as (_ & _ & _ & _ & Hwrap); [simpl; lia|].
      destruct (Hwrap 2) as [Hzero Htwo]; [lia | vm_compute; reflexivity |].
      exists counts, first, k, blocks. auto.
Defined.

(** ** Connectivity *)

Lemma foldlM_inv {S A : Type} (P : S → Prop) (Q : A → Prop)
    (body : S → A → option S) (l : list A) :
  (∀ s a, P s → Q a → ∃ s', body s a = Some s' ∧ P s') →
  Forall Q l → ∀ s, P s → ∃ s', foldlM body s l = Some s' ∧ P s'.
Proof.
  intros Hbody Hl. induction Hl as [|a l Ha _ IH]; intros s Hs.
  - exists s. by split.
  - destruct (Hbody s a Hs Ha) as (s1 & E1 & Hs1).
    destruct (IH s1 Hs1) as (s' & E' & Hs').
    exists s'. split; [|exact Hs']. cbn [foldlM]. rewrite E1. exact E'.
Qed.

Lemma Forall_seq_lt (n : nat) : Forall (λ i, i < n) (seq 0 n).
Proof. apply Forall_forall. intros i Hi. apply elem_of_seq in Hi. lia. Qed.

Lemma corner_lt (nv : nat) (f : Face) (k : nat) :
  fc0 f < nv ∧ fc1 f < nv ∧ fc2 f < nv → corner f k < nv.
Proof. intros (? & ? & ?). by destruct k as [|[|k]]. Qed.

Lemma faces_in_range_lookup (nv : nat) (faces : list Face) (i : nat) (f : Face) :
  faces_in_range nv faces → faces !! i = Some f →
  fc0 f < nv ∧ fc1 f < nv ∧ fc2 f < nv.
Proof.
  intros Hr Hi. unfold faces_in_range in Hr.
  rewrite Forall_lookup in Hr. exact (Hr i f Hi).
Qed.

(** *** [need_adjacentfaces] *)

Lemma bump_ok (num : list nat) (v : nat) :
  v < length num →
  ∃ num', bump num v = Some num' ∧ length num' = length num.
Proof.
  intros Hv. unfold bump. destruct (lookup_lt_is_Some_2 num v Hv) as [c ->].
  eexists; split; [reflexivity | by rewrite length_insert].
Qed.

Lemma count_adjacent_ok (nv : nat) (faces : list Face) :
  faces_in_range nv faces → ∃ num, count_adjacent nv faces = Some num.
Proof.
  intros Hr. unfold count_adjacent.
  destruct (foldlM_inv (λ num, length num = nv)
              (λ f, fc0 f < nv ∧ fc1 f < nv ∧ fc2 f < nv)
              (λ num f, num ← bump num (fc0 f); num ← bump num (fc1 f);
                        bump num (fc2 f))
              faces) with (s := replicate nv 0) as (num & E & _).
  - intros num f Hlen (H0 & H1 & H2).
    destruct (bump_ok num (fc0 f)) as (n1 & E1 & L1); [lia|].
    destruct (bump_ok n1 (fc1 f)) as (n2 & E2 & L2); [lia|].
    destruct (bump_ok n2 (fc2 f)) as (n3 & E3 & L3); [lia|].
    exists n3. rewrite E1; cbn. rewrite E2; cbn. split; [exact E3 | lia].
  - exact Hr.
  - by rewrite length_replicate.
  - by exists num.
Qed.

Lemma push_adjacent_ok (nv : nat) (faces : list Face) (adj : list (list nat))
    (v i : nat) (f : Face) :
  adj_ok nv faces adj → v < nv → faces !! i = Some f → In v (corners f) →
  ∃ adj', push_adjacent adj v i = Some adj' ∧ adj_ok nv faces adj'.
Proof.
  intros [Hlen Hadj] Hv Hi Hin. unfold push_adjacent.
  destruct (lookup_lt_is_Some_2 adj v) as [a Ha]; [lia|]. rewrite Ha.
  eexists; split; [reflexivity|]. split; [by rewrite length_insert|].
  intros w b k Hb Hk. destruct (decide (v = w)) as [<- | Hne].
  - rewrite list_lookup_insert_eq in Hb by lia. injection Hb as <-.
    apply in_app_or in Hk as [Hk | [<- | []]]; eauto.
  - rewrite list_lookup_insert_ne in Hb by done. eauto.
Qed.

Lemma adjacent_step_ok (nv : nat) (faces : list Face) (adj : list (list nat))
    (i : nat) :
  faces_in_range nv faces → adj_ok nv faces adj → i < length faces →
  ∃ adj', adjacent_step faces adj i = Some adj' ∧ adj_ok nv faces adj'.
Proof.
  intros Hr Hadj Hi. unfold adjacent_step.
  destruct (lookup_lt_is_Some_2 faces i Hi) as [f Hf]. rewrite Hf.
  destruct (faces_in_range_lookup nv faces i f Hr Hf) as (H0 & H1 & H2).
  destruct (push_adjacent_ok nv faces adj (fc0 f) i f Hadj H0 Hf)
    as (a1 & E1 & Ha1); [by left|].
  destruct (push_adjacent_ok nv faces a1 (fc1 f) i f Ha1 H1 Hf)
    as (a2 & E2 & Ha2); [by right; left|].
  destruct (push_adjacent_ok nv faces a2 (fc2 f) i f Ha2 H2 Hf)
    as (a3 & E3 & Ha3); [by right; right; left|].
  exists a3. cbn [mbind option_bind]. rewrite E1; cbn. rewrite E2; cbn.
  by split.
Qed.

Lemma need_adjacentfaces_ok (m : TriMesh) :
  mVAdjFaces m = [] →
  faces_in_range (length (mVertices m)) (mFaces m) →
  ∃ adj,
    need_adjacentfaces m = Some (with_mVAdjFaces m adj)
    ∧ adj_ok (length (mVertices m)) (mFaces m) adj.
Proof.
  intros Hfresh Hr. unfold need_adjacentfaces. rewrite Hfresh. cbn [is_empty negb].
  destruct (count_adjacent_ok _ _ Hr) as [num ->]. cbn [mbind option_bind].
  destruct (foldlM_inv (adj_ok (length (mVertices m)) (mFaces m))
              (λ i, i < length (mFaces m))
              (adjacent_step (mFaces m)) (seq 0 (length (mFaces m))))
    with (s := replicate (length (mVertices m)) (@nil nat)) as (adj & E & Hadj).
  - intros adj i Hadj Hi. by apply (adjacent_step_ok (length (mVertices m))).
  - apply Forall_seq_lt.
  - split; [by rewrite length_replicate|].
    intros v a k Ha Hk. apply lookup_replicate in Ha as [-> _]. destruct Hk.
  - exists adj. rewrite E. by split.
Qed.

(** *** [need_across_edge] *)

Lemma vidx_of_spec (fo : Face) (v1 : nat) :
  In v1 (corners fo) →
  let ind := Z.to_nat ((vidx_of fo v1 + 1) mod 3) in
  ind < 3 ∧ corner fo ((ind + 2) mod 3) = v1.
Proof.
  unfold vidx_of, corners. cbn [In]. intros Hin.
  destruct (Nat.eqb_spec (fc0 fo) v1) as [E0 | N0];
    [split; [vm_compute; lia | vm_compute; exact E0] |].
  destruct (Nat.eqb_spec (fc1 fo) v1) as [E1 | N1];
    [split; [vm_compute; lia | vm_compute; exact E1] |].
  destruct (Nat.eqb_spec (fc2 fo) v1) as [E2 | N2];
    [split; [vm_compute; lia | vm_compute; exact E2] |].
  exfalso. destruct Hin as [? | [? | [? | []]]]; congruence.
Qed.

Lemma find_across_spec (faces : list Face) (a2 : list nat) (i v1 v2 : nat)
    (a1 : list nat) :
  (∀ k, In k a1 → ∃ fk, faces !! k = Some fk ∧ In v1 (corners fk)) →
  ∃ r,
    find_across faces a2 i v1 v2 a1 = Some r
    ∧ match r with
      | None => True
      | Some (other, ind) =>
          other ≠ i ∧ ind < 3
          ∧ ∃ fo, faces !! other = Some fo
                  ∧ corner fo ((ind + 1) mod 3) = v2
                  ∧ corner fo ((ind + 2) mod 3) = v1
      end.
Proof.
  induction a1 as [|other rest IH]; intros Ha1.
  - exists None. by split.
  - assert (Hrest : ∀ k, In k rest →
                         ∃ fk, faces !! k = Some fk ∧ In v1 (corners fk))
      by (intros k Hk; apply Ha1; by right).
    specialize (IH Hrest). cbn [find_across].
    destruct (Nat.eqb_spec other i) as [_ | Hne]; [exact IH|].
    destruct (existsb _ a2); cbn [negb]; [|exact IH].
    destruct (Ha1 other) as (fo & Hfo & Hin); [by left|].
    rewrite Hfo. cbn [mbind option_bind].
    destruct (vidx_of_spec fo v1 Hin) as [Hind Hv1].
    destruct (Nat.eqb_spec
                (corner fo ((Z.to_nat ((vidx_of fo v1 + 1) mod 3) + 1) mod 3)) v2)
      as [Hv2 | _]; cbn [negb]; [|exact IH].
    eexists (Some (other, _)). split; [reflexivity|].
    split_and!; [exact Hne | exact Hind |].
    exists fo. by split_and!.
Qed.

Lemma oget_oset (o : Offset3) (j j' : nat) (x : Z) :
  j < 3 → j' < 3 →
  oget (oset o j x) j' = if decide (j' = j) then x else oget o j'.
Proof.
  intros Hj Hj'.
  destruct j as [|[|[|j]]]; [| | |lia]; destruct j' as [|[|[|j']]]; try lia;
    reflexivity.
Qed.

Lemma across_set_ok (A : list Offset3) (a b : nat) (x : Z) :
  a < length A → b < 3 →
  ∃ A',
    across_set A a b x = Some A'
    ∧ length A' = length A
    ∧ ∀ i j, j < 3 →
        across_get A' i j
        = if decide (i = a ∧ j = b) then Some x else across_get A i j.
Proof.
  intros Ha Hb. unfold across_set.
  destruct (lookup_lt_is_Some_2 A a Ha) as [o Ho]. rewrite Ho.
  eexists; split_and!; [reflexivity | by rewrite length_insert |].
  intros i j Hj. unfold across_get.
  destruct (decide (i = a)) as [-> | Hne].
  - rewrite list_lookup_insert_eq by lia. rewrite Ho. cbn [mbind option_bind].
    rewrite oget_oset by lia.
    destruct (decide (j = b)); destruct (decide (a = a ∧ j = b)) as [? | Hn];
      try reflexivity; try tauto.
  - rewrite list_lookup_insert_ne by done.
    destruct (decide (i = a ∧ j = b)) as [[? _] | _]; [done | reflexivity].
Qed.

Lemma across_edge_step_ok (nv : nat) (faces : list Face) (adj : list (list nat))
    (A : list Offset3) (i j : nat) :
  faces_in_range nv faces → unique_directed faces → adj_ok nv faces adj →
  across_inv faces A → i < length faces → j < 3 →
  ∃ A', across_edge_step faces adj i A j = Some A' ∧ across_inv faces A'.
Proof.
  intros Hr Huniq [Hadjlen Hadj] [Hlen Hinv] Hi Hj. unfold across_edge_step.
  destruct (lookup_lt_is_Some_2 A i) as [o Ho]; [lia|].
  assert (Hcur : across_get A i j = Some (oget o j))
    by (unfold across_get; by rewrite Ho).
  rewrite Hcur. cbn [mbind option_bind].
  destruct (Z.eqb_spec (oget o j) (-1)%Z) as [Hm1 | Hset]; cbn [negb].
  2: { exists A. by split. }
  destruct (lookup_lt_is_Some_2 faces i Hi) as [f Hf]. rewrite Hf.
  cbn [mbind option_bind].
  pose proof (faces_in_range_lookup nv faces i f Hr Hf) as Hfr.
  set (v1 := corner f ((j + 1) mod 3)). set (v2 := corner f ((j + 2) mod 3)).
  destruct (lookup_lt_is_Some_2 adj v1) as [a1 Ha1];
    [rewrite Hadjlen; by apply corner_lt|].
  destruct (lookup_lt_is_Some_2 adj v2) as [a2 Ha2];
    [rewrite Hadjlen; by apply corner_lt|].
  rewrite Ha1, Ha2. cbn [mbind option_bind].
  destruct (find_across_spec faces a2 i v1 v2 a1) as (r & -> & Hres).
  { intros k Hk. by apply (Hadj v1 a1). }
  cbn [mbind option_bind].
  destruct r as [[other ind]|]; [|exists A; by split].
  destruct Hres as (Hother & Hind & fo & Hfo & Hfo2 & Hfo1).
  assert (Holt : other < length A)
    by (rewrite Hlen; by eapply lookup_lt_Some).
  destruct (across_set_ok A i j (Z.of_nat other)) as (A1 & E1 & L1 & G1);
    [lia | exact Hj |].
  destruct (across_set_ok A1 other ind (Z.of_nat i)) as (A2 & E2 & L2 & G2);
    [lia | exact Hind |].
  rewrite E1. cbn [mbind option_bind]. rewrite E2.
  exists A2. split; [reflexivity|].
  (* the entry about to be overwritten on the other face is still free *)
  assert (Hfree : across_get A other ind = Some (-1)%Z).
  { destruct (lookup_lt_is_Some_2 A other Holt) as [oo Hoo].
    assert (Hy : across_get A other ind = Some (oget oo ind))
      by (unfold across_get; by rewrite Hoo).
    rewrite Hy. f_equal.
    destruct (Z.eq_dec (oget oo ind) (-1)%Z) as [? | Hy1]; [done | exfalso].
    destruct (Hinv other ind _ Hind Hy Hy1)
      as (k & l & Hk & Hl & (fo' & fk & Hfo' & Hfk & Hm1' & Hm2') & Hback).
    rewrite Hfo in Hfo'. injection Hfo' as <-.
    destruct (Huniq i j k l f fk Hj Hl Hf Hfk) as [<- <-].
    - fold v1. rewrite Hm1'. by rewrite Hfo1.
    - fold v2. rewrite Hm2'. by rewrite Hfo2.
    - rewrite Hcur in Hback. injection Hback as Hback. lia. }
  split; [lia|].
  intros i' j' x Hj' Hx Hx1.
  rewrite G2, G1 in Hx by done.
  destruct (decide (i' = other ∧ j' = ind)) as [[-> ->] | Hn2].
  { injection Hx as <-. exists i, j. split_and!; [done | done | |].
    - exists fo, f. by split_and!.
    - rewrite G2, G1 by done.
      destruct (decide (i = other ∧ j = ind)) as [[? _] | _]; [done|].
      destruct (decide (i = i ∧ j = j)) as [_ | ?]; [done | tauto]. }
  destruct (decide (i' = i ∧ j' = j)) as [[-> ->] | Hn1].
  { injection Hx as <-. exists other, ind. split_and!; [done | done | |].
    - exists f, fo. by split_and!.
    - rewrite G2 by done.
      destruct (decide (other = other ∧ ind = ind)) as [_ | ?]; [done | tauto]. }
  destruct (Hinv i' j' x Hj' Hx Hx1) as (k & l & Hk & Hl & Hmate & Hback).
  exists k, l. split_and!; [done | done | done |].
  rewrite G2, G1 by done.
  destruct (decide (k = other ∧ l = ind)) as [[-> ->] | _].
  { rewrite Hfree in Hback. injection Hback as Hback. lia. }
  destruct (decide (k = i ∧ l = j)) as [[-> ->] | _]; [|exact Hback].
  rewrite Hcur, Hm1 in Hback. injection Hback as Hback. lia.
Qed.

Lemma across_edge_loop_ok (nv : nat) (faces : list Face) (adj : list (list nat))
    (A : list Offset3) :
  faces_in_range nv faces → unique_directed faces → adj_ok nv faces adj →
  across_inv faces A →
  ∃ A', across_edge_loop faces adj A (length faces) = Some A'
        ∧ across_inv faces A'.
Proof.
  intros Hr Huniq Hadj HA. unfold across_edge_loop.
  apply (foldlM_inv (across_inv faces) (λ i, i < length faces));
    [|apply Forall_seq_lt | exact HA].
  intros A0 i HA0 Hi.
  apply (foldlM_inv (across_inv faces) (λ j, j < 3)); [| |exact HA0].
  - intros A1 j HA1 Hj. by apply (across_edge_step_ok nv).
  - repeat constructor.
Qed.

Lemma across_inv_symmetric (faces : list Face) (A : list Offset3) :
  across_inv faces A → across_symmetric A.
Proof.
  intros [_ Hinv] i j k Hj Hget.
  destruct (Hinv i j _ Hj Hget) as (k' & l & Hk & Hl & _ & Hback); [lia|].
  apply Nat2Z.inj in Hk as <-. by exists l.
Qed.

Lemma across_inv_init (faces : list Face) :
  across_inv faces (replicate (length faces) (mkOffset3 (-1) (-1) (-1))).
Proof.
  split; [by rewrite length_replicate|].
  intros i j x Hj Hget Hx. exfalso. apply Hx. unfold across_get in Hget.
  destruct (replicate _ _ !! i) as [o|] eqn:Ho; [|discriminate].
  apply lookup_replicate in Ho as [-> _]. cbn in Hget. injection Hget as <-.
  by destruct j as [|[|j]].
Qed.

(** C3, as stated for every mesh, fails where three faces meet in an edge:
    face 1 ends up pointing to face 0 while no edge of face 0 points to
    face 1. *)
Lemma across_edge_not_symmetric_three_on_an_edge :
  ∃ m', need_across_edge three_on_an_edge = Some m'
        ∧ across_get (mFAcrossEdge m') 1 2 = Some 0%Z
        ∧ ¬ across_symmetric (mFAcrossEdge m').
Proof.
  eexists. split; [reflexivity|]. split; [reflexivity|].
  intros Hsym. destruct (Hsym 1 2 0) as (l & Hl & Hget); [lia | reflexivity |].
  destruct l as [|[|[|l]]]; [discriminate Hget .. | lia].
Qed.

(** C3 (amended): on a mesh whose faces name existing vertices and in which
    no directed edge occurs twice (consistent winding, at most two faces per
    edge), [need_across_edge], called before any connectivity was computed,
    completes and leaves a symmetric table: if the entry of face [i] at edge
    [j] is a face [k] (not the sentinel), some local edge of face [k] has
    the entry [i]. *)
Theorem need_across_edge_symmetric (m : TriMesh) :
  mVAdjFaces m = [] → mFAcrossEdge m = [] →
  faces_in_range (length (mVertices m)) (mFaces m) →
  unique_directed (mFaces m) →
  ∃ m', need_across_edge m = Some m'
        ∧ mFaces m' = mFaces m
        ∧ across_symmetric (mFAcrossEdge m').
Proof.
  intros Hadj0 Hac0 Hr Huniq. unfold need_across_edge.
  rewrite Hac0. cbn [is_empty negb].
  destruct (need_adjacentfaces_ok m Hadj0 Hr) as (adj & -> & Hadj).
  cbn [mbind option_bind]. cbn [with_mVAdjFaces mVAdjFaces mFaces].
  destruct (is_empty adj).
  - eexists. split_and!; [reflexivity | reflexivity |].
    cbn [with_mVAdjFaces mFAcrossEdge]. rewrite Hac0.
    intros i j k _ Hget. unfold across_get in Hget. by destruct i.
  - destruct (across_edge_loop_ok _ (mFaces m) adj _ Hr Huniq Hadj
                (across_inv_init (mFaces m))) as (A & -> & HA).
    cbn [mbind option_bind].
    eexists. split_and!; [reflexivity | reflexivity |].
    cbn [with_mFAcrossEdge mFAcrossEdge]. by eapply across_inv_symmetric.
Qed.

Lemma unique_directed_square : unique_directed (mFaces square).
Proof.
  intros i j k l fi fk Hj Hl Hi Hk.
  destruct i as [|[|i]]; [| |discriminate Hi]; injection Hi as <-;
    (destruct k as [|[|k]]; [| |discriminate Hk]); injection Hk as <-;
    (destruct j as [|[|[|j]]]; [| | |lia]);
    (destruct l as [|[|[|l]]]; [| | |lia]);
    vm_compute; intros E1 E2; first [by split | discriminate].
Qed.

Lemma need_across_edge_symmetric_witness :
  ∃ m', need_across_edge square = Some m'
        ∧ mFaces m' = mFaces square
        ∧ across_symmetric (mFAcrossEdge m').
Proof.
  apply (need_across_edge_symmetric square).
  - reflexivity.
  - reflexivity.
  - repeat constructor.
  - exact unique_directed_square.
Defined.

(** *** [need_boundary] *)

Lemma repeat_nat_add {S : Type} (body : S → option (ctl S)) (a b : nat) (s : S) :
  repeat_nat body (a + b) s
  = match repeat_nat body a s with
    | Some (Next s') => repeat_nat body b s'
    | r => r
    end.
Proof.
  revert s. induction a as [|a IH]; intros s; [reflexivity|].
  cbn [Nat.add repeat_nat]. destruct (body s) as [[s' | s']|]; [apply IH | done..].
Qed.

(** The loop on the binary trip count is the loop that counts down. *)
Lemma repeat_pos_nat {S : Type} (body : S → option (ctl S)) (p : positive) (s : S) :
  repeat_pos body p s = repeat_nat body (Pos.to_nat p) s.
Proof.
  revert s. induction p as [p IH | p IH |]; intros s.
  - rewrite Pos2Nat.inj_xI. cbn [repeat_pos repeat_nat].
    destruct (body s) as [[s1 | s1]|]; [|done..].
    replace (2 * Pos.to_nat p) with (Pos.to_nat p + Pos.to_nat p) by lia.
    rewrite repeat_nat_add, <- IH.
    destruct (repeat_pos body p s1) as [[s2 | s2]|]; [apply IH | done..].
  - rewrite Pos2Nat.inj_xO.
    replace (2 * Pos.to_nat p) with (Pos.to_nat p + Pos.to_nat p) by lia.
    rewrite repeat_nat_add, <- IH. cbn [repeat_pos].
    destruct (repeat_pos body p s) as [[s2 | s2]|]; [apply IH | done..].
  - change (Pos.to_nat 1) with 1. cbn [repeat_pos repeat_nat].
    by destruct (body s) as [[s' | s']|].
Qed.

Lemma repeat_N_nat {S : Type} (body : S → option (ctl S)) (n : N) (s : S) :
  repeat_N body n s = repeat_nat body (N.to_nat n) s.
Proof. destruct n as [|p]; [reflexivity | apply repeat_pos_nat]. Qed.

(** An open mesh: the boundary of the square comes out as one cycle. *)
Example need_boundary_square :
  snd <$> need_boundary square = Some [(1, 2); (2, 3); (3, 0); (0, 1)].
Proof. reflexivity. Qed.

Lemma boundary_step_no_sentinel (faces : list Face) (A : list Offset3)
    (i j : nat) (be : list Edge) :
  no_sentinel A → i < length A → j < 3 →
  boundary_step faces A i be j = Some be.
Proof.
  intros Hns Hi Hj. unfold boundary_step, across_get.
  destruct (lookup_lt_is_Some_2 A i Hi) as [o Ho]. rewrite Ho.
  cbn [mbind option_bind].
  unfold no_sentinel in Hns. rewrite Forall_lookup in Hns.
  destruct (Hns i o Ho) as (H0 & H1 & H2).
  assert (Hx : oget o j ≠ (-1)%Z) by (by destruct j as [|[|j]]).
  by destruct (Z.eqb_spec (oget o j) (-1)%Z).
Qed.

Lemma collect_boundary_no_sentinel (faces : list Face) (A : list Offset3) :
  length A = length faces → no_sentinel A →
  collect_boundary faces A = Some [].
Proof.
  intros Hlen Hns. unfold collect_boundary.
  destruct (foldlM_inv (λ be : list Edge, be = []) (λ i, i < length faces)
              (λ be i, foldlM (boundary_step faces A i) be [0; 1; 2])
              (seq 0 (length faces))) with (s := @nil Edge)
    as (be & E & ->); [|apply Forall_seq_lt | reflexivity | exact E].
  intros be i -> Hi. exists []. split; [|reflexivity].
  cbn [foldlM].
  rewrite boundary_step_no_sentinel by (done || lia). cbn [mbind option_bind].
  rewrite boundary_step_no_sentinel by (done || lia). cbn [mbind option_bind].
  rewrite boundary_step_no_sentinel by (done || lia). reflexivity.
Qed.

(** C2 (violated by the code): on a closed mesh, whose across-edge table has
    no sentinel entry, the first pass of [need_boundary] collects the empty
    list, as the claim says; but the reordering pass then runs its loop
    with the trip count [0 - 1 = 2^64 - 1] and in the first iteration
    reads element 0 of the empty list: the call performs an access out of
    range instead of returning the empty list. *)
Theorem need_boundary_closed_mesh_out_of_range (m m' : TriMesh) :
  bedges m = [] →
  need_across_edge m = Some m' →
  length (mFAcrossEdge m') = length (mFaces m') →
  no_sentinel (mFAcrossEdge m') →
  collect_boundary (mFaces m') (mFAcrossEdge m') = Some []
  ∧ size_t_pred 0 = (2 ^ 64 - 1)%N
  ∧ orient_step 0 ([], 0) = None
  ∧ orient_boundary [] = None
  ∧ need_boundary m = None.
Proof.
  intros Hfresh Hacross Hlen Hns.
  pose proof (collect_boundary_no_sentinel _ _ Hlen Hns) as Hcollect.
  split_and!; [exact Hcollect | reflexivity | reflexivity | reflexivity |].
  unfold need_boundary. rewrite Hfresh. cbn [is_empty].
  rewrite Hacross. cbn [mbind option_bind]. rewrite Hcollect. reflexivity.
Qed.

Lemma need_boundary_closed_mesh_out_of_range_witness :
  (∃ m', need_across_edge tetrahedron = Some m' ∧ no_sentinel (mFAcrossEdge m'))
  ∧ need_boundary tetrahedron = None.
Proof.
  assert (Hrun : need_across_edge tetrahedron
                 = Some (with_mFAcrossEdge
                           (with_mVAdjFaces tetrahedron
                              [[0; 1; 3]; [0; 1; 2]; [0; 2; 3]; [1; 2; 3]])
                           [mkOffset3 2 3 1; mkOffset3 2 0 3;
                            mkOffset3 3 0 1; mkOffset3 1 0 2]))
    by reflexivity.
  assert (Hns : no_sentinel
                  [mkOffset3 2 3 1; mkOffset3 2 0 3;
                   mkOffset3 3 0 1; mkOffset3 1 0 2])
    by (repeat constructor; cbn; lia).
  split.
  - eexists. split; [exact Hrun | exact Hns].
  - apply (need_boundary_closed_mesh_out_of_range tetrahedron _ eq_refl Hrun
             eq_refl Hns).
Defined.

(** ** Periodic reconstruction *)

Lemma corner_set_corner (f : Face) (k k' x : nat) :
  k < 3 → k' < 3 →
  corner (set_corner f k x) k' = if decide (k' = k) then x else corner f k'.
Proof.
  intros Hk Hk'.
  destruct k as [|[|[|k]]]; [| | |lia]; destruct k' as [|[|[|k']]]; try lia;
    reflexivity.
Qed.

Lemma trimmed_of_mono (dt : Delaunay) (nOrig : nat) (dups ext : list dupMap)
    (df : DFace) (face : Face) :
  trimmed_of dt nOrig dups df face → trimmed_of dt nOrig (dups ++ ext) df face.
Proof.
  intros H vid Hvid. specialize (H vid Hvid).
  destruct (zero_offset _); [exact H|].
  destruct H as (pos & Hc & Hp). exists pos. split; [exact Hc|].
  by apply lookup_app_l_Some.
Qed.

(** One corner: the invariant is kept, the list only grows, corners other
    than [vid] keep their value, and corner [vid] is as [trimmed_of] wants
    it. *)
Lemma unwrap_corner_ok (dt : Delaunay) (nOrig : nat) (df : DFace)
    (face : Face) (dups : list dupMap) (dh : gmap Vertex_handle nat) (vid : nat) :
  vid < 3 → handle_of dt (vertex df vid) → dup_inv dt nOrig dups dh →
  ∃ face' ext dh',
    unwrap_corner dt nOrig df (face, dups, dh) vid = (face', dups ++ ext, dh')
    ∧ dup_inv dt nOrig (dups ++ ext) dh'
    ∧ (∀ k, k < 3 → k ≠ vid → corner face' k = corner face k)
    ∧ (if zero_offset (periodic_offset dt (vertex df vid))
       then corner face' vid = corner face vid
       else ∃ pos, corner face' vid = nOrig + pos
                   ∧ (dups ++ ext) !! pos = Some (dup_key dt (vertex df vid))).
Proof.
  intros Hvid Hh [Ha Hb]. unfold unwrap_corner.
  destruct (zero_offset (periodic_offset dt (vertex df vid))) eqn:Hz.
  { exists face, [], dh. rewrite app_nil_r. by split_and!. }
  destruct (dh !! vertex df vid) as [idx|] eqn:Hdh.
  - destruct (Ha _ _ Hdh) as (_ & pos & -> & Hpos).
    exists (set_corner face vid (nOrig + pos)), [], dh.
    rewrite app_nil_r, Hdh. cbn [default]. split_and!; [done | done | |].
    + intros k Hk Hne. rewrite corner_set_corner by done. by case_decide.
    + exists pos. rewrite corner_set_corner by done. by case_decide.
  - set (vh := vertex df vid) in *.
    set (key := (info dt vh, unwrap_offset (periodic_offset dt vh).1,
                 unwrap_offset (periodic_offset dt vh).2)).
    exists (set_corner face vid (nOrig + length dups)), [key],
           (<[vh := nOrig + length dups]> dh).
    assert (Hidx : length (dups ++ [key]) + nOrig - 1 = nOrig + length dups)
      by (rewrite length_app; cbn; lia).
    rewrite Hidx, lookup_insert_eq. cbn [default].
    split_and!; [done | | |].
    + split.
      * intros h idx Hidx'. destruct (decide (h = vh)) as [-> | Hne].
        -- rewrite lookup_insert_eq in Hidx'. injection Hidx' as <-.
           split; [exact Hh|]. exists (length dups). split; [done|].
           by rewrite list_lookup_middle.
        -- rewrite lookup_insert_ne in Hidx' by done.
           destruct (Ha _ _ Hidx') as (Hho & pos & -> & Hpos).
           split; [exact Hho|]. exists pos. split; [done|].
           by apply lookup_app_l_Some.
      * intros pos k Hk. apply lookup_snoc_Some in Hk as [[Hlt Hk] | [-> <-]].
        -- destruct (Hb _ _ Hk) as (h & Hho & Hkey & Hdhh).
           exists h. split_and!; [done | done |].
           rewrite lookup_insert_ne; [done|]. intros <-. congruence.
        -- exists vh. split_and!; [done | done |]. by rewrite lookup_insert_eq.
    + intros k Hk Hne. rewrite corner_set_corner by done. by case_decide.
    + exists (length dups). rewrite corner_set_corner by done.
      split; [by case_decide|]. by rewrite list_lookup_middle.
Qed.

Lemma handle_of_vertex (dt : Delaunay) (df : DFace) (vid : nat) :
  In df (finite_faces dt) → vid < 3 → handle_of dt (vertex df vid).
Proof. intros Hin Hvid. by exists df, vid. Qed.

Lemma unwrap_face_ok (dt : Delaunay) (nOrig : nat) (done : list DFace)
    (s : Unwrap) (df : DFace) :
  (∀ vh, handle_of dt vh → info dt vh < nOrig) →
  In df (finite_faces dt) →
  unwrap_inv dt nOrig done s →
  unwrap_inv dt nOrig (done ++ [df]) (unwrap_face dt nOrig s df).
Proof.
  intros Hinfo Hin (Hdup & Htrim & Hfaces).
  unfold unwrap_inv. rewrite List.filter_app. cbn [List.filter].
  destruct (num_orig dt df =? 0) eqn:H0.
  { assert (straddles dt df = false) as ->
      by (unfold straddles; by rewrite H0).
    assert (unwrap_face dt nOrig s df = s) as ->
      by (unfold unwrap_face; unfold num_orig in H0; by rewrite H0).
    rewrite app_nil_r. by split_and!. }
  destruct (num_orig dt df =? 3) eqn:H3.
  { assert (straddles dt df = false) as ->
      by (unfold straddles; by rewrite H0, H3).
    unfold unwrap_face. unfold num_orig in H0, H3. rewrite H0, H3.
    rewrite app_nil_r. cbn [uDuplicates duplicateHandles uTrimmedFaces uFaces].
    split_and!; [done | done |].
    apply Forall_app. split; [done|]. constructor; [|constructor].
    split_and!; cbn; apply Hinfo.
    - apply (handle_of_vertex dt df 0); [done | lia].
    - apply (handle_of_vertex dt df 1); [done | lia].
    - apply (handle_of_vertex dt df 2); [done | lia]. }
  assert (straddles dt df = true) as ->
    by (unfold straddles; by rewrite H0, H3).
  unfold unwrap_face. unfold num_orig in H0, H3. rewrite H0, H3.
  set (face := mkFace (info dt (vertex0 df)) (info dt (vertex1 df))
                      (info dt (vertex2 df))).
  cbn [fold_left].
  destruct (unwrap_corner_ok dt nOrig df face (uDuplicates s)
              (duplicateHandles s) 0)
    as (f0 & e0 & dh0 & -> & Hdup0 & Hkeep0 & Hset0);
    [lia | apply handle_of_vertex; [done | lia] | done |].
  destruct (unwrap_corner_ok dt nOrig df f0 (uDuplicates s ++ e0) dh0 1)
    as (f1 & e1 & dh1 & -> & Hdup1 & Hkeep1 & Hset1);
    [lia | apply handle_of_vertex; [done | lia] | done |].
  destruct (unwrap_corner_ok dt nOrig df f1 ((uDuplicates s ++ e0) ++ e1) dh1 2)
    as (f2 & e2 & dh2 & -> & Hdup2 & Hkeep2 & Hset2);
    [lia | apply handle_of_vertex; [done | lia] | done |].
  cbn [uDuplicates duplicateHandles uTrimmedFaces uFaces].
  split_and!; [done | | done].
  apply Forall2_app.
  { eapply Forall2_impl; [exact Htrim|]. intros d f Hd.
    by do 3 apply trimmed_of_mono. }
  constructor; [|constructor].
  intros vid Hvid.
  destruct vid as [|[|[|vid]]]; [| | |lia].
  - rewrite Hkeep2, Hkeep1 by lia.
    destruct (zero_offset (periodic_offset dt (vertex df 0))); [by rewrite Hset0|].
    destruct Hset0 as (pos & Hc & Hp). exists pos. split; [done|].
    by do 2 apply lookup_app_l_Some.
  - rewrite Hkeep2 by lia.
    destruct (zero_offset (periodic_offset dt (vertex df 1))).
    + by rewrite Hset1, Hkeep0 by lia.
    + destruct Hset1 as (pos & Hc & Hp). exists pos. split; [done|].
      by apply lookup_app_l_Some.
  - destruct (zero_offset (periodic_offset dt (vertex df 2))).
    + by rewrite Hset2, Hkeep1, Hkeep0 by lia.
    + exact Hset2.
Qed.

Lemma unwrap_faces_ok (dt : Delaunay) (nOrig : nat) (fs : list DFace) :
  (∀ vh, handle_of dt vh → info dt vh < nOrig) →
  ∀ done s,
    (∀ df, In df fs → In df (finite_faces dt)) →
    unwrap_inv dt nOrig done s →
    unwrap_inv dt nOrig (done ++ fs) (fold_left (unwrap_face dt nOrig) fs s).
Proof.
  intros Hinfo. induction fs as [|df fs IH]; intros done s Hsub Hinv.
  - by rewrite app_nil_r.
  - cbn [fold_left]. rewrite (cons_middle df), app_assoc.
    apply IH; [intros d Hd; apply Hsub; by right|].
    apply unwrap_face_ok; [done | apply Hsub; by left | done].
Qed.

Lemma unwrap_offset_inj (a b : Z) :
  (0 ≤ a ≤ 2)%Z → (0 ≤ b ≤ 2)%Z → unwrap_offset a = unwrap_offset b → a = b.
Proof.
  unfold unwrap_offset. intros Ha Hb.
  destruct (Z.eqb_spec a 2), (Z.eqb_spec b 2); lia.
Qed.

Lemma dup_inv_NoDup (dt : Delaunay) (nOrig : nat) (dups : list dupMap)
    (dh : gmap Vertex_handle nat) :
  covering_ok dt nOrig → dup_inv dt nOrig dups dh → NoDup dups.
Proof.
  intros [Hrange Hinj] [_ Hb]. apply NoDup_alt. intros i j k Hi Hj.
  destruct (Hb _ _ Hi) as (h1 & Hh1 & Hk1 & Hd1).
  destruct (Hb _ _ Hj) as (h2 & Hh2 & Hk2 & Hd2).
  assert (h1 = h2) as ->.
  { destruct (Hrange h1 Hh1) as (_ & Ha1 & Hb1).
    destruct (Hrange h2 Hh2) as (_ & Ha2 & Hb2).
    rewrite <- Hk2 in Hk1. unfold dup_key in Hk1.
    injection Hk1 as Hinfo Hx Hy.
    apply Hinj; [done | done | done |].
    apply unwrap_offset_inj in Hx; [|done..].
    apply unwrap_offset_inj in Hy; [|done..].
    destruct (periodic_offset dt h1), (periodic_offset dt h2). cbn in *.
    congruence. }
  rewrite Hd1 in Hd2. injection Hd2. lia.
Qed.

Lemma create_duplicate_vertices_ok (p : TriMeshPeriodic) :
  Forall (λ d : dupMap, d.1.1 < length (mVertices (base p)))
         (mDuplicateVerts_OrigIds p) →
  ∃ p', create_duplicate_vertices p = Some p'
        ∧ base p' = base p
        ∧ mTrimmedFaces p' = mTrimmedFaces p
        ∧ mDuplicateVerts_OrigIds p' = mDuplicateVerts_OrigIds p.
Proof.
  intros Hids. unfold create_duplicate_vertices.
  destruct (_ || _); [by exists p|].
  destruct (mapM_is_Some_2
              (duplicate_vertex (mVertices (base p))
                 (vsub (mBox1 p) (mBox0 p)))
              (mDuplicateVerts_OrigIds p)) as [dv ->].
  - eapply Forall_impl; [exact Hids|]. intros [[orig off1] off2] Hlt.
    cbn in Hlt. cbn [compose duplicate_vertex].
    destruct (lookup_lt_is_Some_2 _ _ Hlt) as [v ->]. by eexists.
  - by eexists.
Qed.

Lemma trimmed_of_below (dt : Delaunay) (nOrig : nat) (dups : list dupMap)
    (df : DFace) (f : Face) :
  (∀ vh, handle_of dt vh → info dt vh < nOrig) →
  In df (finite_faces dt) →
  trimmed_of dt nOrig dups df f →
  face_below (nOrig + length dups) f.
Proof.
  intros Hinfo Hin Htrim.
  assert (Hc : ∀ vid, vid < 3 → corner f vid < nOrig + length dups).
  { intros vid Hvid. specialize (Htrim vid Hvid).
    destruct (zero_offset _).
    - rewrite Htrim.
      pose proof (Hinfo _ (handle_of_vertex dt df vid Hin Hvid)). lia.
    - destruct Htrim as (pos & -> & Hpos). apply lookup_lt_Some in Hpos. lia. }
  split_and!; [apply (Hc 0) | apply (Hc 1) | apply (Hc 2)]; lia.
Qed.

(** C7: on a periodic mesh whose duplicate list and trimmed-face list are
    still empty, and for a triangulation that keeps its side (every handle
    carries an input point and an offset in {0,1,2}^2, distinct handles are
    distinct copies), the post-processing of [delaunay] completes and
    - no key (original id, normalized offset pair) occurs twice in the
      duplicate list;
    - the trimmed faces are, in order, the faces with one or two corners in
      the domain, each corner being the index of its point if it lies in the
      domain and otherwise the original vertex count plus the position of
      its key in the duplicate list (so a key has one index);
    - every face kept ([mFaces] and [mTrimmedFaces]) has all corners below
      the original vertex count plus the length of the duplicate list. *)
Theorem delaunay_duplicates (p : TriMeshPeriodic) (dt : Delaunay) :
  let nOrig := length (mVertices (base p)) in
  mDuplicateVerts_OrigIds p = [] →
  mTrimmedFaces p = [] →
  covering_ok dt nOrig →
  ∃ p',
    delaunay p dt = Some p'
    ∧ NoDup (mDuplicateVerts_OrigIds p')
    ∧ Forall2 (trimmed_of dt nOrig (mDuplicateVerts_OrigIds p'))
              (List.filter (straddles dt) (finite_faces dt)) (mTrimmedFaces p')
    ∧ (∀ pos k, mDuplicateVerts_OrigIds p' !! pos = Some k →
         ∃ vh, handle_of dt vh ∧ dup_key dt vh = k)
    ∧ ∀ f, In f (mFaces (base p') ++ mTrimmedFaces p') →
        face_below (nOrig + length (mDuplicateVerts_OrigIds p')) f.
Proof.
  intros nOrig Hdups Htrimmed Hcov.
  assert (Hinfo : ∀ vh, handle_of dt vh → info dt vh < nOrig)
    by (intros vh Hvh; by apply Hcov).
  unfold delaunay. fold nOrig. rewrite Hdups, Htrimmed.
  set (s0 := mkUnwrap [] (mPeriodicFaces p) [] [] ∅).
  assert (Hinv0 : unwrap_inv dt nOrig [] s0).
  { subst s0. split_and!; cbn; [|constructor|constructor].
    split; [intros h idx Hh; by rewrite lookup_empty in Hh|].
    intros pos k Hk. by destruct pos. }
  pose proof (unwrap_faces_ok dt nOrig (finite_faces dt) Hinfo [] s0
                (λ df H, H) Hinv0) as (Hdup & Htrim & Hfaces).
  rewrite app_nil_l in Htrim.
  set (s := fold_left (unwrap_face dt nOrig) (finite_faces dt) s0) in *.
  set (p1 := mkTriMeshPeriodic _ _ _ _ _ _ _ _).
  destruct (create_duplicate_vertices_ok p1) as (p' & -> & Hbase & Ht & Hd).
  { apply Forall_forall. intros d Hd.
    apply list_elem_of_lookup in Hd as [pos Hpos].
    destruct Hdup as [_ Hb]. destruct (Hb pos d Hpos) as (h & Hh & <- & _).
    cbn. by apply Hinfo. }
  exists p'. rewrite Hbase, Ht, Hd. subst p1. cbn.
  split_and!; [done | by eapply dup_inv_NoDup | done | |].
  - intros pos k Hk. destruct Hdup as [_ Hb].
    destruct (Hb pos k Hk) as (h & Hh & Hkey & _). by exists h.
  - intros f Hf. apply in_app_or in Hf as [Hf | Hf].
    + rewrite Forall_forall in Hfaces.
      destruct (Hfaces f) as (? & ? & ?); [by apply list_elem_of_In|].
      unfold face_below. lia.
    + apply list_elem_of_In, list_elem_of_lookup_1 in Hf as [i Hi].
      destruct (Forall2_lookup_r _ _ _ i f Htrim Hi) as (df & Hdf & Htr).
      eapply trimmed_of_below; [exact Hinfo | | exact Htr].
      apply list_elem_of_lookup_2 in Hdf. apply list_elem_of_In in Hdf.
      apply List.filter_In in Hdf. tauto.
Qed.

Lemma sample_covering_handles (vh : Vertex_handle) :
  handle_of sample_covering vh → vh < 5.
Proof.
  intros (df & vid & Hin & Hvid & <-). cbn in Hin.
  destruct Hin as [<- | [<- | [<- | [<- | [<- | []]]]]];
    (destruct vid as [|[|[|vid]]]; [| | |lia]); cbn; lia.
Qed.

Lemma sample_covering_ok : covering_ok sample_covering 3.
Proof.
  split.
  - intros vh Hvh. apply sample_covering_handles in Hvh.
    destruct vh as [|[|[|[|[|vh]]]]]; [| | | | |lia]; cbn; lia.
  - intros h1 h2 H1 H2. apply sample_covering_handles in H1, H2.
    destruct h1 as [|[|[|[|[|h1]]]]]; [| | | | |lia];
      (destruct h2 as [|[|[|[|[|h2]]]]]; [| | | | |lia]);
      cbn; intros Hi Ho; congruence.
Qed.

Lemma delaunay_duplicates_witness :
  ∃ p',
    delaunay sample_periodic sample_covering = Some p'
    ∧ NoDup (mDuplicateVerts_OrigIds p')
    ∧ Forall2 (trimmed_of sample_covering 3 (mDuplicateVerts_OrigIds p'))
              (List.filter (straddles sample_covering)
                 (finite_faces sample_covering)) (mTrimmedFaces p')
    ∧ (∀ pos k, mDuplicateVerts_OrigIds p' !! pos = Some k →
         ∃ vh, handle_of sample_covering vh ∧ dup_key sample_covering vh = k)
    ∧ ∀ f, In f (mFaces (base p') ++ mTrimmedFaces p') →
        face_below (3 + length (mDuplicateVerts_OrigIds p')) f.
Proof.
  apply (delaunay_duplicates sample_periodic sample_covering).
  - reflexivity.
  - reflexivity.
  - exact sample_covering_ok.
Defined.

(** ** Point areas *)



Lemma len2_zero (v : Vertex) : len2 v = 0%R → v = vzero.
Proof.
  destruct v as [x y z]. unfold len2, DOT, vzero. cbn [vx vy vz]. intros H.
  assert (x = 0%R) by nra. assert (y = 0%R) by nra. assert (z = 0%R) by nra.
  by subst.
Qed.

Lemma len_vzero : len vzero = 0%R.
Proof.
  unfold len, len2, DOT, vzero. cbn [vx vy vz].
  replace (0 * 0 + 0 * 0 + 0 * 0)%R with 0%R by lra. apply sqrt_0.
Qed.

(** *** Scalars *)

Lemma sadd_comm (a b : Scalar) : sadd a b = sadd b a.
Proof. destruct a, b; cbn; try reflexivity. f_equal; lra. Qed.

Lemma sadd_assoc (a b c : Scalar) : sadd (sadd a b) c = sadd a (sadd b c).
Proof. destruct a, b, c; cbn; try reflexivity. f_equal; lra. Qed.

Lemma sadd_0_r (a : Scalar) : sadd a (Num 0) = a.
Proof. destruct a; cbn; [f_equal; lra | reflexivity]. Qed.

Lemma sadd_0_l (a : Scalar) : sadd (Num 0) a = a.
Proof. destruct a; cbn; [f_equal; lra | reflexivity]. Qed.

Lemma sadd_NaN_r (a : Scalar) : sadd a NaN = NaN.
Proof. by destruct a. Qed.

Lemma ssub_NaN_r (a : Scalar) : ssub a NaN = NaN.
Proof. by destruct a. Qed.

Lemma sdiv_num (x y : R) : y ≠ 0%R → sdiv x y = Num (x / y).
Proof. intros Hy. unfold sdiv. by destruct (Req_dec_T y 0). Qed.

Lemma sdiv_zero (x y : R) : y = 0%R → sdiv x y = NaN.
Proof. intros Hy. unfold sdiv. by destruct (Req_dec_T y 0). Qed.

Lemma ssum_NaN (l : list Scalar) : In NaN l → ssum l = NaN.
Proof.
  induction l as [|a l IH]; [intros []|].
  intros [-> | Hin]; cbn [ssum fold_right]; [reflexivity|].
  fold (ssum l). rewrite (IH Hin). apply sadd_NaN_r.
Qed.

Lemma ssum_Permutation (l l' : list Scalar) : l ≡ₚ l' → ssum l = ssum l'.
Proof.
  induction 1 as [|x l l' _ IH|x y l|l l' l'' _ IH1 _ IH2].
  - reflexivity.
  - cbn [ssum fold_right]. fold (ssum l) (ssum l'). by rewrite IH.
  - cbn [ssum fold_right]. fold (ssum l).
    rewrite <- !sadd_assoc, (sadd_comm y x). reflexivity.
  - by rewrite IH1.
Qed.

(** *** The edges of a face

    The three edge vectors add up to zero, so every scalar product of two
    of them is determined by the three squared lengths. *)

Lemma len2_vsub_sym (a b : Vertex) : len2 (vsub a b) = len2 (vsub b a).
Proof. unfold len2, DOT, vsub. cbn [vx vy vz]. ring. Qed.


Lemma DOT_vzero_l (a : Vertex) : DOT vzero a = 0%R.
Proof. unfold DOT, vzero. cbn [vx vy vz]. ring. Qed.

Lemma DOT_vzero_r (a : Vertex) : DOT a vzero = 0%R.
Proof. unfold DOT, vzero. cbn [vx vy vz]. ring. Qed.

Lemma edges_dot12 (p0 p1 p2 : Vertex) :
  (len2 (vsub p0 p2) + len2 (vsub p1 p0) - len2 (vsub p2 p1))%R
  = (-2 * DOT (vsub p0 p2) (vsub p1 p0))%R.
Proof. unfold len2, DOT, vsub. cbn [vx vy vz]. ring. Qed.



(** *** The corner areas of one face *)



(** On a face with an edge of length zero the first branch is taken and
    one of its two divisors is zero: the area of the first corner, which is
    what is left of the face area, is not a number. *)
Lemma corner_areas_zero_edge (p0 p1 p2 : Vertex) :
  zero_edge p0 p1 p2 → ca0 (corner_areas p0 p1 p2) = NaN.
Proof.
  intros Hz. unfold zero_edge in Hz.
  rewrite (len2_vsub_sym p0 p1), (len2_vsub_sym p1 p2),
    (len2_vsub_sym p2 p0) in Hz.
  pose proof (edges_dot12 p0 p1 p2) as D12.
  assert (Hew : (len2 (vsub p2 p1)
                 * (len2 (vsub p0 p2) + len2 (vsub p1 p0) - len2 (vsub p2 p1))
                 <= 0)%R).
  { rewrite D12. destruct Hz as [Hz | [Hz | Hz]].
    - apply len2_zero in Hz. rewrite Hz, DOT_vzero_r. lra.
    - rewrite Hz. lra.
    - apply len2_zero in Hz. rewrite Hz, DOT_vzero_l. lra. }
  unfold corner_areas. cbv zeta.
  destruct (Rle_dec _ 0) as [_ | Hn]; [|contradiction].
  cbn [ca0].
  destruct Hz as [Hz | [Hz | Hz]].
  - apply len2_zero in Hz.
    rewrite (sdiv_zero _ (DOT (vsub p2 p1) (vsub p1 p0)))
      by (rewrite Hz; apply DOT_vzero_r).
    reflexivity.
  - apply len2_zero in Hz.
    rewrite (sdiv_zero _ (DOT (vsub p2 p1) (vsub p1 p0)))
      by (rewrite Hz; apply DOT_vzero_l).
    reflexivity.
  - apply len2_zero in Hz.
    rewrite (sdiv_zero _ (DOT (vsub p2 p1) (vsub p0 p2)))
      by (rewrite Hz; apply DOT_vzero_r).
    apply ssub_NaN_r.
Qed.

(** *** The loop over the faces *)

Lemma add_at_lookup (l : list Scalar) (u : nat) (y : Scalar) :
  u < length l →
  ∃ l', add_at l u y = Some l'
        ∧ length l' = length l
        ∧ ∀ v x, l !! v = Some x →
            l' !! v = Some (if u =? v then sadd x y else x).
Proof.
  intros Hu. unfold add_at.
  destruct (lookup_lt_is_Some_2 l u Hu) as [z Hz]. rewrite Hz.
  cbn [mbind option_bind]. eexists. split; [reflexivity|].
  split; [by rewrite length_insert|]. intros v x Hx.
  destruct (Nat.eqb_spec u v) as [-> | Hne].
  - rewrite list_lookup_insert_eq by (by eapply lookup_lt_Some). congruence.
  - by rewrite list_lookup_insert_ne.
Qed.

Lemma pointareas_step_share (verts : list Vertex) (pa : list Scalar) (f : Face) :
  length pa = length verts →
  fc0 f < length verts ∧ fc1 f < length verts ∧ fc2 f < length verts →
  ∃ pa', pointareas_step verts pa f = Some pa'
         ∧ length pa' = length verts
         ∧ ∀ v x, pa !! v = Some x →
             pa' !! v = Some (sadd x (corner_share verts v f)).
Proof.
  intros Hlen (H0 & H1 & H2). unfold pointareas_step, corner_share.
  destruct (lookup_lt_is_Some_2 verts _ H0) as [p0 ->].
  destruct (lookup_lt_is_Some_2 verts _ H1) as [p1 ->].
  destruct (lookup_lt_is_Some_2 verts _ H2) as [p2 ->].
  cbn [mbind option_bind]. cbv zeta.
  destruct (add_at_lookup pa (fc0 f) (ca0 (corner_areas p0 p1 p2)))
    as (a0 & -> & L0 & K0); [lia|].
  cbn [mbind option_bind].
  destruct (add_at_lookup a0 (fc1 f) (ca1 (corner_areas p0 p1 p2)))
    as (a1 & -> & L1 & K1); [lia|].
  cbn [mbind option_bind].
  destruct (add_at_lookup a1 (fc2 f) (ca2 (corner_areas p0 p1 p2)))
    as (a2 & E2 & L2 & K2); [lia|].
  exists a2. split_and!; [exact E2 | lia |].
  intros v x Hx. rewrite (K2 v _ (K1 v _ (K0 v x Hx))). f_equal.
  destruct (fc0 f =? v), (fc1 f =? v), (fc2 f =? v);
    rewrite ?sadd_0_r, ?sadd_assoc, ?sadd_0_l; reflexivity.
Qed.

Lemma pointareas_loop_share (verts : list Vertex) (faces : list Face) :
  faces_in_range (length verts) faces →
  ∀ pa, length pa = length verts →
    ∃ pa', foldlM (pointareas_step verts) pa faces = Some pa'
           ∧ length pa' = length verts
           ∧ ∀ v x, pa !! v = Some x →
               pa' !! v
               = Some (sadd x (ssum (map (corner_share verts v) faces))).
Proof.
  intros Hr. induction Hr as [|f faces Hf _ IH]; intros pa Hlen.
  - exists pa. split_and!; [reflexivity | done |].
    intros v x Hx. rewrite Hx. f_equal. cbn. by rewrite sadd_0_r.
  - destruct (pointareas_step_share verts pa f Hlen Hf) as (pa1 & E1 & L1 & K1).
    destruct (IH pa1 L1) as (pa' & E' & L' & K').
    exists pa'. split_and!; [|done|].
    + cbn [foldlM]. rewrite E1. exact E'.
    + intros v x Hx. rewrite (K' v _ (K1 v x Hx)). f_equal.
      cbn [map ssum fold_right].
      fold (ssum (map (corner_share verts v) faces)). apply sadd_assoc.
Qed.

Lemma need_pointareas_values (m : TriMesh) :
  fields_find "point_areas" (mFields m) = None →
  faces_in_range (length (mVertices m)) (mFaces m) →
  ∃ pa,
    need_pointareas m
    = Some (with_mFields m (fields_set "point_areas" pa (mFields m)), pa)
    ∧ length pa = length (mVertices m)
    ∧ ∀ v, v < length (mVertices m) →
        pa !! v
        = Some (ssum (map (corner_share (mVertices m) v) (mFaces m))).
Proof.
  intros Hnone Hr. unfold need_pointareas. rewrite Hnone.
  destruct (pointareas_loop_share (mVertices m) (mFaces m) Hr
              (replicate (length (mVertices m)) (Num 0)))
    as (pa & -> & Hlen & Hval); [by rewrite length_replicate|].
  cbn [mbind option_bind]. exists pa.
  split_and!; [reflexivity | exact Hlen |].
  intros v Hv. rewrite (Hval v (Num 0)) by (by rewrite lookup_replicate_2).
  f_equal. apply sadd_0_l.
Qed.

Lemma fields_find_set (name : string) (data : list Scalar)
    (fl : list (string * list Scalar)) :
  fields_find name (fields_set name data fl) = Some data.
Proof.
  induction fl as [|[n d] fl IH]; cbn.
  - by rewrite String.eqb_refl.
  - destruct (String.compare name n) eqn:E; cbn.
    + by rewrite String.eqb_refl.
    + by rewrite String.eqb_refl.
    + destruct (String.eqb_spec name n) as [-> | _]; [|exact IH].
      pose proof (String.compare_antisym n n) as Ha. rewrite E in Ha.
      discriminate Ha.
Qed.

(** *** A face with an edge of length zero *)

Lemma corner_areas_pinched :
  corner_areas vzero vzero (mkVertex 1 0 0) = mkAreas3 NaN NaN (Num 0).
Proof.
  assert (Hc : CROSS (vsub (mkVertex 1 0 0) vzero) (vsub vzero (mkVertex 1 0 0))
               = vzero)
    by (unfold CROSS, vsub, vzero; cbn [vx vy vz]; f_equal; ring).
  unfold corner_areas. cbv zeta. rewrite Hc, len_vzero.
  destruct (Rle_dec _ 0) as [_ | Hn].
  - rewrite (sdiv_zero _ (DOT _ (vsub vzero vzero)))
      by (unfold DOT, vsub, vzero; cbn [vx vy vz]; ring).
    rewrite sdiv_num
      by (unfold DOT, vsub, vzero; cbn [vx vy vz]; lra).
    cbn [ssub]. f_equal. f_equal.
    unfold len2, DOT, vsub, vzero; cbn [vx vy vz]. lra.
  - exfalso. apply Hn.
    unfold len2, DOT, vsub, vzero; cbn [vx vy vz]. lra.
Qed.

(** C4 (violated by the code): the claim holds of every face that has no
    edge of length zero, but [need_pointareas] has no test for the faces
    that have one, which [need_normals] skips.  On the mesh of one face
    whose first two vertices lie at the same position, the face has area
    0, the loop of [need_normals] passes it over, and [need_pointareas]
    divides [0] by the scalar product [e0 DOT e2 = 0]: the corner areas
    are (NaN, NaN, 0), they do not add up to the area of the face, and the
    point areas that are cached and returned are not numbers. *)
Theorem need_pointareas_zero_edge_face :
  face_area_of (mVertices pinched_triangle) (mkFace 0 1 2) = 0%R
  ∧ skipped (mVertices pinched_triangle) (mkFace 0 1 2) = true
  ∧ corner_areas vzero vzero (mkVertex 1 0 0) = mkAreas3 NaN NaN (Num 0)
  ∧ ∃ m',
      need_pointareas pinched_triangle = Some (m', [NaN; NaN; Num 0])
      ∧ fields_find "point_areas" (mFields m') = Some [NaN; NaN; Num 0]
      ∧ ssum [NaN; NaN; Num 0] = NaN.
Proof.
  split_and!.
  - unfold face_area_of, pinched_triangle, face_area. cbn [mVertices lookup
      list_lookup fc0 fc1 fc2].
    assert (Hc : CROSS (vsub (mkVertex 1 0 0) vzero)
                       (vsub vzero (mkVertex 1 0 0)) = vzero)
      by (unfold CROSS, vsub, vzero; cbn [vx vy vz]; f_equal; ring).
    rewrite Hc, len_vzero. lra.
  - unfold skipped, pinched_triangle. cbn [mVertices lookup list_lookup
      fc0 fc1 fc2].
    assert (Hz : len2 (vsub vzero vzero) = 0%R)
      by (unfold len2, DOT, vsub, vzero; cbn [vx vy vz]; ring).
    rewrite Hz. unfold is_zero. by destruct (Req_dec_T 0 0).
  - exact corner_areas_pinched.
  - assert (Hrun : foldlM (pointareas_step (mVertices pinched_triangle))
                          (replicate 3 (Num 0)) (mFaces pinched_triangle)
                   = Some [NaN; NaN; Num 0]).
    { unfold pinched_triangle. cbn [mVertices mFaces foldlM].
      unfold pointareas_step. cbn [fc0 fc1 fc2 lookup list_lookup mbind
        option_bind]. cbv zeta. rewrite corner_areas_pinched.
      cbn. replace (0 + 0)%R with 0%R by lra. reflexivity. }
    unfold need_pointareas.
    change (fields_find "point_areas" (mFields pinched_triangle))
      with (@None (list Scalar)).
    change (length (mVertices pinched_triangle)) with 3.
    cbv zeta. rewrite Hrun. cbn [mbind option_bind].
    eexists. split_and!; [reflexivity | apply fields_find_set | reflexivity].
Qed.

(** ** Vertex normals *)



Lemma is_zero_true (x : R) : is_zero x = true ↔ x = 0%R.
Proof. unfold is_zero. destruct (Req_dec_T x 0); split; (done || congruence). Qed.


Lemma skip_test_zero_edge (p0 p1 p2 : Vertex) :
  is_zero (len2 (vsub p0 p1)) || is_zero (len2 (vsub p1 p2))
  || is_zero (len2 (vsub p2 p0)) = true
  ↔ zero_edge p0 p1 p2.
Proof.
  unfold zero_edge. rewrite !orb_true_iff, !is_zero_true. tauto.
Qed.

Lemma vadd_at_ok (l : list Normal) (i : nat) (x : Normal) :
  i < length l →
  ∃ l', vadd_at l i x = Some l' ∧ length l' = length l
        ∧ ∀ v, v ≠ i → l' !! v = l !! v.
Proof.
  intros Hi. unfold vadd_at. destruct (lookup_lt_is_Some_2 l i Hi) as [y ->].
  eexists; split_and!; [reflexivity | by rewrite length_insert |].
  intros v Hv. by rewrite list_lookup_insert_ne.
Qed.

Lemma normals_step_ok (verts : list Vertex) (pn fn : list Normal) (i : nat)
    (f : Face) :
  length pn = length verts → i < length fn →
  fc0 f < length verts ∧ fc1 f < length verts ∧ fc2 f < length verts →
  ∃ pn' fn',
    normals_step verts (pn, fn) i f = Some (pn', fn')
    ∧ length pn' = length verts ∧ length fn' = length fn
    ∧ ∀ v, (incident v f → ¬ valid_face verts f) → pn' !! v = pn !! v.
Proof.
  intros Hlen Hi (H0 & H1 & H2). unfold normals_step.
  destruct (lookup_lt_is_Some_2 verts _ H0) as [p0 E0].
  destruct (lookup_lt_is_Some_2 verts _ H1) as [p1 E1].
  destruct (lookup_lt_is_Some_2 verts _ H2) as [p2 E2].
  rewrite E0, E1, E2. cbn [mbind option_bind].
  destruct (_ || _) eqn:Hskip.
  { exists pn, fn. by split_and!. }
  assert (Hvalid : valid_face verts f).
  { exists p0, p1, p2. split_and!; [done..|].
    rewrite <- skip_test_zero_edge. by rewrite Hskip. }
  destruct (lookup_lt_is_Some_2 fn i Hi) as [n0 ->]. cbn [mbind option_bind].
  destruct (vadd_at_ok pn (fc0 f)
              (vscale (CROSS (vsub p0 p1) (vsub p1 p2))
                 (1 / (len2 (vsub p0 p1) * len2 (vsub p2 p0)))))
    as (a0 & -> & L0 & K0); [lia|].
  cbn [mbind option_bind].
  destruct (vadd_at_ok a0 (fc1 f)
              (vscale (CROSS (vsub p0 p1) (vsub p1 p2))
                 (1 / (len2 (vsub p1 p2) * len2 (vsub p0 p1)))))
    as (a1 & -> & L1 & K1); [lia|].
  cbn [mbind option_bind].
  destruct (vadd_at_ok a1 (fc2 f)
              (vscale (CROSS (vsub p0 p1) (vsub p1 p2))
                 (1 / (len2 (vsub p2 p0) * len2 (vsub p1 p2)))))
    as (a2 & -> & L2 & K2); [lia|].
  cbn [mbind option_bind].
  exists a2, (<[i := CROSS (vsub p0 p1) (vsub p1 p2)]> fn).
  split_and!; [reflexivity | lia | by rewrite length_insert |].
  intros v Hv.
  assert (Hninc : ¬ incident v f) by (intros Hinc; by apply Hv).
  unfold incident, corners in Hninc. cbn [In] in Hninc.
  rewrite K2, K1, K0; [done | ..]; intros ->; tauto.
Qed.






(* ===================================================================== *)
(** * Part III: further properties of the code                            *)
(* ===================================================================== *)

(** A loop over [0 .. n-1] with an invariant that knows the index. *)
Lemma foldlM_seq_inv {S : Type} (P : nat → S → Prop)
    (body : S → nat → option S) (n : nat) :
  (∀ k s, k < n → P k s → ∃ s', body s k = Some s' ∧ P (Datatypes.S k) s') →
  ∀ s, P 0 s → ∃ s', foldlM body s (seq 0 n) = Some s' ∧ P n s'.
Proof.
  intros Hbody.
  assert (Hgen : ∀ cnt start s, start + cnt = n → P start s →
                   ∃ s', foldlM body s (seq start cnt) = Some s' ∧ P n s').
  { induction cnt as [|cnt IH]; intros start s Hn Hs.
    - exists s. split; [reflexivity|]. replace n with start by lia. exact Hs.
    - destruct (Hbody start s ltac:(lia) Hs) as (s1 & E1 & Hs1).
      destruct (IH (Datatypes.S start) s1 ltac:(lia) Hs1) as (s' & E' & Hs').
      exists s'. split; [|exact Hs']. cbn [seq foldlM]. rewrite E1. exact E'. }
  intros s Hs. by apply (Hgen n 0).
Qed.

(** ** Barycentric coordinates *)

(** The denominator of [Point2Bary] is the squared length of the cross
    product of the two edge vectors (identity of Lagrange). *)
Lemma bary_denominator (a b c : Point3) :
  (DOT (vsub b a) (vsub b a) * DOT (vsub c a) (vsub c a)
   - DOT (vsub b a) (vsub c a) * DOT (vsub b a) (vsub c a))%R
  = len2 (CROSS (vsub b a) (vsub c a)).
Proof. unfold len2, DOT, CROSS, vsub. cbn [vx vy vz]. ring. Qed.

Lemma bary_numerators (a b c : Point3) (s t h : R) :
  let v0 := vsub b a in
  let v1 := vsub c a in
  let v2 := vsub (plane_point a b c s t h) a in
  let denom := (DOT v0 v0 * DOT v1 v1 - DOT v0 v1 * DOT v0 v1)%R in
  (DOT v1 v1 * DOT v2 v0 - DOT v0 v1 * DOT v2 v1)%R = (s * denom)%R
  ∧ (DOT v0 v0 * DOT v2 v1 - DOT v0 v1 * DOT v2 v0)%R = (t * denom)%R.
Proof.
  unfold plane_point, DOT, CROSS, vadd, vscale, vsub. cbn [vx vy vz].
  split; ring.
Qed.

(** X2.  For a triangle that is not degenerate, [Point2Bary] of the point
    [a + s (b - a) + t (c - a)], moved by any amount along the normal of the
    plane, is [(1 - s - t, s, t)]: the coordinates sum to 1, they are those
    of the foot of the point in the plane, and combining the corners with
    them gives back that foot. *)
Theorem Point2Bary_plane_point (a b c : Point3) (s t h : R) :
  CROSS (vsub b a) (vsub c a) ≠ vzero →
  Point2Bary (plane_point a b c s t h) a b c = mkVertex (1 - s - t) s t
  ∧ (let bary := Point2Bary (plane_point a b c s t h) a b c in
     vadd (vscale a (vx bary)) (vadd (vscale b (vy bary)) (vscale c (vz bary)))
     = plane_point a b c s t 0).
Proof.
  intros Hnd.
  assert (Hbary : Point2Bary (plane_point a b c s t h) a b c
                  = mkVertex (1 - s - t) s t).
  { unfold Point2Bary. cbv zeta.
    destruct (bary_numerators a b c s t h) as [Hv Hw]. cbv zeta in Hv, Hw.
    rewrite Hv, Hw.
    pose proof (bary_denominator a b c) as Hden.
    set (denom := (DOT (vsub b a) (vsub b a) * DOT (vsub c a) (vsub c a)
                   - DOT (vsub b a) (vsub c a) * DOT (vsub b a) (vsub c a))%R)
      in *.
    assert (Hne : denom ≠ 0%R)
      by (intros H0; apply Hnd, len2_zero; by rewrite <- Hden).
    f_equal; by field. }
  split; [exact Hbary|]. cbv zeta. rewrite Hbary.
  unfold plane_point, CROSS, vadd, vscale, vsub. cbn [vx vy vz].
  f_equal; ring.
Qed.

Lemma Point2Bary_plane_point_witness :
  Point2Bary (plane_point vzero (mkVertex 1 0 0) (mkVertex 0 1 0) (1/4) (1/2) 3)
             vzero (mkVertex 1 0 0) (mkVertex 0 1 0)
  = mkVertex (1 - 1/4 - 1/2) (1/4) (1/2).
Proof.
  apply (Point2Bary_plane_point vzero (mkVertex 1 0 0) (mkVertex 0 1 0)
           (1/4) (1/2) 3).
  unfold CROSS, vsub, vzero. cbn [vx vy vz]. intros H.
  apply (f_equal vz) in H. cbn [vz] in H. lra.
Defined.

(** X3.  For a triangle that is not degenerate and any point [p], the
    coordinates returned by [Point2Bary] sum to 1, and the point they
    give when the corners are combined with them is the orthogonal
    projection of [p] onto the plane of the triangle: what is left of [p]
    is orthogonal to both edge vectors at [a]. *)
Theorem Point2Bary_projection (p a b c : Point3) :
  CROSS (vsub b a) (vsub c a) ≠ vzero →
  let bary := Point2Bary p a b c in
  let foot := vadd (vscale a (vx bary))
                   (vadd (vscale b (vy bary)) (vscale c (vz bary))) in
  (vx bary + vy bary + vz bary)%R = 1%R
  ∧ DOT (vsub p foot) (vsub b a) = 0%R
  ∧ DOT (vsub p foot) (vsub c a) = 0%R.
Proof.
  intros Hnd. cbv zeta.
  pose proof (bary_denominator a b c) as Hden.
  assert (Hne : (DOT (vsub b a) (vsub b a) * DOT (vsub c a) (vsub c a)
                 - DOT (vsub b a) (vsub c a) * DOT (vsub b a) (vsub c a))%R
                ≠ 0%R)
    by (intros H0; apply Hnd, len2_zero; by rewrite <- Hden).
  clear Hden Hnd.
  destruct p as [px py pz], a as [ax ay az], b as [bx by' bz], c as [cx cy cz].
  unfold Point2Bary, DOT, vadd, vscale, vsub in *. cbn [vx vy vz] in *.
  split_and!; field; exact Hne.
Qed.

Lemma Point2Bary_projection_witness :
  let bary := Point2Bary (mkVertex 1 2 3) vzero (mkVertex 1 0 0)
                (mkVertex 0 1 0) in
  let foot := vadd (vscale vzero (vx bary))
                   (vadd (vscale (mkVertex 1 0 0) (vy bary))
                         (vscale (mkVertex 0 1 0) (vz bary))) in
  (vx bary + vy bary + vz bary)%R = 1%R
  ∧ DOT (vsub (mkVertex 1 2 3) foot) (vsub (mkVertex 1 0 0) vzero) = 0%R
  ∧ DOT (vsub (mkVertex 1 2 3) foot) (vsub (mkVertex 0 1 0) vzero) = 0%R.
Proof.
  apply (Point2Bary_projection (mkVertex 1 2 3) vzero (mkVertex 1 0 0)
           (mkVertex 0 1 0)).
  unfold CROSS, vsub, vzero. cbn [vx vy vz]. intros H.
  apply (f_equal vz) in H. cbn [vz] in H. lra.
Defined.

(** X4.  In the plane, [Bary2Point] undoes [Point2Bary]: for a planar triangle
    that is not degenerate, the barycentric coordinates of a planar point
    combine the corners to that point. *)
Theorem Bary2Point_Point2Bary (p a b c : Point2) :
  ((p2x b - p2x a) * (p2y c - p2y a) - (p2y b - p2y a) * (p2x c - p2x a) ≠ 0)%R →
  Bary2Point (Point2Bary (lift p) (lift a) (lift b) (lift c)) a b c = p.
Proof.
  intros Hnd. destruct p as [px py], a as [ax ay], b as [bx by'], c as [cx cy].
  cbn [p2x p2y] in Hnd.
  unfold Bary2Point, Point2Bary, lift, DOT, vsub. cbn [vx vy vz p2x p2y].
  assert (Hden : (((bx - ax) * (bx - ax) + (by' - ay) * (by' - ay) + (0 - 0) * (0 - 0))
                  * ((cx - ax) * (cx - ax) + (cy - ay) * (cy - ay) + (0 - 0) * (0 - 0))
                  - ((bx - ax) * (cx - ax) + (by' - ay) * (cy - ay) + (0 - 0) * (0 - 0))
                    * ((bx - ax) * (cx - ax) + (by' - ay) * (cy - ay) + (0 - 0) * (0 - 0)))%R
                 = (((bx - ax) * (cy - ay) - (by' - ay) * (cx - ax))
                    * ((bx - ax) * (cy - ay) - (by' - ay) * (cx - ax)))%R)
    by ring.
  rewrite Hden.
  set (k := ((bx - ax) * (cy - ay) - (by' - ay) * (cx - ax))%R) in *.
  f_equal; (field_simplify_eq; [unfold k; ring | exact Hnd]).
Qed.

Lemma Bary2Point_Point2Bary_witness :
  Bary2Point (Point2Bary (lift (mkPoint2 (1/4) (1/2))) (lift (mkPoint2 0 0))
                (lift (mkPoint2 1 0)) (lift (mkPoint2 0 1)))
             (mkPoint2 0 0) (mkPoint2 1 0) (mkPoint2 0 1)
  = mkPoint2 (1/4) (1/2).
Proof.
  apply (Bary2Point_Point2Bary (mkPoint2 (1/4) (1/2)) (mkPoint2 0 0)
           (mkPoint2 1 0) (mkPoint2 0 1)).
  cbn [p2x p2y]. lra.
Defined.

(** ** [parameterize_xy] *)

Lemma xy_flat_length (verts : list Vertex) :
  length (xy_flat verts) = 2 * length verts.
Proof.
  induction verts as [|v verts IH]; [reflexivity|].
  change (xy_flat (v :: verts)) with (vx v :: vy v :: xy_flat verts).
  cbn [length]. rewrite IH. lia.
Qed.

Lemma xy_flat_lookup (verts : list Vertex) (i : nat) :
  xy_flat verts !! (2 * i) = vx <$> verts !! i
  ∧ xy_flat verts !! (2 * i + 1) = vy <$> verts !! i.
Proof.
  revert i. induction verts as [|v verts IH]; intros i; [by split|].
  destruct i as [|i]; [by split|].
  replace (2 * S i) with (S (S (2 * i))) by lia.
  replace (S (S (2 * i)) + 1) with (S (S (2 * i + 1))) by lia.
  exact (IH i).
Qed.

(** X5.  [parameterize_xy] never fails and returns, for every vertex in order,
    its [x] and its [y] coordinate: twice as many numbers as vertices, the
    [z] coordinates playing no part. *)
Theorem parameterize_xy_flat (m : TriMesh) :
  parameterize_xy m = Some (xy_flat (mVertices m))
  ∧ length (xy_flat (mVertices m)) = 2 * length (mVertices m)
  ∧ ∀ i v, mVertices m !! i = Some v →
      xy_flat (mVertices m) !! (2 * i) = Some (vx v)
      ∧ xy_flat (mVertices m) !! (2 * i + 1) = Some (vy v).
Proof.
  split_and!; [|apply xy_flat_length|].
  2: { intros i v Hv. destruct (xy_flat_lookup (mVertices m) i) as [-> ->].
       by rewrite Hv. }
  unfold parameterize_xy. set (verts := mVertices m). set (n := length verts).
  destruct (foldlM_seq_inv
              (λ k (retval : list R),
                 length retval = 2 * n
                 ∧ ∀ i, i < k → retval !! (2 * i) = vx <$> verts !! i
                                ∧ retval !! (2 * i + 1) = vy <$> verts !! i)
              (parameterize_xy_step verts) n) with (s := replicate (2 * n) 0%R)
    as (retval & -> & Hlen & Hval).
  - intros k retval Hk [Hlen Hval]. unfold parameterize_xy_step.
    destruct (lookup_lt_is_Some_2 verts k Hk) as [v Hv]. rewrite Hv.
    cbn [mbind option_bind].
    destruct (lookup_lt_is_Some_2 retval (2 * k)) as [x0 ->]; [lia|].
    cbn [mbind option_bind].
    destruct (lookup_lt_is_Some_2 (<[2 * k := vx v]> retval) (2 * k + 1))
      as [y0 ->]; [rewrite length_insert; lia|].
    cbn [mbind option_bind]. eexists; split; [reflexivity|].
    split; [by rewrite !length_insert|].
    intros i Hi. destruct (decide (i = k)) as [-> | Hne].
    + rewrite Hv. cbn [fmap option_fmap option_map]. split.
      * rewrite list_lookup_insert_ne by lia.
        by rewrite list_lookup_insert_eq by lia.
      * by rewrite list_lookup_insert_eq by (rewrite length_insert; lia).
    + rewrite !list_lookup_insert_ne by lia. apply Hval. lia.
  - split; [by rewrite length_replicate|]. intros i Hi. lia.
  - f_equal. apply list_eq. intros idx.
    destruct (Nat.Even_or_Odd idx) as [[i ->] | [i ->]].
    + destruct (xy_flat_lookup verts i) as [-> _].
      destruct (decide (i < n)) as [Hi | Hi]; [by apply Hval|].
      rewrite (lookup_ge_None_2 retval) by lia.
      by rewrite (lookup_ge_None_2 verts) by (fold n; lia).
    + destruct (xy_flat_lookup verts i) as [_ ->].
      destruct (decide (i < n)) as [Hi | Hi]; [by apply Hval|].
      rewrite (lookup_ge_None_2 retval) by lia.
      by rewrite (lookup_ge_None_2 verts) by (fold n; lia).
Qed.

Lemma parameterize_xy_flat_witness :
  parameterize_xy two_sided = Some [0; 0; 1; 0; 0; 1]%R.
Proof. apply (parameterize_xy_flat two_sided). Defined.

(** ** [need_adjacentfaces], exactly *)

Lemma adjacent_from_snoc (i : nat) (faces : list Face) (f : Face) (v : nat) :
  adjacent_from i (faces ++ [f]) v
  = adjacent_from i faces v
    ++ replicate (count_occ Nat.eq_dec (corners f) v) (i + length faces).
Proof.
  revert i. induction faces as [|g faces IH]; intros i.
  - cbn [app adjacent_from length]. rewrite app_nil_r, Nat.add_0_r. reflexivity.
  - cbn [app adjacent_from length]. rewrite IH, <- app_assoc.
    do 3 f_equal. lia.
Qed.

Lemma adjacent_from_In (i : nat) (faces : list Face) (v k : nat) :
  In k (adjacent_from i faces v)
  ↔ ∃ f, i ≤ k ∧ faces !! (k - i) = Some f ∧ incident v f.
Proof.
  revert i. induction faces as [|g faces IH]; intros i.
  - cbn. split; [done | by intros (f & _ & Hf & _)].
  - cbn [adjacent_from]. rewrite in_app_iff, IH. split.
    + intros [Hrep | (f & Hle & Hf & Hinc)].
      * apply list_elem_of_In, elem_of_replicate in Hrep as [-> Hocc].
        exists g. rewrite Nat.sub_diag. split_and!; [lia | done |].
        unfold incident. apply (count_occ_In Nat.eq_dec). lia.
      * exists f. split_and!; [lia | | done].
        replace (k - i) with (S (k - S i)) by lia. exact Hf.
    + intros (f & Hle & Hf & Hinc).
      destruct (decide (k = i)) as [-> | Hne].
      * left. rewrite Nat.sub_diag in Hf. injection Hf as <-.
        apply list_elem_of_In, elem_of_replicate. split; [done|].
        unfold incident in Hinc. apply (count_occ_In Nat.eq_dec) in Hinc. lia.
      * right. exists f. split_and!; [lia | | done].
        replace (k - i) with (S (k - S i)) in Hf by lia. exact Hf.
Qed.

Lemma adjacent_from_length (i : nat) (faces : list Face) (v : nat) :
  length (adjacent_from i faces v) = incident_count faces v.
Proof.
  unfold incident_count. revert i.
  induction faces as [|g faces IH]; intros i; [reflexivity|].
  cbn [adjacent_from]. rewrite all_corners_cons, length_app, length_replicate,
    count_occ_app, IH. reflexivity.
Qed.

Lemma adjacent_from_NoDup (i : nat) (faces : list Face) (v : nat) :
  Forall distinct_corners faces → NoDup (adjacent_from i faces v).
Proof.
  intros Hd. revert i. induction Hd as [|g faces (H01 & H12 & H20) _ IH]; intros i.
  - constructor.
  - cbn [adjacent_from]. apply NoDup_app. split_and!.
    + unfold corners. cbn [count_occ].
      repeat destruct (Nat.eq_dec _ v); try congruence;
        cbn; repeat constructor; set_solver.
    + intros k Hk Hk'. apply elem_of_replicate in Hk as [-> _].
      apply list_elem_of_In, adjacent_from_In in Hk' as (f & Hle & _). lia.
    + apply IH.
Qed.

Lemma push_adjacent_exact (adj : list (list nat)) (u i : nat) :
  u < length adj →
  ∃ adj', push_adjacent adj u i = Some adj'
          ∧ length adj' = length adj
          ∧ ∀ v, adj' !! v
                 = (λ a, a ++ if decide (u = v) then [i] else []) <$> adj !! v.
Proof.
  intros Hu. unfold push_adjacent.
  destruct (lookup_lt_is_Some_2 adj u Hu) as [a Ha]. rewrite Ha.
  eexists; split_and!; [reflexivity | by rewrite length_insert |].
  intros v. case_decide as Huv.
  - subst v. rewrite list_lookup_insert_eq by done. by rewrite Ha.
  - rewrite list_lookup_insert_ne by done.
    destruct (adj !! v); cbn; [by rewrite app_nil_r | done].
Qed.

Lemma adjacent_step_exact (faces : list Face) (adj : list (list nat)) (i : nat)
    (f : Face) :
  faces !! i = Some f →
  fc0 f < length adj ∧ fc1 f < length adj ∧ fc2 f < length adj →
  ∃ adj', adjacent_step faces adj i = Some adj'
          ∧ length adj' = length adj
          ∧ ∀ v, adj' !! v
                 = (λ a, a ++ replicate (count_occ Nat.eq_dec (corners f) v) i)
                   <$> adj !! v.
Proof.
  intros Hf (H0 & H1 & H2). unfold adjacent_step. rewrite Hf.
  cbn [mbind option_bind].
  destruct (push_adjacent_exact adj (fc0 f) i H0) as (a1 & -> & L1 & K1).
  cbn [mbind option_bind].
  destruct (push_adjacent_exact a1 (fc1 f) i) as (a2 & -> & L2 & K2); [lia|].
  cbn [mbind option_bind].
  destruct (push_adjacent_exact a2 (fc2 f) i) as (a3 & E3 & L3 & K3); [lia|].
  exists a3. split_and!; [exact E3 | lia |].
  intros v. rewrite K3, K2, K1. destruct (adj !! v) as [a|]; [|done].
  cbn [fmap option_fmap option_map]. f_equal. rewrite <- !app_assoc. f_equal.
  unfold corners. cbn [count_occ].
  repeat case_decide; repeat destruct (Nat.eq_dec _ v); try congruence;
    reflexivity.
Qed.

Lemma need_adjacentfaces_lists (m : TriMesh) :
  mVAdjFaces m = [] →
  faces_in_range (length (mVertices m)) (mFaces m) →
  ∃ adj,
    need_adjacentfaces m = Some (with_mVAdjFaces m adj)
    ∧ length adj = length (mVertices m)
    ∧ ∀ v, v < length (mVertices m) →
        adj !! v = Some (adjacent_from 0 (mFaces m) v).
Proof.
  intros Hfresh Hr. unfold need_adjacentfaces. rewrite Hfresh.
  cbn [is_empty negb].
  destruct (count_adjacent_ok _ _ Hr) as [num ->]. cbn [mbind option_bind].
  set (nv := length (mVertices m)). set (faces := mFaces m).
  destruct (foldlM_seq_inv
              (λ k (adj : list (list nat)),
                 length adj = nv
                 ∧ ∀ v, v < nv →
                     adj !! v = Some (adjacent_from 0 (take k faces) v))
              (adjacent_step faces) (length faces))
    with (s := replicate nv (@nil nat)) as (adj & -> & Hlen & Hadj).
  - intros k adj Hk [Hlen Hadj].
    destruct (lookup_lt_is_Some_2 faces k Hk) as [f Hf].
    pose proof (faces_in_range_lookup nv faces k f Hr Hf) as Hfr.
    destruct (adjacent_step_exact faces adj k f Hf) as (adj' & E & L & K);
      [lia|].
    exists adj'. split_and!; [exact E | lia |].
    intros v Hv. rewrite K, (Hadj v Hv). cbn [fmap option_fmap option_map].
    f_equal. rewrite (take_S_r faces k f Hf), adjacent_from_snoc.
    rewrite length_take. do 2 f_equal. lia.
  - split; [by rewrite length_replicate|].
    intros v Hv. by rewrite lookup_replicate_2.
  - cbn [mbind option_bind]. exists adj.
    split_and!; [reflexivity | exact Hlen |].
    intros v Hv. by rewrite (Hadj v Hv), firstn_all.
Qed.

Lemma adjacent_from_incident (faces : list Face) (v k : nat) :
  In k (adjacent_from 0 faces v) ↔ ∃ f, faces !! k = Some f ∧ incident v f.
Proof.
  rewrite adjacent_from_In, Nat.sub_0_r. split.
  - intros (f & _ & Hf & Hinc). by exists f.
  - intros (f & Hf & Hinc). exists f. split_and!; [lia | done | done].
Qed.

Lemma need_adjacentfaces_complete (m : TriMesh) :
  mVAdjFaces m = [] →
  faces_in_range (length (mVertices m)) (mFaces m) →
  ∃ adj,
    need_adjacentfaces m = Some (with_mVAdjFaces m adj)
    ∧ adj_complete (length (mVertices m)) (mFaces m) adj.
Proof.
  intros Hfresh Hr.
  destruct (need_adjacentfaces_lists m Hfresh Hr) as (adj & Hrun & Hlen & Hadj).
  exists adj. split; [exact Hrun|]. split; [exact Hlen|].
  intros v a Ha k.
  assert (Hv : v < length (mVertices m))
    by (rewrite <- Hlen; by eapply lookup_lt_Some).
  rewrite (Hadj v Hv) in Ha. injection Ha as <-. apply adjacent_from_incident.
Qed.

(** X6.  Called before any adjacency was computed, on a mesh whose faces name
    existing vertices, [need_adjacentfaces] gives every vertex the list of
    the faces that have it as a corner, in increasing face order, a face
    once for every corner that is the vertex: a face is in the list exactly
    if the vertex is one of its corners, the length of the list is the
    number of such corners, and for triangles with distinct corners no face
    is listed twice. *)
Theorem need_adjacentfaces_exact (m : TriMesh) :
  mVAdjFaces m = [] →
  faces_in_range (length (mVertices m)) (mFaces m) →
  ∃ adj,
    need_adjacentfaces m = Some (with_mVAdjFaces m adj)
    ∧ length adj = length (mVertices m)
    ∧ ∀ v, v < length (mVertices m) →
        ∃ a, adj !! v = Some a
             ∧ a = adjacent_from 0 (mFaces m) v
             ∧ (∀ k, In k a ↔ ∃ f, mFaces m !! k = Some f ∧ incident v f)
             ∧ length a = incident_count (mFaces m) v
             ∧ (Forall distinct_corners (mFaces m) → NoDup a).
Proof.
  intros Hfresh Hr.
  destruct (need_adjacentfaces_lists m Hfresh Hr) as (adj & Hrun & Hlen & Hadj).
  exists adj. split_and!; [exact Hrun | exact Hlen |].
  intros v Hv. exists (adjacent_from 0 (mFaces m) v).
  split_and!; [by apply Hadj | reflexivity | apply adjacent_from_incident
              | apply adjacent_from_length | apply adjacent_from_NoDup].
Qed.

Lemma need_adjacentfaces_exact_witness :
  ∃ adj,
    need_adjacentfaces square = Some (with_mVAdjFaces square adj)
    ∧ adj !! 0 = Some [0; 1] ∧ adj !! 1 = Some [0].
Proof.
  destruct (need_adjacentfaces_exact square eq_refl ltac:(repeat constructor))
    as (adj & Hrun & _ & Hadj).
  exists adj. split; [exact Hrun|].
  destruct (Hadj 0 ltac:(simpl; lia)) as (a0 & -> & -> & _).
  destruct (Hadj 1 ltac:(simpl; lia)) as (a1 & -> & -> & _).
  split; reflexivity.
Defined.

Lemma count_adjacent_in_range (nv : nat) (faces : list Face) :
  ∀ num num',
    length num = nv →
    foldlM (λ num f, num ← bump num (fc0 f); num ← bump num (fc1 f);
                     bump num (fc2 f)) num faces = Some num' →
    faces_in_range nv faces.
Proof.
  induction faces as [|f faces IH]; intros num num' Hlen Hrun; [constructor|].
  cbn [foldlM] in Hrun.
  destruct (bump num (fc0 f)) as [n1|] eqn:E1; [|discriminate].
  cbn [mbind option_bind] in Hrun.
  destruct (bump n1 (fc1 f)) as [n2|] eqn:E2; [|discriminate].
  cbn [mbind option_bind] in Hrun.
  destruct (bump n2 (fc2 f)) as [n3|] eqn:E3; [|discriminate].
  cbn [mbind option_bind] in Hrun.
  assert (Hb : ∀ l v l', bump l v = Some l' → v < length l ∧ length l' = length l).
  { intros l v l' Hl. unfold bump in Hl.
    destruct (l !! v) as [c|] eqn:Hc; [|discriminate]. injection Hl as <-.
    split; [by eapply lookup_lt_Some | by rewrite length_insert]. }
  destruct (Hb _ _ _ E1) as [H0 L1]. destruct (Hb _ _ _ E2) as [H1 L2].
  destruct (Hb _ _ _ E3) as [H2 L3].
  constructor; [lia|]. apply (IH n3 num'); [lia | exact Hrun].
Qed.

(** X7.  Bounds: called before any adjacency was computed, [need_adjacentfaces]
    stays inside its arrays exactly when every corner of every face is an
    existing vertex; one face naming a missing vertex makes it index out of
    range. *)
Theorem need_adjacentfaces_in_range_iff (m : TriMesh) :
  mVAdjFaces m = [] →
  (is_Some (need_adjacentfaces m)
   ↔ faces_in_range (length (mVertices m)) (mFaces m)).
Proof.
  intros Hfresh. split.
  - intros [m' Hrun]. unfold need_adjacentfaces in Hrun. rewrite Hfresh in Hrun.
    cbn [is_empty negb] in Hrun. unfold count_adjacent in Hrun.
    destruct (foldlM _ (replicate _ 0) _) as [num|] eqn:E; [|discriminate].
    eapply count_adjacent_in_range; [|exact E]. by rewrite length_replicate.
  - intros Hr. destruct (need_adjacentfaces_ok m Hfresh Hr) as (adj & -> & _).
    by eexists.
Qed.

Lemma need_adjacentfaces_in_range_iff_witness :
  need_adjacentfaces (fresh_mesh 3 [mkFace 0 1 3]) = None.
Proof.
  pose proof (need_adjacentfaces_in_range_iff (fresh_mesh 3 [mkFace 0 1 3])
                eq_refl) as [Hfwd _].
  destruct (need_adjacentfaces (fresh_mesh 3 [mkFace 0 1 3])) as [m'|] eqn:E;
    [|reflexivity].
  exfalso. specialize (Hfwd (ex_intro _ m' eq_refl)).
  apply Forall_cons in Hfwd as [(_ & _ & H2) _]. cbn in H2. lia.
Defined.

(** ** [need_neighbors] *)

Lemma push_unique_In (me : list nat) (n u : nat) :
  In u (push_unique me n) ↔ In u me ∨ u = n.
Proof.
  unfold push_unique. destruct (existsb (Nat.eqb n) me) eqn:E.
  - split; [by left|]. intros [H | ->]; [done|].
    apply existsb_exists in E as (x & Hx & Hnx). apply Nat.eqb_eq in Hnx.
    by subst.
  - rewrite in_app_iff. cbn [In]. split; [intros [?|[->|[]]] | intros [?| ->]];
      auto.
Qed.

Lemma push_unique_NoDup (me : list nat) (n : nat) :
  NoDup me → NoDup (push_unique me n).
Proof.
  intros Hnd. unfold push_unique. destruct (existsb (Nat.eqb n) me) eqn:E;
    [done|].
  apply NoDup_app. split_and!; [done | | apply NoDup_singleton].
  intros x Hx Hx'. apply list_elem_of_singleton in Hx' as ->.
  assert (existsb (Nat.eqb n) me = true); [|congruence].
  apply existsb_exists. exists n. split; [by apply list_elem_of_In|].
  apply Nat.eqb_refl.
Qed.

Lemma shares_face_upto_step (faces : list Face) (n j v u : nat) (f : Face) :
  faces !! n = Some f → j < 3 →
  (shares_face_upto faces n (S j) v u
   ↔ shares_face_upto faces n j v u
     ∨ (corner f j = v
        ∧ (u = corner f ((j + 1) mod 3) ∨ u = corner f ((j + 2) mod 3)))).
Proof.
  intros Hf Hj. split.
  - intros (i & j' & g & Hpos & Hj' & Hg & Hv & Hu).
    destruct (decide (i = n ∧ j' = j)) as [[-> ->] | Hne].
    + right. rewrite Hf in Hg. injection Hg as <-. by split.
    + left. exists i, j', g. split_and!; try done. lia.
  - intros [(i & j' & g & Hpos & Hj' & Hg & Hv & Hu) | [Hv Hu]].
    + exists i, j', g. split_and!; try done. lia.
    + exists n, j, f. split_and!; try done. right. lia.
Qed.

Lemma shares_face_upto_next (faces : list Face) (n v u : nat) :
  shares_face_upto faces n 3 v u ↔ shares_face_upto faces (S n) 0 v u.
Proof.
  split; intros (i & j & f & Hpos & Hj & Hrest); exists i, j, f;
    (split; [lia | by split]).
Qed.

Lemma shares_face_upto_all (faces : list Face) (v u : nat) :
  shares_face_upto faces (length faces) 0 v u ↔ shares_face faces v u.
Proof.
  split.
  - intros (i & j & f & _ & Hrest). by exists i, j, f.
  - intros (i & j & f & Hj & Hf & Hrest). exists i, j, f.
    split_and!; [left; by eapply lookup_lt_Some | done | done | apply Hrest..].
Qed.

Lemma shares_face_sym (faces : list Face) (v u : nat) :
  shares_face faces v u → shares_face faces u v.
Proof.
  intros (i & j & f & Hj & Hf & Hv & Hu).
  destruct j as [|[|[|j]]]; [| | |lia]; cbn in Hv, Hu; destruct Hu as [-> | ->].
  - exists i, 1, f. split_and!; [lia | done | done | right; exact (eq_sym Hv)].
  - exists i, 2, f. split_and!; [lia | done | done | left; exact (eq_sym Hv)].
  - exists i, 2, f. split_and!; [lia | done | done | right; exact (eq_sym Hv)].
  - exists i, 0, f. split_and!; [lia | done | done | left; exact (eq_sym Hv)].
  - exists i, 0, f. split_and!; [lia | done | done | right; exact (eq_sym Hv)].
  - exists i, 1, f. split_and!; [lia | done | done | left; exact (eq_sym Hv)].
Qed.

Lemma neighbors_step_ok (nv : nat) (faces : list Face) (n j : nat)
    (nb : list (list nat)) :
  faces_in_range nv faces → n < length faces → j < 3 →
  (length nb = nv
   ∧ ∀ v me, nb !! v = Some me →
       NoDup me ∧ ∀ u, In u me ↔ shares_face_upto faces n j v u) →
  ∃ nb',
    neighbors_step faces n nb j = Some nb'
    ∧ length nb' = nv
    ∧ ∀ v me, nb' !! v = Some me →
        NoDup me ∧ ∀ u, In u me ↔ shares_face_upto faces n (S j) v u.
Proof.
  intros Hr Hn Hj [Hlen Hinv]. unfold neighbors_step.
  destruct (lookup_lt_is_Some_2 faces n Hn) as [f Hf]. rewrite Hf.
  cbn [mbind option_bind].
  pose proof (faces_in_range_lookup nv faces n f Hr Hf) as Hfr.
  destruct (lookup_lt_is_Some_2 nb (corner f j)) as [me0 Hme0];
    [rewrite Hlen; by apply corner_lt|].
  rewrite Hme0. cbn [mbind option_bind].
  eexists; split_and!; [reflexivity | by rewrite length_insert |].
  intros v me Hme. destruct (decide (corner f j = v)) as [Hv | Hv].
  - subst v.
    rewrite list_lookup_insert_eq in Hme by (by eapply lookup_lt_Some).
    injection Hme as <-. destruct (Hinv _ _ Hme0) as [Hnd Hin]. split.
    + by do 2 apply push_unique_NoDup.
    + intros u. rewrite !push_unique_In, Hin,
        (shares_face_upto_step faces n j _ u f Hf Hj). tauto.
  - rewrite list_lookup_insert_ne in Hme by done.
    destruct (Hinv _ _ Hme) as [Hnd Hin]. split; [done|].
    intros u. rewrite Hin, (shares_face_upto_step faces n j v u f Hf Hj). tauto.
Qed.

(** X8.  On a mesh whose faces name existing vertices, [need_neighbors] (called
    with no neighbours computed yet) completes and gives every vertex a
    list without repetition of exactly the vertices that share a face with
    it; the relation is symmetric (each of them lists the vertex in turn),
    and with distinct corners in every face no vertex lists itself. *)
Theorem need_neighbors_spec (m : TriMesh) :
  faces_in_range (length (mVertices m)) (mFaces m) →
  ∃ nb,
    need_neighbors m [] = Some nb
    ∧ length nb = length (mVertices m)
    ∧ ∀ v me, nb !! v = Some me →
        NoDup me
        ∧ (∀ u, In u me ↔ shares_face (mFaces m) v u)
        ∧ (∀ u, In u me → ∃ me', nb !! u = Some me' ∧ In v me')
        ∧ (Forall distinct_corners (mFaces m) → ¬ In v me).
Proof.
  intros Hr. unfold need_neighbors. cbn [is_empty negb].
  destruct (count_adjacent_ok _ _ Hr) as [num ->]. cbn [mbind option_bind].
  set (nv := length (mVertices m)) in *. set (faces := mFaces m) in *.
  destruct (foldlM_seq_inv
              (λ k (nb : list (list nat)),
                 length nb = nv
                 ∧ ∀ v me, nb !! v = Some me →
                     NoDup me ∧ ∀ u, In u me ↔ shares_face_upto faces k 0 v u)
              (λ nb i, foldlM (neighbors_step faces i) nb [0; 1; 2])
              (length faces))
    with (s := replicate nv (@nil nat)) as (nb & -> & Hlen & Hinv).
  - intros k nb Hk Hnb.
    destruct (foldlM_seq_inv
                (λ j (nb : list (list nat)),
                   length nb = nv
                   ∧ ∀ v me, nb !! v = Some me →
                       NoDup me
                       ∧ ∀ u, In u me ↔ shares_face_upto faces k j v u)
                (neighbors_step faces k) 3) with (s := nb)
      as (nb' & E & Hlen' & Hinv'); [|exact Hnb|].
    + intros j s Hj Hs.
      destruct (neighbors_step_ok nv faces k j s Hr Hk Hj Hs) as (s' & ? & ? & ?).
      by exists s'.
    + exists nb'. split; [exact E|]. split; [exact Hlen'|].
      intros v me Hme. destruct (Hinv' v me Hme) as [Hnd Hin].
      split; [done|]. intros u. by rewrite Hin, shares_face_upto_next.
  - split; [by rewrite length_replicate|].
    intros v me Hme. apply lookup_replicate in Hme as [-> _].
    split; [constructor|]. intros u. split; [done|].
    intros (i & j & f & Hpos & _). lia.
  - exists nb. split_and!; [reflexivity | exact Hlen |].
    assert (Hchar : ∀ v me, nb !! v = Some me →
                      ∀ u, In u me ↔ shares_face faces v u).
    { intros v me Hme u. destruct (Hinv v me Hme) as [_ Hin].
      by rewrite Hin, shares_face_upto_all. }
    intros v me Hme. destruct (Hinv v me Hme) as [Hnd _].
    split_and!; [exact Hnd | by apply Hchar | |].
    + intros u Hu. apply (Hchar v me Hme) in Hu.
      assert (Hult : u < nv).
      { destruct Hu as (i & j & f & Hj & Hf & _ & Hu).
        pose proof (faces_in_range_lookup nv faces i f Hr Hf) as Hfr.
        destruct Hu as [-> | ->]; by apply corner_lt. }
      destruct (lookup_lt_is_Some_2 nb u) as [me' Hme']; [lia|].
      exists me'. split; [done|]. apply (Hchar u me' Hme').
      by apply shares_face_sym.
    + intros Hd Hself. apply (Hchar v me Hme) in Hself
        as (i & j & f & Hj & Hf & Hv & Hu).
      rewrite Forall_lookup in Hd. destruct (Hd i f Hf) as (H01 & H12 & H20).
      destruct j as [|[|[|j]]]; [| | |lia]; cbn in Hv, Hu;
        destruct Hu as [Hu | Hu]; congruence.
Qed.

Lemma need_neighbors_spec_witness :
  ∃ nb, need_neighbors square [] = Some nb ∧ length nb = 4.
Proof.
  destruct (need_neighbors_spec square ltac:(repeat constructor))
    as (nb & Hrun & Hlen & _).
  by exists nb.
Defined.

(** ** [need_across_edge] on any mesh *)

Lemma adj_complete_ok (nv : nat) (faces : list Face) (adj : list (list nat)) :
  adj_complete nv faces adj → adj_ok nv faces adj.
Proof.
  intros [Hlen Hadj]. split; [exact Hlen|].
  intros v a k Ha Hk. by apply (Hadj v a Ha k).
Qed.

Lemma vidx_of_distinct (fo : Face) (v1 v2 l : nat) :
  distinct_corners fo → l < 3 →
  corner fo ((l + 1) mod 3) = v2 → corner fo ((l + 2) mod 3) = v1 →
  corner fo ((Z.to_nat ((vidx_of fo v1 + 1) mod 3) + 1) mod 3) = v2.
Proof.
  intros (H01 & H12 & H20) Hl Hv2 Hv1. unfold vidx_of.
  destruct l as [|[|[|l]]]; [| | |lia]; cbn in Hv1, Hv2; subst v1 v2.
  - destruct (Nat.eqb_spec (fc0 fo) (fc2 fo)); [congruence|].
    destruct (Nat.eqb_spec (fc1 fo) (fc2 fo)); [congruence|].
    rewrite Nat.eqb_refl. reflexivity.
  - rewrite Nat.eqb_refl. reflexivity.
  - destruct (Nat.eqb_spec (fc0 fo) (fc1 fo)); [congruence|].
    rewrite Nat.eqb_refl. reflexivity.
Qed.

Lemma find_across_complete (faces : list Face) (a2 : list nat) (i v1 v2 : nat)
    (a1 : list nat) (other l : nat) (fo : Face) :
  (∀ k, In k a1 → ∃ fk, faces !! k = Some fk ∧ In v1 (corners fk)) →
  In other a1 → other ≠ i → In other a2 →
  faces !! other = Some fo → distinct_corners fo → l < 3 →
  corner fo ((l + 1) mod 3) = v2 → corner fo ((l + 2) mod 3) = v1 →
  ∃ r, find_across faces a2 i v1 v2 a1 = Some (Some r).
Proof.
  intros Ha1 Hin Hne Hin2 Hfo Hd Hl Hv2 Hv1.
  induction a1 as [|x rest IH]; [destruct Hin|].
  assert (Hrest : ∀ k, In k rest →
                         ∃ fk, faces !! k = Some fk ∧ In v1 (corners fk))
    by (intros k Hk; apply Ha1; by right).
  cbn [find_across].
  destruct (decide (x = other)) as [-> | Hx].
  - destruct (Nat.eqb_spec other i) as [? | _]; [done|].
    assert (existsb (Nat.eqb other) a2 = true) as ->.
    { apply existsb_exists. exists other. split; [done | apply Nat.eqb_refl]. }
    cbn [negb]. rewrite Hfo. cbn [mbind option_bind].
    rewrite (vidx_of_distinct fo v1 v2 l Hd Hl Hv2 Hv1), Nat.eqb_refl.
    cbn [negb]. by eexists.
  - assert (Hin' : In other rest) by (destruct Hin; [congruence | done]).
    specialize (IH Hrest Hin').
    destruct (x =? i); [exact IH|].
    destruct (existsb _ a2); cbn [negb]; [|exact IH].
    destruct (Ha1 x) as (fx & -> & _); [by left|]. cbn [mbind option_bind].
    destruct (negb _); [exact IH | by eexists].
Qed.

(** One face edge: the entries stay sound, entries that were set stay set,
    and the edge just visited is set if it has a mate. *)
Lemma across_edge_step_general (nv : nat) (faces : list Face)
    (adj : list (list nat)) (A : list Offset3) (i j : nat) :
  faces_in_range nv faces → adj_complete nv faces adj →
  across_sound faces A → i < length faces → j < 3 →
  ∃ A',
    across_edge_step faces adj i A j = Some A'
    ∧ across_sound faces A'
    ∧ (∀ i' j' x, j' < 3 → across_get A i' j' = Some x → x ≠ (-1)%Z →
         ∃ x', across_get A' i' j' = Some x' ∧ x' ≠ (-1)%Z)
    ∧ (Forall distinct_corners faces → has_mate faces i j →
       ∃ x', across_get A' i j = Some x' ∧ x' ≠ (-1)%Z).
Proof.
  intros Hr Hadjc [Hlen Hsound] Hi Hj.
  pose proof (adj_complete_ok _ _ _ Hadjc) as [Hadjlen Hadj].
  unfold across_edge_step.
  destruct (lookup_lt_is_Some_2 A i) as [o Ho]; [lia|].
  assert (Hcur : across_get A i j = Some (oget o j))
    by (unfold across_get; by rewrite Ho).
  rewrite Hcur. cbn [mbind option_bind].
  destruct (Z.eqb_spec (oget o j) (-1)%Z) as [Hm1 | Hset]; cbn [negb].
  2: { exists A. split_and!; [done | by split | eauto | eauto]. }
  destruct (lookup_lt_is_Some_2 faces i Hi) as [f Hf]. rewrite Hf.
  cbn [mbind option_bind].
  pose proof (faces_in_range_lookup nv faces i f Hr Hf) as Hfr.
  set (v1 := corner f ((j + 1) mod 3)). set (v2 := corner f ((j + 2) mod 3)).
  destruct (lookup_lt_is_Some_2 adj v1) as [a1 Ha1];
    [rewrite Hadjlen; by apply corner_lt|].
  destruct (lookup_lt_is_Some_2 adj v2) as [a2 Ha2];
    [rewrite Hadjlen; by apply corner_lt|].
  rewrite Ha1, Ha2. cbn [mbind option_bind].
  assert (Ha1ok : ∀ k, In k a1 → ∃ fk, faces !! k = Some fk ∧ In v1 (corners fk))
    by (intros k Hk; by apply (Hadj v1 a1)).
  destruct (find_across_spec faces a2 i v1 v2 a1 Ha1ok) as (r & Efind & Hres).
  rewrite Efind. cbn [mbind option_bind].
  destruct r as [[other ind]|].
  - destruct Hres as (Hother & Hind & fo & Hfo & Hfo2 & Hfo1).
    assert (Holt : other < length A)
      by (rewrite Hlen; by eapply lookup_lt_Some).
    destruct (across_set_ok A i j (Z.of_nat other)) as (A1 & E1 & L1 & G1);
      [lia | exact Hj |].
    destruct (across_set_ok A1 other ind (Z.of_nat i)) as (A2 & E2 & L2 & G2);
      [lia | exact Hind |].
    rewrite E1. cbn [mbind option_bind]. rewrite E2.
    exists A2. split_and!; [reflexivity | | |].
    + split; [lia|]. intros i' j' x Hj' Hx Hx1.
      rewrite G2, G1 in Hx by done.
      destruct (decide (i' = other ∧ j' = ind)) as [[-> ->] | Hn2].
      { injection Hx as <-. exists i, j. split_and!; [done | done | done |].
        exists fo, f. by split_and!. }
      destruct (decide (i' = i ∧ j' = j)) as [[-> ->] | Hn1].
      { injection Hx as <-. exists other, ind.
        split_and!; [done | done | done |]. exists f, fo. by split_and!. }
      by apply (Hsound i' j' x).
    + intros i' j' x Hj' Hx Hx1. rewrite G2, G1 by done.
      destruct (decide (i' = other ∧ j' = ind)); [eexists; split; [done | lia]|].
      destruct (decide (i' = i ∧ j' = j)); [eexists; split; [done | lia]|].
      by exists x.
    + intros _ _. rewrite G2, G1 by done.
      destruct (decide (i = other ∧ j = ind)); [eexists; split; [done | lia]|].
      destruct (decide (i = i ∧ j = j)); [eexists; split; [done | lia] | tauto].
  - exists A. split_and!; [done | by split | eauto |].
    intros Hd (k & l & Hki & Hl & fi & fk & Hfi & Hfk & Hm1' & Hm2').
    exfalso. rewrite Hf in Hfi. injection Hfi as <-.
    destruct (find_across_complete faces a2 i v1 v2 a1 k l fk) as [r' Hr'];
      try done.
    + destruct Hadjc as [_ Hc]. apply (Hc v1 a1 Ha1 k). exists fk.
      split; [done|]. unfold incident, v1. rewrite <- Hm2'.
      destruct l as [|[|[|l]]]; [| | |lia]; cbn; tauto.
    + destruct Hadjc as [_ Hc]. apply (Hc v2 a2 Ha2 k). exists fk.
      split; [done|]. unfold incident, v2. rewrite <- Hm1'.
      destruct l as [|[|[|l]]]; [| | |lia]; cbn; tauto.
    + rewrite Forall_lookup in Hd. by apply (Hd k fk).
    + congruence.
Qed.

Lemma across_sound_init (faces : list Face) :
  across_sound faces (replicate (length faces) (mkOffset3 (-1) (-1) (-1))).
Proof.
  split; [by rewrite length_replicate|].
  intros i j x Hj Hget Hx. exfalso. apply Hx. unfold across_get in Hget.
  destruct (replicate _ _ !! i) as [o|] eqn:Ho; [|discriminate].
  apply lookup_replicate in Ho as [-> _]. cbn in Hget. injection Hget as <-.
  by destruct j as [|[|j]].
Qed.

(** The three edges of face [i], given that all edges of the faces before
    it have been visited. *)
Lemma across_edge_face_general (nv : nat) (faces : list Face)
    (adj : list (list nat)) (A : list Offset3) (i : nat) :
  faces_in_range nv faces → adj_complete nv faces adj → i < length faces →
  across_sound faces A
  ∧ (Forall distinct_corners faces → across_done faces A i 0) →
  ∃ A',
    foldlM (across_edge_step faces adj i) A [0; 1; 2] = Some A'
    ∧ across_sound faces A'
    ∧ (Forall distinct_corners faces → across_done faces A' (S i) 0).
Proof.
  intros Hr Hadj Hi HA.
  destruct (foldlM_seq_inv
              (λ j A, across_sound faces A
                      ∧ (Forall distinct_corners faces →
                         across_done faces A i j))
              (across_edge_step faces adj i) 3) with (s := A)
    as (A' & E & Hs & Hd); [| exact HA |].
  - intros j A0 Hj [Hs Hd].
    destruct (across_edge_step_general nv faces adj A0 i j Hr Hadj Hs Hi Hj)
      as (A1 & E1 & Hs1 & Hmono & Hnew).
    exists A1. split_and!; [exact E1 | exact Hs1 |].
    intros Hdc i' j' x Hpos Hj' Hmate Hget Hx. subst x.
    destruct (decide (i' = i ∧ j' = j)) as [[-> ->] | Hn].
    + destruct (Hnew Hdc Hmate) as (x' & Hx' & Hne). congruence.
    + destruct Hs as [Hlen _].
      assert (Hi' : i' < length A0) by lia.
      destruct (lookup_lt_is_Some_2 A0 i' Hi') as [o Ho].
      assert (Hold : across_get A0 i' j' = Some (oget o j'))
        by (unfold across_get; by rewrite Ho).
      destruct (Hmono i' j' _ Hj' Hold) as (x' & Hx' & Hne); [|congruence].
      apply (Hd Hdc i' j' _); [lia | done | done | done].
  - exists A'. split_and!; [exact E | exact Hs |].
    intros Hdc i' j' x Hpos Hj' Hmate Hget.
    apply (Hd Hdc i' j' x); [lia | done | done | done].
Qed.

Lemma across_edge_loop_general (nv : nat) (faces : list Face)
    (adj : list (list nat)) :
  faces_in_range nv faces → adj_complete nv faces adj →
  ∃ A,
    across_edge_loop faces adj
      (replicate (length faces) (mkOffset3 (-1) (-1) (-1))) (length faces)
    = Some A
    ∧ across_sound faces A
    ∧ (Forall distinct_corners faces → across_done faces A (length faces) 0).
Proof.
  intros Hr Hadj. unfold across_edge_loop.
  apply (foldlM_seq_inv
           (λ i A, across_sound faces A
                   ∧ (Forall distinct_corners faces →
                      across_done faces A i 0))).
  - intros i A Hi HA. by apply (across_edge_face_general nv).
  - split; [apply across_sound_init|]. intros _ i j x Hpos. lia.
Qed.

Lemma need_across_edge_general (m : TriMesh) :
  mVAdjFaces m = [] → mFAcrossEdge m = [] →
  faces_in_range (length (mVertices m)) (mFaces m) →
  ∃ m',
    need_across_edge m = Some m'
    ∧ mFaces m' = mFaces m ∧ mVertices m' = mVertices m
    ∧ bedges m' = bedges m
    ∧ across_sound (mFaces m) (mFAcrossEdge m')
    ∧ (Forall distinct_corners (mFaces m) →
       across_done (mFaces m) (mFAcrossEdge m') (length (mFaces m)) 0).
Proof.
  intros Hadj0 HA0 Hr. unfold need_across_edge. rewrite HA0.
  cbn [is_empty negb].
  destruct (need_adjacentfaces_complete m Hadj0 Hr) as (adj & -> & Hadj).
  cbn [mbind option_bind].
  cbn [with_mVAdjFaces mVAdjFaces mFaces].
  destruct (is_empty adj) eqn:Eadj.
  - eexists. split_and!; [reflexivity | reflexivity | reflexivity
                         | reflexivity | |];
      cbn [with_mVAdjFaces mFAcrossEdge]; rewrite HA0.
    + destruct Hadj as [Hlen _].
      destruct adj; [|discriminate]. cbn in Hlen.
      destruct (mFaces m) as [|f fs];
        [|apply Forall_cons in Hr as [[Hc _] _]; lia].
      split; [reflexivity|]. intros i j x _ Hget. discriminate Hget.
    + intros _ i j x _ _ _ Hget. discriminate Hget.
  - destruct (across_edge_loop_general _ _ adj Hr Hadj) as (A & -> & Hs & Hd).
    cbn [mbind option_bind]. eexists.
    split_and!; [reflexivity | reflexivity | reflexivity | reflexivity
                | exact Hs | exact Hd].
Qed.

(** X9 ([need_across_edge], soundness on any mesh).  On a mesh whose
    caches are empty and whose faces index existing vertices,
    [need_across_edge] completes, leaves faces and vertices as they are
    and fills one row of three entries per face; every entry is either
    the sentinel [-1] or the index of a different face that contains the
    same edge in the opposite direction.  No assumption on the winding or
    on the number of faces at an edge is needed. *)
Theorem need_across_edge_sound (m : TriMesh) :
  mVAdjFaces m = [] → mFAcrossEdge m = [] →
  faces_in_range (length (mVertices m)) (mFaces m) →
  ∃ m',
    need_across_edge m = Some m'
    ∧ mFaces m' = mFaces m ∧ mVertices m' = mVertices m
    ∧ length (mFAcrossEdge m') = length (mFaces m)
    ∧ ∀ i j, i < length (mFaces m) → j < 3 →
        ∃ x, across_get (mFAcrossEdge m') i j = Some x
             ∧ (x = (-1)%Z
                ∨ ∃ k l, x = Z.of_nat k ∧ k ≠ i ∧ l < 3
                         ∧ mate (mFaces m) i j k l).
Proof.
  intros Hadj0 HA0 Hr.
  destruct (need_across_edge_general m Hadj0 HA0 Hr)
    as (m' & Hrun & Hf & Hv & _ & [Hlen Hsound] & _).
  exists m'. split_and!; [exact Hrun | exact Hf | exact Hv | exact Hlen |].
  intros i j Hi Hj.
  destruct (lookup_lt_is_Some_2 (mFAcrossEdge m') i) as [o Ho]; [lia|].
  exists (oget o j).
  assert (Hget : across_get (mFAcrossEdge m') i j = Some (oget o j))
    by (unfold across_get; by rewrite Ho).
  split; [exact Hget|].
  destruct (decide (oget o j = (-1)%Z)) as [? | Hx]; [by left | right].
  by apply (Hsound i j).
Qed.

Lemma need_across_edge_sound_witness :
  ∃ m',
    need_across_edge three_on_an_edge = Some m'
    ∧ mFaces m' = mFaces three_on_an_edge
    ∧ mVertices m' = mVertices three_on_an_edge
    ∧ length (mFAcrossEdge m') = length (mFaces three_on_an_edge)
    ∧ ∀ i j, i < length (mFaces three_on_an_edge) → j < 3 →
        ∃ x, across_get (mFAcrossEdge m') i j = Some x
             ∧ (x = (-1)%Z
                ∨ ∃ k l, x = Z.of_nat k ∧ k ≠ i ∧ l < 3
                         ∧ mate (mFaces three_on_an_edge) i j k l).
Proof.
  apply (need_across_edge_sound three_on_an_edge).
  - reflexivity.
  - reflexivity.
  - repeat constructor.
Defined.

(** X10 ([need_across_edge], the sentinel marks exactly the unmatched
    edges).  If in addition every face has three distinct corners, the
    entry of a face edge is [-1] after [need_across_edge] exactly if no
    other face contains that edge in the opposite direction. *)
Theorem need_across_edge_sentinel_iff (m : TriMesh) :
  mVAdjFaces m = [] → mFAcrossEdge m = [] →
  faces_in_range (length (mVertices m)) (mFaces m) →
  Forall distinct_corners (mFaces m) →
  ∃ m',
    need_across_edge m = Some m'
    ∧ ∀ i j, i < length (mFaces m) → j < 3 →
        (across_get (mFAcrossEdge m') i j = Some (-1)%Z
         ↔ ¬ has_mate (mFaces m) i j).
Proof.
  intros Hadj0 HA0 Hr Hdc.
  destruct (need_across_edge_general m Hadj0 HA0 Hr)
    as (m' & Hrun & _ & _ & _ & [Hlen Hsound] & Hdone).
  exists m'. split; [exact Hrun|]. intros i j Hi Hj.
  specialize (Hdone Hdc). split.
  - intros Hget Hmate.
    by apply (Hdone i j (-1)%Z ltac:(lia) Hj Hmate Hget).
  - intros Hno.
    destruct (lookup_lt_is_Some_2 (mFAcrossEdge m') i) as [o Ho]; [lia|].
    assert (Hget : across_get (mFAcrossEdge m') i j = Some (oget o j))
      by (unfold across_get; by rewrite Ho).
    rewrite Hget. f_equal.
    destruct (decide (oget o j = (-1)%Z)) as [? | Hx]; [done|].
    exfalso. apply Hno.
    destruct (Hsound i j _ Hj Hget Hx) as (k & l & _ & Hk & Hl & Hm).
    by exists k, l.
Qed.

Lemma need_across_edge_sentinel_iff_witness :
  ∃ m',
    need_across_edge square = Some m'
    ∧ ∀ i j, i < length (mFaces square) → j < 3 →
        (across_get (mFAcrossEdge m') i j = Some (-1)%Z
         ↔ ¬ has_mate (mFaces square) i j).
Proof.
  apply (need_across_edge_sentinel_iff square).
  - reflexivity.
  - reflexivity.
  - repeat constructor.
  - repeat constructor; cbn; lia.
Defined.

(** ** [need_boundary] on meshes with a boundary *)

Lemma repeat_nat_inv {S : Type} (P : nat → S → Prop) (Q : S → Prop)
    (body : S → option (ctl S)) (n : nat) :
  (∀ k s, k < n → P k s →
     (∃ s', body s = Some (Next s') ∧ P (Datatypes.S k) s')
     ∨ (∃ s', body s = Some (Break s') ∧ Q s')) →
  ∀ s, P 0 s →
    ∃ r, repeat_nat body n s = Some r
         ∧ match r with Next s' => P n s' | Break s' => Q s' end.
Proof.
  intros Hbody.
  assert (Hgen : ∀ cnt start s, start + cnt = n → P start s →
            ∃ r, repeat_nat body cnt s = Some r
                 ∧ match r with Next s' => P n s' | Break s' => Q s' end).
  { induction cnt as [|cnt IH]; intros start s Hn Hs.
    - exists (Next s). split; [reflexivity|]. by replace n with start by lia.
    - cbn [repeat_nat].
      destruct (Hbody start s ltac:(lia) Hs)
        as [(s' & -> & Hs') | (s' & -> & Hs')].
      + apply (IH (Datatypes.S start)); [lia | exact Hs'].
      + exists (Break s'). by split. }
  intros s Hs. by apply (Hgen n 0).
Qed.

Lemma delete_insert_same {A : Type} (l : list A) (i : nat) (x : A) :
  delete i (<[i := x]> l) = delete i l.
Proof.
  revert i. induction l as [|a l IH]; intros [|i]; cbn; [done.. |].
  f_equal. apply IH.
Qed.

Lemma insert_Permutation_cons {A : Type} (l : list A) (i : nat) (x y : A) :
  l !! i = Some y → x :: l ≡ₚ y :: <[i := x]> l.
Proof.
  intros Hy.
  assert (Hi : i < length l) by (by eapply lookup_lt_Some).
  pose proof (delete_Permutation (<[i := x]> l) i x
                (list_lookup_insert_eq l i x Hi)) as Hins.
  rewrite delete_insert_same in Hins.
  transitivity (x :: y :: delete i l).
  - apply Permutation_cons; [reflexivity|]. by apply delete_Permutation.
  - transitivity (y :: x :: delete i l); [apply Permutation_swap|].
    apply Permutation_cons; [reflexivity|]. by symmetry.
Qed.

(** Exchanging two elements of a list is a rearrangement. *)
Lemma swap_Permutation {A : Type} (l : list A) (i j : nat) (x y : A) :
  l !! i = Some x → l !! j = Some y →
  <[j := x]> (<[i := y]> l) ≡ₚ l.
Proof.
  revert i j. induction l as [|a l IH]; intros i j Hx Hy; [done|].
  destruct i as [|i], j as [|j]; cbn in *.
  - by injection Hx as ->.
  - injection Hx as ->. symmetry. by apply insert_Permutation_cons.
  - injection Hy as ->. symmetry. by apply insert_Permutation_cons.
  - apply Permutation_cons; [reflexivity|]. by apply IH.
Qed.

Lemma scan_from_spec (be : list Edge) (bidx : nat) (e : Edge) :
  be !! bidx = Some e →
  ∀ n jidx, jidx + n = length be →
    ∃ r, scan_from be bidx jidx n = Some r
         ∧ match r with
           | Some j => jidx ≤ j
                       ∧ ∃ ej, be !! j = Some ej ∧ ej.1 = e.2
           | None => ∀ j ej, jidx ≤ j → be !! j = Some ej → ej.1 ≠ e.2
           end.
Proof.
  intros He. induction n as [|n IH]; intros jidx Hn.
  - exists None. split; [reflexivity|]. intros j ej Hj Hej.
    apply lookup_lt_Some in Hej. unfold Edge in *. lia.
  - cbn [scan_from].
    unfold Edge in *.
    destruct (be !! jidx) as [ej|] eqn:Hej;
      [|apply lookup_ge_None in Hej; lia].
    rewrite He. cbn [mbind option_bind].
    destruct (Nat.eqb_spec ej.1 e.2) as [Heq | Hne].
    + exists (Some jidx). split; [reflexivity|]. split; [lia|]. by exists ej.
    + destruct (IH (Datatypes.S jidx) ltac:(lia)) as (r & -> & Hr).
      exists r. split; [reflexivity|].
      destruct r as [j|].
      * destruct Hr as [Hj Hr]. split; [lia | exact Hr].
      * intros j ej' Hj Hej'.
        destruct (decide (j = jidx)) as [-> | Hjn]; [congruence|].
        apply (Hr j ej'); [lia | done].
Qed.

Lemma swap_lookup {A : Type} (l : list A) (i j p : nat) (x y : A) :
  l !! i = Some x → l !! j = Some y →
  <[j := x]> (<[i := y]> l) !! p
  = if decide (p = j) then Some x
    else if decide (p = i) then Some y else l !! p.
Proof.
  intros Hx Hy.
  assert (Hi : i < length l) by (by eapply lookup_lt_Some).
  assert (Hj : j < length l) by (by eapply lookup_lt_Some).
  rewrite !list_lookup_insert, length_insert.
  repeat case_decide; try done; try lia; tauto.
Qed.

(** Exchanging two later edges keeps what holds of the earlier ones. *)
Lemma swap_keeps_prefix (be : list Edge) (i j k : nat) (x y : Edge) :
  be !! i = Some x → be !! j = Some y → k < i → k < j →
  ∀ b, b < k →
    follows be b ∨ (closes be b ∧ no_successor be b) →
    follows (<[j := x]> (<[i := y]> be)) b
    ∨ (closes (<[j := x]> (<[i := y]> be)) b
       ∧ no_successor (<[j := x]> (<[i := y]> be)) b).
Proof.
  intros Hx Hy Hki Hkj b Hb. unfold follows, closes, no_successor, Edge in *.
  assert (Hsame : ∀ p, p ≤ k → <[j := x]> (<[i := y]> be) !! p = be !! p).
  { intros p Hp. rewrite (swap_lookup be i j p x y Hx Hy).
    repeat case_decide; (lia || done). }
  intros [(e & e' & He & He' & Hee) | [(e & e0 & He & He0 & Hee) (e1 & He1 & Hns)]].
  - left. exists e, e'. rewrite !Hsame by lia. done.
  - right. split.
    + exists e, e0. rewrite !Hsame by lia. done.
    + exists e1. rewrite Hsame by lia. split; [done|].
      intros p e' Hp. rewrite (swap_lookup be i j p x y Hx Hy).
      repeat case_decide; intros Hl.
      * injection Hl as <-. by apply (Hns i x ltac:(lia)).
      * injection Hl as <-. by apply (Hns j y ltac:(lia)).
      * by apply (Hns p e').
Qed.

Lemma orient_step_ok (be0 : list Edge) (k : nat) (s : list Edge * nat) :
  k + 1 < length be0 → orient_inv be0 k s →
  (∃ s', orient_step (length be0) s = Some (Next s')
         ∧ orient_inv be0 (S k) s')
  ∨ (∃ s', orient_step (length be0) s = Some (Break s')
           ∧ orient_stuck be0 s').
Proof.
  destruct s as [be bidx]. intros Hk (Hidx & Hperm & Hfirst & Hpre).
  cbn [fst snd] in *. subst bidx.
  pose proof (Permutation_length Hperm) as Hlen.
  unfold orient_step. unfold Edge in *.
  destruct (be !! k) as [e|] eqn:He;
    [|apply lookup_ge_None in He; lia].
  destruct (be !! (k + 1)) as [x|] eqn:Hx;
    [|apply lookup_ge_None in Hx; lia].
  destruct (be !! 0) as [e0|] eqn:He0;
    [|apply lookup_ge_None in He0; lia].
  destruct (scan_from_spec be k e He (length be0 - (k + 1)) (k + 1))
    as (r & Hscan & Hr); [unfold Edge in *; lia|].
  unfold Edge in *. rewrite Hscan. cbn [mbind option_bind].
  destruct r as [j|].
  - destruct Hr as (Hj & ej & Hej & Hjoin). rewrite Hej.
    cbn [mbind option_bind]. left. eexists. split; [reflexivity|].
    split_and!; cbn [fst snd]; unfold Edge in *.
    + lia.
    + rewrite <- Hperm. by apply swap_Permutation.
    + rewrite (swap_lookup be (k + 1) j 0 x ej Hx Hej), <- Hfirst.
      repeat case_decide; (lia || done).
    + intros b Hb. destruct (decide (b = k)) as [-> | Hbk].
      * left. unfold follows, Edge in *. exists e, ej.
        rewrite !(swap_lookup be (k + 1) j _ x ej Hx Hej).
        split_and!; [repeat case_decide; (lia || done) | | exact Hjoin].
        repeat case_decide; try done. subst j. congruence.
      * apply (swap_keeps_prefix be (k + 1) j k x ej Hx Hej); try lia.
        apply Hpre. lia.
  - destruct (Nat.eqb_spec e.2 e0.1) as [Hclose | Hopen].
    + left. eexists. split; [reflexivity|].
      split_and!; cbn [fst snd]; [lia | done | exact (eq_trans He0 Hfirst) |].
      intros b Hb. destruct (decide (b = k)) as [-> | Hbk];
        [|apply Hpre; lia].
      right. split; [by exists e, e0|]. exists e. split; [done|].
      intros j ej Hj Hej. apply (Hr j ej); [lia | done].
    + right. eexists. split; [reflexivity|].
      split_and!; cbn [fst snd];
        [exact Hk | done | exact (eq_trans He0 Hfirst) | done | |].
      * exists e. split; [done|]. intros j ej Hj Hej.
        apply (Hr j ej); [lia | done].
      * intros (e' & e0' & He' & He0' & Hc). unfold Edge in *.
        rewrite He in He'. rewrite He0 in He0'.
        injection He' as <-. injection He0' as <-. done.
Qed.

Lemma size_t_pred_small (n : nat) :
  0 < n → (Z.of_nat n ≤ 2 ^ 64)%Z → N.to_nat (size_t_pred n) = n - 1.
Proof.
  intros Hn Hmax. unfold size_t_pred.
  rewrite Z.mod_small by lia. lia.
Qed.

Lemma orient_boundary_loop (be : list Edge) :
  be ≠ [] → (Z.of_nat (length be) ≤ 2 ^ 64)%Z →
  ∃ r,
    repeat_N (orient_step (length be)) (size_t_pred (length be)) (be, 0)
    = Some r
    ∧ match r with
      | Next s => orient_inv be (length be - 1) s
      | Break s => orient_stuck be s
      end.
Proof.
  intros Hne Hmax.
  assert (Hpos : 0 < length be) by (destruct be; [done | cbn; lia]).
  rewrite repeat_N_nat, size_t_pred_small by done.
  apply (repeat_nat_inv (orient_inv be) (orient_stuck be)).
  - intros k s Hk Hinv. apply orient_step_ok; [lia | exact Hinv].
  - split_and!; cbn [fst snd]; [done | done | done | intros b Hb; lia].
Qed.

(** X11 (the reordering pass of [need_boundary]).  On a non-empty list of
    edges that fits a [size_t] index the pass completes and returns a
    rearrangement of the edges with the first edge left in place.  There is
    a position [stop] such that every edge before it is either followed by
    an edge that starts where it ends, or ends where the first edge starts
    and has no later edge to continue it.  If [stop] is not the last
    position, the pass gave up there: no later edge continues edge [stop]
    and it does not close the chain. *)
Theorem orient_boundary_spec (be : list Edge) :
  be ≠ [] → (Z.of_nat (length be) ≤ 2 ^ 64)%Z →
  ∃ be' stop,
    orient_boundary be = Some be'
    ∧ be' ≡ₚ be ∧ be' !! 0 = be !! 0
    ∧ stop < length be
    ∧ (∀ b, b < stop →
         follows be' b ∨ (closes be' b ∧ no_successor be' b))
    ∧ (stop + 1 < length be →
       no_successor be' stop ∧ ¬ closes be' stop).
Proof.
  intros Hne Hmax.
  assert (Hpos : 0 < length be) by (destruct be; [done | cbn; lia]).
  unfold orient_boundary.
  destruct (orient_boundary_loop be Hne Hmax) as (r & -> & Hr).
  cbn [mbind option_bind]. destruct r as [[be' bidx] | [be' bidx]];
    cbn [ctl_state fst snd].
  - destruct Hr as (Hidx & Hperm & Hfirst & Hpre). cbn [fst snd] in *.
    exists be', (length be - 1).
    split_and!; [done | done | done | lia | exact Hpre | intros; lia].
  - destruct Hr as (Hidx & Hperm & Hfirst & Hpre & Hns & Hnc).
    cbn [fst snd] in *. exists be', bidx.
    split_and!; [done | done | done | lia | exact Hpre | by intros _].
Qed.

Lemma orient_boundary_spec_witness :
  ∃ be' stop,
    orient_boundary [(1, 2); (3, 0); (2, 3); (0, 1)] = Some be'
    ∧ be' ≡ₚ [(1, 2); (3, 0); (2, 3); (0, 1)]
    ∧ be' !! 0 = [(1, 2); (3, 0); (2, 3); (0, 1)] !! 0
    ∧ stop < length [(1, 2); (3, 0); (2, 3); (0, 1)]
    ∧ (∀ b, b < stop →
         follows be' b ∨ (closes be' b ∧ no_successor be' b))
    ∧ (stop + 1 < length [(1, 2); (3, 0); (2, 3); (0, 1)] →
       no_successor be' stop ∧ ¬ closes be' stop).
Proof.
  apply (orient_boundary_spec [(1, 2); (3, 0); (2, 3); (0, 1)]).
  - discriminate.
  - cbn. lia.
Defined.

Lemma boundary_step_ok (faces : list Face) (A : list Offset3) (i j : nat)
    (be : list Edge) :
  length A = length faces → i < length faces → j < 3 →
  collected faces A i j be →
  ∃ be', boundary_step faces A i be j = Some be'
         ∧ collected faces A i (S j) be'.
Proof.
  intros Hlen Hi Hj [Hsize Hin]. unfold boundary_step.
  destruct (lookup_lt_is_Some_2 A i) as [o Ho]; [lia|].
  destruct (lookup_lt_is_Some_2 faces i Hi) as [f Hf].
  assert (Hget : across_get A i j = Some (oget o j))
    by (unfold across_get; by rewrite Ho).
  rewrite Hget. cbn [mbind option_bind].
  destruct (Z.eqb_spec (oget o j) (-1)%Z) as [Hx | Hx].
  - rewrite Hf. cbn [mbind option_bind]. eexists. split; [reflexivity|].
    split; [rewrite length_app; cbn; lia|].
    intros e. rewrite in_app_iff, Hin. cbn [In]. split.
    + intros [(i' & j' & f' & Hpos & Hrest) | [<- | []]].
      * exists i', j', f'. split; [lia | exact Hrest].
      * exists i, j, f. split_and!; [lia | done | done | congruence | done].
    + intros (i' & j' & f' & Hpos & Hf' & Hj' & Hget' & ->).
      destruct (decide (i' = i ∧ j' = j)) as [[-> ->] | Hn].
      * right. left. congruence.
      * left. exists i', j', f'. split_and!; [lia | done..].
  - exists be. split; [reflexivity|]. split; [lia|].
    intros e. rewrite Hin. split.
    + intros (i' & j' & f' & Hpos & Hrest).
      exists i', j', f'. split; [lia | exact Hrest].
    + intros (i' & j' & f' & Hpos & Hf' & Hj' & Hget' & ->).
      destruct (decide (i' = i ∧ j' = j)) as [[-> ->] | Hn]; [congruence|].
      exists i', j', f'. split_and!; [lia | done..].
Qed.

Lemma collect_boundary_ok (faces : list Face) (A : list Offset3) :
  length A = length faces →
  ∃ be, collect_boundary faces A = Some be
        ∧ collected faces A (length faces) 0 be.
Proof.
  intros Hlen. unfold collect_boundary.
  apply (foldlM_seq_inv (λ i be, collected faces A i 0 be)).
  - intros i be Hi Hbe.
    destruct (foldlM_seq_inv (λ j be, collected faces A i j be)
                (boundary_step faces A i) 3) with (s := be)
      as (be' & E & Hsize & Hin); [| exact Hbe |].
    + intros j be1 Hj Hbe1. by apply boundary_step_ok.
    + exists be'. split; [exact E|]. split; [lia|].
      intros e. rewrite Hin. split.
      * intros (i' & j' & f' & Hpos & Hrest).
        exists i', j', f'. split; [|exact Hrest].
        destruct Hrest as (_ & Hj' & _). lia.
      * intros (i' & j' & f' & Hpos & Hf' & Hj' & Hget' & He).
        exists i', j', f'. split_and!; [lia | done..].
  - split; [cbn; lia|]. intros e. split; [intros []|].
    intros (i & j & f & Hpos & _). lia.
Qed.

Lemma orient_boundary_perm (be : list Edge) :
  be ≠ [] → (Z.of_nat (length be) ≤ 2 ^ 64)%Z →
  ∃ be', orient_boundary be = Some be' ∧ be' ≡ₚ be.
Proof.
  intros Hne Hmax. unfold orient_boundary.
  destruct (orient_boundary_loop be Hne Hmax) as (r & -> & Hr).
  cbn [mbind option_bind]. destruct r as [s | s]; cbn [ctl_state].
  - exists s.1. split; [reflexivity|]. by destruct Hr as (_ & Hperm & _).
  - exists s.1. split; [reflexivity|]. by destruct Hr as (_ & Hperm & _).
Qed.

(** X12 ([need_boundary], result on open and closed meshes).  On a mesh
    with empty caches whose faces index existing vertices and have three
    distinct corners each (and whose edge list fits a [size_t] index):
    if some face edge has no oppositely directed copy in another face,
    [need_boundary] completes, stores what it returns, leaves the faces
    as they are, and returns exactly those unmatched face edges, each as
    the pair of its end points in the direction of its face; if every face
    edge is matched, or there are no faces, the call does not complete. *)
Theorem need_boundary_unmatched (m : TriMesh) :
  bedges m = [] → mVAdjFaces m = [] → mFAcrossEdge m = [] →
  faces_in_range (length (mVertices m)) (mFaces m) →
  Forall distinct_corners (mFaces m) →
  (3 * Z.of_nat (length (mFaces m)) ≤ 2 ^ 64)%Z →
  ((∃ e, unmatched_edge (mFaces m) e) →
   ∃ m' be,
     need_boundary m = Some (m', be)
     ∧ bedges m' = be ∧ mFaces m' = mFaces m ∧ mVertices m' = mVertices m
     ∧ ∀ e, In e be ↔ unmatched_edge (mFaces m) e)
  ∧ ((∀ e, ¬ unmatched_edge (mFaces m) e) → need_boundary m = None).
Proof.
  intros Hb0 Hadj0 HA0 Hr Hdc Hmax.
  destruct (need_across_edge_general m Hadj0 HA0 Hr)
    as (m1 & Hrun & Hf & Hv & _ & [Hlen Hsound] & Hdone).
  specialize (Hdone Hdc).
  destruct (collect_boundary_ok (mFaces m) (mFAcrossEdge m1) Hlen)
    as (be & Hcollect & Hsize & Hin).
  assert (Hchar : ∀ e, In e be ↔ unmatched_edge (mFaces m) e).
  { intros e. rewrite Hin. split.
    - intros (i & j & f & _ & Hfi & Hj & Hget & ->).
      exists i, j, f. split_and!; [done | done | | done].
      intros Hmate. apply lookup_lt_Some in Hfi.
      by apply (Hdone i j (-1)%Z ltac:(lia) Hj Hmate Hget).
    - intros (i & j & f & Hfi & Hj & Hno & ->).
      exists i, j, f. pose proof (lookup_lt_Some _ _ _ Hfi) as Hi.
      split_and!; [lia | done | done | | done].
      destruct (lookup_lt_is_Some_2 (mFAcrossEdge m1) i) as [o Ho]; [lia|].
      assert (Hget : across_get (mFAcrossEdge m1) i j = Some (oget o j))
        by (unfold across_get; by rewrite Ho).
      rewrite Hget. f_equal.
      destruct (decide (oget o j = (-1)%Z)) as [? | Hx]; [done|].
      exfalso. apply Hno.
      destruct (Hsound i j _ Hj Hget Hx) as (k & l & _ & Hk & Hl & Hm).
      by exists k, l. }
  unfold need_boundary. rewrite Hb0. cbn [is_empty]. rewrite Hrun.
  cbn [mbind option_bind]. rewrite Hf, Hcollect. cbn [mbind option_bind].
  split.
  - intros [e He].
    assert (Hne : be ≠ []).
    { intros ->. by apply (Hchar e) in He. }
    destruct (orient_boundary_perm be Hne) as (be' & -> & Hperm);
      [unfold Edge in *; lia|].
    cbn [mbind option_bind]. exists (with_bedges m1 be'), be'.
    split_and!; [reflexivity | reflexivity | exact Hf | exact Hv |].
    intros e'. rewrite <- Hchar. split; apply Permutation_in; [done|].
    by symmetry.
  - intros Hnone. destruct be as [|e be]; [reflexivity|].
    exfalso. apply (Hnone e), Hchar. by left.
Qed.

Lemma need_boundary_unmatched_witness :
  ∃ m' be,
    need_boundary square = Some (m', be)
    ∧ bedges m' = be ∧ mFaces m' = mFaces square
    ∧ mVertices m' = mVertices square
    ∧ ∀ e, In e be ↔ unmatched_edge (mFaces square) e.
Proof.
  refine (proj1 (need_boundary_unmatched square eq_refl eq_refl eq_refl
                   _ _ _) _).
  - repeat constructor.
  - repeat constructor; cbn; lia.
  - cbn. lia.
  - exists (1, 2), 0, 0, (mkFace 0 1 2).
    split_and!; [reflexivity | lia | | reflexivity].
    intros (k & l & Hk & Hl & fi & fk & Hfi & Hfk & H1 & H2).
    destruct k as [|[|k]]; cbn in Hfi, Hfk; [done | | discriminate Hfk].
    injection Hfi as <-. injection Hfk as <-.
    destruct l as [|[|[|l]]]; cbn in H1, H2; [discriminate .. | lia].
Defined.

(** ** Periodic meshes: classification of the faces and the duplicates *)

Lemma num_orig_le (dt : Delaunay) (df : DFace) : num_orig dt df ≤ 3.
Proof.
  unfold num_orig. cbn [List.filter].
  repeat (destruct (zero_offset _)); cbn; lia.
Qed.

Lemma unwrap_corner_in_range (dt : Delaunay) (nOrig : nat) (df : DFace)
    (s : Face * list dupMap * gmap Vertex_handle nat) (vid : nat) :
  info dt (vertex df vid) < nOrig →
  dups_in_range nOrig s.1.2 →
  dups_in_range nOrig (unwrap_corner dt nOrig df s vid).1.2.
Proof.
  destruct s as [[face dups] dh]. intros Hinfo Hdups. unfold unwrap_corner.
  destruct (zero_offset _); [exact Hdups|].
  destruct (dh !! vertex df vid); cbn [fst snd]; [exact Hdups|].
  apply Forall_app. split; [exact Hdups|]. by repeat constructor.
Qed.

Lemma unwrap_face_classified (dt : Delaunay) (nOrig : nat) (s : Unwrap)
    (df : DFace) :
  (∀ vid, vid < 3 → info dt (vertex df vid) < nOrig) →
  dups_in_range nOrig (uDuplicates s) →
  classified dt nOrig [df] s (unwrap_face dt nOrig s df).
Proof.
  intros Hinfo Hdups. unfold classified, unwrap_face, inside, straddles.
  fold (num_orig dt df). cbn [List.filter].
  pose proof (num_orig_le dt df) as Hle.
  destruct (Nat.eqb_spec (num_orig dt df) 0) as [H0 | H0].
  { rewrite H0. cbn. rewrite !app_nil_r. split_and!; (done || lia). }
  destruct (Nat.eqb_spec (num_orig dt df) 3) as [H3 | H3]; cbn [negb andb].
  { cbn. rewrite !app_nil_r. split_and!; (done || lia). }
  pose proof (unwrap_corner_in_range dt nOrig df) as Hstep.
  cbn [fold_left].
  set (s0 := (face_of dt df, uDuplicates s, duplicateHandles s)).
  fold (face_of dt df). fold s0.
  assert (H1 : dups_in_range nOrig (unwrap_corner dt nOrig df s0 0).1.2)
    by (apply Hstep; [apply Hinfo; lia | exact Hdups]).
  set (s1 := unwrap_corner dt nOrig df s0 0) in *.
  assert (H2 : dups_in_range nOrig (unwrap_corner dt nOrig df s1 1).1.2)
    by (apply Hstep; [apply Hinfo; lia | exact H1]).
  set (s2 := unwrap_corner dt nOrig df s1 1) in *.
  assert (H3' : dups_in_range nOrig (unwrap_corner dt nOrig df s2 2).1.2)
    by (apply Hstep; [apply Hinfo; lia | exact H2]).
  destruct (unwrap_corner dt nOrig df s2 2) as [[face' dups'] dh'].
  cbn [uFaces uPeriodicFaces uTrimmedFaces uDuplicates map fst snd] in *.
  rewrite app_nil_r, length_app. cbn. split_and!; (done || lia).
Qed.

Lemma unwrap_faces_classified (dt : Delaunay) (nOrig : nat)
    (fs : list DFace) :
  (∀ df vid, In df fs → vid < 3 → info dt (vertex df vid) < nOrig) →
  ∀ s, dups_in_range nOrig (uDuplicates s) →
       classified dt nOrig fs s (fold_left (unwrap_face dt nOrig) fs s).
Proof.
  induction fs as [|df fs IH]; intros Hinfo s Hdups.
  - unfold classified. cbn. rewrite !app_nil_r. split_and!; (done || lia).
  - cbn [fold_left].
    destruct (unwrap_face_classified dt nOrig s df) as (F1 & P1 & T1 & D1);
      [intros vid Hvid; apply (Hinfo df vid); [by left | done] | done |].
    destruct (IH (λ d vid Hd, Hinfo d vid (or_intror Hd))
                 (unwrap_face dt nOrig s df) D1) as (F2 & P2 & T2 & D2).
    unfold classified. rewrite F2, P2, T2, F1, P1, T1.
    change (df :: fs) with ([df] ++ fs).
    rewrite !List.filter_app, !map_app, !length_app, <- !app_assoc.
    split_and!; (done || lia).
Qed.

(** [create_duplicate_vertices] touches nothing but the duplicate
    positions. *)
Lemma create_duplicate_vertices_frame (p : TriMeshPeriodic) :
  dups_in_range (length (mVertices (base p))) (mDuplicateVerts_OrigIds p) →
  ∃ dv, create_duplicate_vertices p = Some (with_mDuplicateVerts p dv).
Proof.
  intros Hids. unfold create_duplicate_vertices.
  destruct (_ || _); [exists (mDuplicateVerts p); by destruct p|].
  destruct (mapM_is_Some_2
              (duplicate_vertex (mVertices (base p))
                 (vsub (mBox1 p) (mBox0 p)))
              (mDuplicateVerts_OrigIds p)) as [dv ->].
  - eapply Forall_impl; [exact Hids|]. intros [[orig off1] off2] Hlt.
    cbn in Hlt. cbn [compose duplicate_vertex].
    destruct (lookup_lt_is_Some_2 _ _ Hlt) as [v ->]. by eexists.
  - by eexists.
Qed.

(** X13 ([TriMeshPeriodic::delaunay], what goes where).  If every corner
    of the triangulation carries the index of an input point and the
    duplicate list names existing vertices, the post-processing completes
    and keeps the vertices.  The previous [mFaces] are discarded and
    replaced by the faces with all three corners in the domain, in order.
    The faces with one or two corners in the domain are appended, with
    their original indices, to the periodic faces already stored, and one
    trimmed face is appended for each of them: unlike [mFaces], these two
    lists are not cleared, so a repeated call accumulates.  Faces with no
    corner in the domain are dropped. *)
Theorem delaunay_classifies (p : TriMeshPeriodic) (dt : Delaunay) :
  let nOrig := length (mVertices (base p)) in
  (∀ vh, handle_of dt vh → info dt vh < nOrig) →
  dups_in_range nOrig (mDuplicateVerts_OrigIds p) →
  ∃ p',
    delaunay p dt = Some p'
    ∧ mVertices (base p') = mVertices (base p)
    ∧ mFaces (base p')
      = map (face_of dt) (List.filter (inside dt) (finite_faces dt))
    ∧ mPeriodicFaces p'
      = mPeriodicFaces p
        ++ map (face_of dt) (List.filter (straddles dt) (finite_faces dt))
    ∧ length (mTrimmedFaces p')
      = length (mTrimmedFaces p)
        + length (List.filter (straddles dt) (finite_faces dt)).
Proof.
  intros nOrig Hinfo Hdups. unfold delaunay. fold nOrig.
  set (s0 := mkUnwrap [] (mPeriodicFaces p) (mTrimmedFaces p)
                      (mDuplicateVerts_OrigIds p) ∅).
  destruct (unwrap_faces_classified dt nOrig (finite_faces dt)) with (s := s0)
    as (HF & HP & HT & HD); [| exact Hdups |].
  { intros df vid Hdf Hvid. apply Hinfo. by exists df, vid. }
  set (s := fold_left (unwrap_face dt nOrig) (finite_faces dt) s0) in *.
  set (p1 := mkTriMeshPeriodic _ _ _ _ _ _ _ _).
  destruct (create_duplicate_vertices_frame p1) as [dv ->]; [exact HD|].
  eexists. split; [reflexivity|].
  cbn [with_mDuplicateVerts p1 base mPeriodicFaces mTrimmedFaces with_mFaces
       mVertices mFaces].
  split_and!; [reflexivity | exact HF | exact HP | exact HT].
Qed.

Lemma delaunay_classifies_witness :
  ∃ p',
    delaunay sample_periodic sample_covering = Some p'
    ∧ mVertices (base p') = mVertices (base sample_periodic)
    ∧ mFaces (base p')
      = map (face_of sample_covering)
          (List.filter (inside sample_covering)
             (finite_faces sample_covering))
    ∧ mPeriodicFaces p'
      = mPeriodicFaces sample_periodic
        ++ map (face_of sample_covering)
             (List.filter (straddles sample_covering)
                (finite_faces sample_covering))
    ∧ length (mTrimmedFaces p')
      = length (mTrimmedFaces sample_periodic)
        + length (List.filter (straddles sample_covering)
                    (finite_faces sample_covering)).
Proof.
  apply (delaunay_classifies sample_periodic sample_covering).
  - intros vh Hvh. by apply sample_covering_ok.
  - constructor.
Defined.

Lemma duplicate_vertex_position (verts : list Vertex) (boxw : Vertex)
    (d : dupMap) (dv : Vertex) :
  duplicate_vertex verts boxw d = Some dv →
  ∃ v, verts !! d.1.1 = Some v
       ∧ dv = mkVertex (vx v + IZR d.1.2 * vx boxw)
                       (vy v + IZR d.2 * vy boxw) (vz v).
Proof.
  destruct d as [[orig off1] off2]. unfold duplicate_vertex. cbn [fst snd].
  destruct (verts !! orig) as [v|]; [|discriminate].
  cbn [mbind option_bind]. intros [= <-]. exists v. split; [reflexivity|].
  destruct (Z.eqb_spec off1 0) as [-> | _], (Z.eqb_spec off2 0) as [-> | _];
    f_equal; lra.
Qed.

Lemma create_duplicate_vertices_positions (p : TriMeshPeriodic) :
  mVertices (base p) ≠ [] → mDuplicateVerts_OrigIds p ≠ [] →
  bbox_valid p = true →
  dups_in_range (length (mVertices (base p))) (mDuplicateVerts_OrigIds p) →
  ∃ dvs,
    create_duplicate_vertices p = Some (with_mDuplicateVerts p dvs)
    ∧ Forall2 (λ d dv, duplicate_vertex (mVertices (base p))
                         (vsub (mBox1 p) (mBox0 p)) d = Some dv)
              (mDuplicateVerts_OrigIds p) dvs.
Proof.
  intros Hv Hd Hbox Hids. unfold create_duplicate_vertices.
  assert ((length (mVertices (base p)) =? 0) = false) as ->
    by (destruct (mVertices (base p)); [done | reflexivity]).
  assert ((length (mDuplicateVerts_OrigIds p) =? 0) = false) as ->
    by (destruct (mDuplicateVerts_OrigIds p); [done | reflexivity]).
  rewrite Hbox. cbn [orb negb].
  destruct (mapM_is_Some_2
              (duplicate_vertex (mVertices (base p))
                 (vsub (mBox1 p) (mBox0 p)))
              (mDuplicateVerts_OrigIds p)) as [dv Hdv].
  - eapply Forall_impl; [exact Hids|]. intros [[orig off1] off2] Hlt.
    cbn in Hlt. cbn [compose duplicate_vertex].
    destruct (lookup_lt_is_Some_2 _ _ Hlt) as [v ->]. by eexists.
  - rewrite Hdv. cbn [mbind option_bind]. exists dv.
    split; [reflexivity|]. by apply mapM_Some.
Qed.

(** X14 ([create_duplicate_vertices], where the duplicates are put).  With
    a valid box, at least one vertex and a non-empty duplicate list whose
    entries name existing vertices, the call completes, changes nothing
    but the duplicate positions, and stores one position per entry: the
    original vertex moved by the entry's offsets times the box extent
    along x and y, with z unchanged.  Positions stored before are
    discarded. *)
Theorem create_duplicate_vertices_spec (p : TriMeshPeriodic) :
  mVertices (base p) ≠ [] → mDuplicateVerts_OrigIds p ≠ [] →
  bbox_valid p = true →
  dups_in_range (length (mVertices (base p))) (mDuplicateVerts_OrigIds p) →
  ∃ dvs,
    create_duplicate_vertices p = Some (with_mDuplicateVerts p dvs)
    ∧ length dvs = length (mDuplicateVerts_OrigIds p)
    ∧ ∀ i d, mDuplicateVerts_OrigIds p !! i = Some d →
        ∃ v, mVertices (base p) !! d.1.1 = Some v
             ∧ dvs !! i
               = Some (mkVertex
                         (vx v + IZR d.1.2 * (vx (mBox1 p) - vx (mBox0 p)))
                         (vy v + IZR d.2 * (vy (mBox1 p) - vy (mBox0 p)))
                         (vz v)).
Proof.
  intros Hv Hd Hbox Hids.
  destruct (create_duplicate_vertices_positions p Hv Hd Hbox Hids)
    as (dvs & Hrun & Hall).
  exists dvs. split_and!; [exact Hrun | symmetry; by eapply Forall2_length |].
  intros i d Hi.
  destruct (Forall2_lookup_l _ _ _ _ _ Hall Hi) as (dv & Hdv & Hpos).
  destruct (duplicate_vertex_position _ _ _ _ Hpos) as (v & Hlook & ->).
  exists v. split; [exact Hlook | exact Hdv].
Qed.

Lemma create_duplicate_vertices_spec_witness :
  ∃ dvs,
    create_duplicate_vertices sample_with_duplicates
    = Some (with_mDuplicateVerts sample_with_duplicates dvs)
    ∧ length dvs = length (mDuplicateVerts_OrigIds sample_with_duplicates)
    ∧ ∀ i d, mDuplicateVerts_OrigIds sample_with_duplicates !! i = Some d →
        ∃ v, mVertices (base sample_with_duplicates) !! d.1.1 = Some v
             ∧ dvs !! i
               = Some (mkVertex
                         (vx v + IZR d.1.2
                                 * (vx (mBox1 sample_with_duplicates)
                                    - vx (mBox0 sample_with_duplicates)))
                         (vy v + IZR d.2
                                 * (vy (mBox1 sample_with_duplicates)
                                    - vy (mBox0 sample_with_duplicates)))
                         (vz v)).
Proof.
  apply (create_duplicate_vertices_spec sample_with_duplicates).
  - discriminate.
  - discriminate.
  - reflexivity.
  - repeat constructor.
Defined.

(** ** [write_binary]: the ['v'] tokens *)

Lemma count_tokV_app (v : nat) (a b : list token) :
  count_tokV v (a ++ b) = count_tokV v a + count_tokV v b.
Proof.
  induction a as [|t a IH]; [reflexivity|].
  destruct t; cbn; rewrite IH; lia.
Qed.

Lemma first_face_from_ge (fs : list Face) (v : nat) :
  ∀ i0 i, first_face_from i0 fs v = Some i → i0 ≤ i < i0 + length fs.
Proof.
  induction fs as [|f fs IH]; intros i0 i; [discriminate|].
  cbn [first_face_from length]. destruct (incidentb v f).
  - intros [= <-]. lia.
  - intros H. apply IH in H. lia.
Qed.

Lemma first_face_from_Some (fs : list Face) (v : nat) :
  ∀ i0 i, first_face_from i0 fs v = Some i →
    ∃ j f, i = i0 + j ∧ fs !! j = Some f ∧ incidentb v f = true.
Proof.
  induction fs as [|f fs IH]; intros i0 i; [discriminate|].
  cbn [first_face_from]. destruct (incidentb v f) eqn:Hv.
  - intros [= <-]. exists 0, f. split_and!; [lia | done | done].
  - intros H. destruct (IH _ _ H) as (j & f' & -> & Hj & Hinc).
    exists (S j), f'. split_and!; [lia | done | done].
Qed.

Lemma first_face_from_None (fs : list Face) (v : nat) :
  ∀ i0, first_face_from i0 fs v = None →
    ∀ f, In f fs → incidentb v f = false.
Proof.
  induction fs as [|f fs IH]; intros i0 Hn g Hg; [destruct Hg|].
  cbn [first_face_from] in Hn. destruct (incidentb v f) eqn:Hv; [discriminate|].
  destruct Hg as [<- | Hg]; [exact Hv | by apply (IH (S i0))].
Qed.

Lemma min_first_lookup (first first' : list Z) (u : nat) (k : Z) :
  min_first first u k = Some first' →
  ∀ v x, first !! v = Some x →
    first' !! v = Some (if decide (v = u) then Z.min x k else x).
Proof.
  unfold min_first. destruct (first !! u) as [y|] eqn:Hy; [|discriminate].
  cbn [mbind option_bind]. intros [= <-] v x Hx.
  destruct (decide (v = u)) as [-> | Hne].
  - rewrite list_lookup_insert_eq by (by eapply lookup_lt_Some). congruence.
  - by rewrite list_lookup_insert_ne.
Qed.

Lemma tally_face_first (counts first : list Z) (k : Z) (f : Face)
    (counts' first' : list Z) (k' : Z) :
  tally_face (counts, first, k) f = Some (counts', first', k') →
  k' = wrap32 (k + 1)
  ∧ ∀ v x, first !! v = Some x →
      first' !! v = Some (if incidentb v f then Z.min x k else x).
Proof.
  unfold tally_face.
  destruct (incr8 counts (fc0 f)) as [c1|]; [|discriminate].
  cbn [mbind option_bind].
  destruct (incr8 c1 (fc1 f)) as [c2|]; [|discriminate].
  cbn [mbind option_bind].
  destruct (incr8 c2 (fc2 f)) as [c3|]; [|discriminate].
  cbn [mbind option_bind].
  destruct (min_first first (fc0 f) k) as [g1|] eqn:E1; [|discriminate].
  cbn [mbind option_bind].
  destruct (min_first g1 (fc1 f) k) as [g2|] eqn:E2; [|discriminate].
  cbn [mbind option_bind].
  destruct (min_first g2 (fc2 f) k) as [g3|] eqn:E3; [|discriminate].
  cbn [mbind option_bind]. intros [= <- <- <-]. split; [reflexivity|].
  intros v x Hx.
  rewrite (min_first_lookup _ _ _ _ E3 v _
             (min_first_lookup _ _ _ _ E2 v _
                (min_first_lookup _ _ _ _ E1 v x Hx))).
  f_equal. unfold incidentb.
  destruct (Nat.eqb_spec (fc0 f) v), (Nat.eqb_spec (fc1 f) v),
    (Nat.eqb_spec (fc2 f) v); repeat case_decide; cbn; lia.
Qed.

Lemma tally_first (fs : list Face) :
  ∀ counts first k counts' first' k' i0,
    foldlM tally_face (counts, first, k) fs = Some (counts', first', k') →
    k = Z.of_nat i0 → (Z.of_nat (i0 + length fs) ≤ 2 ^ 32 - 1)%Z →
    ∀ v x, first !! v = Some x →
      first' !! v = Some (match first_face_from i0 fs v with
                          | Some i => Z.min x (Z.of_nat i)
                          | None => x
                          end).
Proof.
  induction fs as [|f fs IH];
    intros counts first k counts' first' k' i0 Hrun Hk Hmax v x Hx.
  - cbn in Hrun. injection Hrun as <- <- <-. exact Hx.
  - cbn [foldlM] in Hrun.
    destruct (tally_face (counts, first, k) f) as [[[c1 g1] k1]|] eqn:E;
      [|discriminate].
    destruct (tally_face_first _ _ _ _ _ _ _ E) as [-> Hg1].
    cbn [length] in Hmax.
    rewrite (IH _ _ _ _ _ _ (S i0) Hrun) with (x := if incidentb v f
                                                    then Z.min x k else x);
      [| unfold wrap32; rewrite Z.mod_small; lia | lia | by apply Hg1].
    cbn [first_face_from]. f_equal.
    destruct (incidentb v f).
    + destruct (first_face_from (S i0) fs v) as [i|] eqn:Hi; [|lia].
      apply first_face_from_ge in Hi. lia.
    + reflexivity.
Qed.

Lemma write_vertex_inv (m : TriMesh) (first : list Z) (k : Z) (u : nat)
    (tv : list token) (x : Z) :
  write_vertex m first k u = Some tv → first !! u = Some x →
  (k = x → ∃ pos fl, tv = [TokV u pos fl] ∧ payload_ok m u pos fl)
  ∧ (k ≠ x → tv = []).
Proof.
  unfold write_vertex. intros Hrun Hx. rewrite Hx in Hrun.
  cbn [mbind option_bind] in Hrun.
  destruct (Z.eqb_spec k x) as [Heq | Hne].
  - destruct (mVertices m !! u) as [pos|] eqn:Hpos; [|discriminate].
    cbn [mbind option_bind] in Hrun.
    destruct (mapM _ (mFields m)) as [fl|] eqn:Hfl; [|discriminate].
    injection Hrun as <-. split; [|done]. intros _. exists pos, fl.
    split; [reflexivity|]. split; [exact Hpos | by apply mapM_Some].
  - injection Hrun as <-. split; [done | done].
Qed.

Lemma close_corner_inv (counts counts' : list Z) (u : nat) (tf : list token) :
  close_corner counts u = Some (counts', tf) → tf = [] ∨ tf = [TokF u].
Proof.
  unfold close_corner. destruct (counts !! u); [|discriminate].
  cbn [mbind option_bind]. destruct (_ =? _)%Z; intros [= _ <-]; tauto.
Qed.

Lemma write_face_inv (m : TriMesh) (first counts : list Z) (k : Z) (f : Face)
    (counts' : list Z) (k' : Z) (b : list token) :
  write_face m first (counts, k) f = Some (counts', k', b) →
  ∃ tv0 tv1 tv2 tf,
    write_vertex m first k (fc0 f) = Some tv0
    ∧ write_vertex m first k (fc1 f) = Some tv1
    ∧ write_vertex m first k (fc2 f) = Some tv2
    ∧ k' = wrap32 (k + 1)
    ∧ b = (tv0 ++ tv1 ++ tv2)
          ++ [TokE (fc0 f) (fc1 f); TokE (fc1 f) (fc2 f);
              TokE (fc2 f) (fc0 f)] ++ tf
    ∧ forallb is_tokF tf = true.
Proof.
  unfold write_face.
  destruct (write_vertex m first k (fc0 f)) as [tv0|]; [|discriminate].
  destruct (write_vertex m first k (fc1 f)) as [tv1|]; [|discriminate].
  destruct (write_vertex m first k (fc2 f)) as [tv2|]; [|discriminate].
  cbn [mbind option_bind].
  destruct (close_corner counts (fc0 f)) as [[c1 tf0]|] eqn:E0; [|discriminate].
  cbn [mbind option_bind].
  destruct (close_corner c1 (fc1 f)) as [[c2 tf1]|] eqn:E1; [|discriminate].
  cbn [mbind option_bind].
  destruct (close_corner c2 (fc2 f)) as [[c3 tf2]|] eqn:E2; [|discriminate].
  cbn [mbind option_bind]. intros [= <- <- <-].
  exists tv0, tv1, tv2, (tf0 ++ tf1 ++ tf2).
  split_and!; [reflexivity.. | |].
  - by rewrite <- !app_assoc.
  - apply close_corner_inv in E0, E1, E2.
    destruct E0 as [-> | ->], E1 as [-> | ->], E2 as [-> | ->]; reflexivity.
Qed.

Lemma count_tokV_tokF (v : nat) (tf : list token) :
  forallb is_tokF tf = true → count_tokV v tf = 0.
Proof.
  induction tf as [|t tf IH]; [reflexivity|].
  destruct t; cbn; try discriminate. exact IH.
Qed.

Lemma tokF_not_tokV (tf : list token) (v : nat) (pos : Vertex)
    (fl : list Scalar) :
  forallb is_tokF tf = true → ¬ In (TokV v pos fl) tf.
Proof.
  intros Hall Hin. rewrite forallb_forall in Hall.
  by specialize (Hall _ Hin).
Qed.

Lemma write_vertex_corner (m : TriMesh) (faces : list Face) (first : list Z)
    (i u : nat) (tv : list token) :
  write_vertex m first (Z.of_nat i) u = Some tv →
  first !! u = Some (first_value faces u) →
  (Z.of_nat i < 2 ^ 32 - 1)%Z →
  (first_face faces u = Some i
   ∧ ∃ pos fl, tv = [TokV u pos fl] ∧ payload_ok m u pos fl)
  ∨ (first_face faces u ≠ Some i ∧ tv = []).
Proof.
  intros Hrun Hfirst Hi.
  destruct (write_vertex_inv m first _ u tv _ Hrun Hfirst) as [Hyes Hno].
  unfold first_value in Hyes, Hno.
  destruct (first_face faces u) as [j|] eqn:Hj.
  - destruct (decide (i = j)) as [-> | Hne].
    + left. split; [reflexivity | by apply Hyes].
    + right. split; [congruence | apply Hno; lia].
  - right. split; [done | apply Hno; lia].
Qed.

Lemma write_face_block (m : TriMesh) (faces : list Face) (first : list Z)
    (i : nat) (f : Face) (counts counts' : list Z) (k' : Z) (b : list token) :
  write_face m first (counts, Z.of_nat i) f = Some (counts', k', b) →
  faces !! i = Some f → distinct_corners f →
  (Z.of_nat i < 2 ^ 32 - 1)%Z →
  (∀ u, In u (corners f) → first !! u = Some (first_value faces u)) →
  k' = Z.of_nat (S i) ∧ block_ok m faces i f b.
Proof.
  intros Hrun Hf (H01 & H12 & H20) Hi Hfirst.
  destruct (write_face_inv _ _ _ _ _ _ _ _ Hrun)
    as (tv0 & tv1 & tv2 & tf & V0 & V1 & V2 & -> & -> & Htf).
  split; [unfold wrap32; rewrite Z.mod_small; lia|].
  assert (Hcorner : ∀ v, first_face faces v = Some i → In v (corners f)).
  { intros v Hv. apply first_face_from_Some in Hv as (j & f' & -> & Hf' & Hinc).
    cbn in Hf. rewrite Hf in Hf'. injection Hf' as <-.
    unfold incidentb in Hinc. cbn.
    destruct (Nat.eqb_spec (fc0 f) v), (Nat.eqb_spec (fc1 f) v),
      (Nat.eqb_spec (fc2 f) v); try discriminate; tauto. }
  apply (write_vertex_corner m faces) in V0, V1, V2;
    [| apply Hfirst; cbn; tauto | exact Hi
     | apply Hfirst; cbn; tauto | exact Hi
     | apply Hfirst; cbn; tauto | exact Hi].
  split_and!.
  - exists (tv0 ++ tv1 ++ tv2), tf. split_and!; [reflexivity | | exact Htf].
    destruct V0 as [(_ & p0 & l0 & -> & _) | [_ ->]],
             V1 as [(_ & p1 & l1 & -> & _) | [_ ->]],
             V2 as [(_ & p2 & l2 & -> & _) | [_ ->]]; reflexivity.
  - intros v. rewrite !count_tokV_app, (count_tokV_tokF v tf Htf).
    cbn [count_tokV].
    assert (Hone : ∀ u tv,
               (first_face faces u = Some i
                ∧ ∃ pos fl, tv = [TokV u pos fl] ∧ payload_ok m u pos fl)
               ∨ (first_face faces u ≠ Some i ∧ tv = []) →
               count_tokV v tv
               = if decide (u = v ∧ first_face faces v = Some i)
                 then 1 else 0).
    { intros u tv [(Hu & p & l & -> & _) | [Hu ->]]; cbn.
      - destruct (Nat.eqb_spec u v) as [-> | Hne]; case_decide; (tauto || lia).
      - case_decide; [|reflexivity]. destruct H as [-> ?]. done. }
    rewrite (Hone _ _ V0), (Hone _ _ V1), (Hone _ _ V2).
    destruct (decide (first_face faces v = Some i)) as [Hv | Hv].
    + specialize (Hcorner v Hv). cbn in Hcorner.
      repeat case_decide; try lia; intuition congruence.
    + repeat case_decide; try lia; tauto.
  - intros v pos fl Hin. rewrite !in_app_iff in Hin.
    destruct Hin as [[Hin | [Hin | Hin]] | [Hin | Hin]].
    + destruct V0 as [(_ & p & l & -> & Hp) | [_ ->]]; [|destruct Hin].
      destruct Hin as [[= <- <- <-] | []]. exact Hp.
    + destruct V1 as [(_ & p & l & -> & Hp) | [_ ->]]; [|destruct Hin].
      destruct Hin as [[= <- <- <-] | []]. exact Hp.
    + destruct V2 as [(_ & p & l & -> & Hp) | [_ ->]]; [|destruct Hin].
      destruct Hin as [[= <- <- <-] | []]. exact Hp.
    + cbn in Hin. intuition discriminate.
    + by apply tokF_not_tokV in Hin.
Qed.

Lemma write_faces_blocks (m : TriMesh) (faces : list Face) (first : list Z)
    (fs : list Face) :
  ∀ i0 counts blocks,
    write_faces m first (counts, Z.of_nat i0) fs = Some blocks →
    (∀ j f, fs !! j = Some f → faces !! (i0 + j) = Some f) →
    Forall distinct_corners fs →
    (Z.of_nat (i0 + length fs) ≤ 2 ^ 32 - 1)%Z →
    (∀ f u, In f fs → In u (corners f) →
            first !! u = Some (first_value faces u)) →
    ∀ j f b, fs !! j = Some f → blocks !! j = Some b →
             block_ok m faces (i0 + j) f b.
Proof.
  induction fs as [|f fs IH];
    intros i0 counts blocks Hrun Hsub Hdc Hmax Hfirst j g b Hg Hb;
    [by destruct j|].
  cbn [write_faces length] in Hrun, Hmax.
  destruct (write_face m first (counts, Z.of_nat i0) f)
    as [[[c1 k1] b0]|] eqn:E; [|discriminate].
  cbn [mbind option_bind] in Hrun.
  apply Forall_cons in Hdc as [Hd Hdc].
  destruct (write_face_block m faces first i0 f _ _ _ _ E) as [-> Hblock];
    [ specialize (Hsub 0 f eq_refl); by rewrite Nat.add_0_r in Hsub
    | exact Hd | lia | intros u Hu; apply (Hfirst f u); [by left | done] |].
  destruct (write_faces m first (c1, Z.of_nat (S i0)) fs) as [bs|] eqn:Es;
    [|discriminate].
  injection Hrun as <-.
  destruct j as [|j]; cbn in Hg, Hb.
  - injection Hg as <-. injection Hb as <-. by rewrite Nat.add_0_r.
  - replace (i0 + S j) with (S i0 + j) by lia.
    apply (IH (S i0) c1 bs Es); try done.
    + intros j' f' Hf'. replace (S i0 + j') with (i0 + S j') by lia.
      by apply Hsub.
    + lia.
    + intros f' u Hf' Hu. apply (Hfirst f' u); [by right | done].
Qed.

Lemma count_tokV_concat (v : nat) (o : option nat)
    (blocks : list (list token)) :
  (∀ i b, blocks !! i = Some b →
          count_tokV v b = if decide (o = Some i) then 1 else 0) →
  count_tokV v (concat blocks)
  = match o with
    | Some i => if decide (i < length blocks) then 1 else 0
    | None => 0
    end.
Proof.
  induction blocks as [|b blocks IH] using rev_ind; intros Hall.
  - destruct o; reflexivity.
  - rewrite concat_app, count_tokV_app, length_app. cbn [concat length].
    rewrite app_nil_r.
    rewrite IH
      by (intros i b' Hb'; apply Hall; by rewrite lookup_app_l
            by (by eapply lookup_lt_Some)).
    rewrite (Hall (length blocks) b)
      by (by rewrite lookup_app_r, Nat.sub_diag by lia).
    destruct o as [i|]; repeat case_decide; try lia;
      try match goal with
          | H : Some _ = Some _ |- _ => injection H as ->
          | H : Some _ ≠ Some _ |- _ =>
              exfalso; apply H; f_equal
          | H : None = Some _ |- _ => discriminate H
          end; lia.
Qed.

(** X16 ([write_binary], vertices are introduced once, before use).  On a
    mesh whose faces name existing vertices and have three distinct
    corners each, whose fields cover the vertices and which has at most
    [2^32 - 1] faces (so that the 32-bit face counter neither wraps nor
    reaches the initial value of [first]), [write_binary] completes and
    writes one block per face.  The block of a face consists of ['v']
    tokens, then the three ['e'] tokens of its edges, then ['f'] tokens;
    it holds a ['v'] token for a vertex exactly if the face is the first
    one that has this vertex as a corner; every ['v'] token carries the
    position of its vertex and one value per field.  Hence the stream
    holds exactly one ['v'] token for every vertex used by some face and
    none for a vertex used by no face. *)
Theorem write_binary_vertex_tokens (m : TriMesh) :
  let nv := length (mVertices m) in
  faces_in_range nv (mFaces m) →
  fields_cover nv (mFields m) →
  Forall distinct_corners (mFaces m) →
  (Z.of_nat (length (mFaces m)) ≤ 2 ^ 32 - 1)%Z →
  ∃ blocks,
    write_binary m = Some (header, concat blocks)
    ∧ length blocks = length (mFaces m)
    ∧ (∀ i f b, mFaces m !! i = Some f → blocks !! i = Some b →
         block_ok m (mFaces m) i f b)
    ∧ ∀ v, count_tokV v (concat blocks)
           = match first_face (mFaces m) v with Some _ => 1 | None => 0 end.
Proof.
  intros nv Hr Hc Hdc Hmax.
  assert (Hinit : counts_ok nv (replicate nv 0%Z) []).
  { split; [by rewrite length_replicate|].
    intros v Hv. by rewrite lookup_replicate_2. }
  destruct (tally_ok nv (mFaces m) _ (replicate nv (2 ^ 32 - 1)%Z) 0%Z []
              Hr Hinit)
    as (counts & first & k & Et & Hcnt & Hfirst); [by rewrite length_replicate|].
  rewrite app_nil_r in Hcnt.
  destruct (write_faces_ok m first (mFaces m) Hfirst Hc counts 0%Z Hr Hcnt)
    as (blocks & Ew & Hlen & _).
  assert (Hval : ∀ v, v < nv → first !! v = Some (first_value (mFaces m) v)).
  { intros v Hv.
    rewrite (tally_first _ _ _ _ _ _ _ 0 Et eq_refl Hmax v (2 ^ 32 - 1)%Z)
      by (by rewrite lookup_replicate_2).
    unfold first_value, first_face. f_equal.
    destruct (first_face_from 0 (mFaces m) v) as [i|] eqn:Hi; [|reflexivity].
    apply first_face_from_ge in Hi. lia. }
  assert (Hblocks : ∀ i f b, mFaces m !! i = Some f → blocks !! i = Some b →
                             block_ok m (mFaces m) i f b).
  { intros i f b Hf Hb.
    apply (write_faces_blocks m (mFaces m) first (mFaces m) 0 counts blocks
             Ew (λ j f H, H) Hdc Hmax) with (j := i); [|done..].
    intros f' u Hf' Hu. apply Hval.
    apply list_elem_of_In, list_elem_of_lookup in Hf' as [j Hj].
    destruct (faces_in_range_lookup nv _ j f' Hr Hj) as (H0 & H1 & H2).
    cbn in Hu. destruct Hu as [<- | [<- | [<- | []]]]; done. }
  exists blocks. split_and!; [| exact Hlen | exact Hblocks |].
  - unfold write_binary. fold nv. unfold tally in Et |- *. rewrite Et.
    cbn [mbind option_bind]. rewrite Ew. reflexivity.
  - intros v.
    rewrite (count_tokV_concat v (first_face (mFaces m) v)).
    + destruct (first_face (mFaces m) v) as [i|] eqn:Hi; [|reflexivity].
      apply first_face_from_ge in Hi. case_decide; [reflexivity | lia].
    + intros i b Hb.
      destruct (lookup_lt_is_Some_2 (mFaces m) i) as [f Hf];
        [rewrite <- Hlen; by eapply lookup_lt_Some|].
      by destruct (Hblocks i f b Hf Hb) as (_ & Hcount & _).
Qed.

Lemma write_binary_vertex_tokens_witness :
  ∃ blocks,
    write_binary square = Some (header, concat blocks)
    ∧ length blocks = length (mFaces square)
    ∧ (∀ i f b, mFaces square !! i = Some f → blocks !! i = Some b →
         block_ok square (mFaces square) i f b)
    ∧ ∀ v, count_tokV v (concat blocks)
           = match first_face (mFaces square) v with
             | Some _ => 1
             | None => 0
             end.
Proof.
  apply (write_binary_vertex_tokens square).
  - repeat constructor.
  - constructor.
  - repeat constructor; cbn; lia.
  - cbn. lia.
Defined.

(** ** [need_pointareas]: the area of one vertex, and the cache *)

(** X17 ([need_pointareas], the area of one vertex).  On a mesh without
    the field [point_areas] whose faces name existing vertices, the point
    area of a vertex is the sum, over the faces, of the corner areas of
    the corners that are this vertex; a corner area that is not a number
    makes the sum not a number.  The result therefore does not depend on
    the order in which the faces are visited: listing the faces in any
    other order gives the same point areas. *)
Theorem need_pointareas_per_vertex (m : TriMesh) :
  fields_find "point_areas" (mFields m) = None →
  faces_in_range (length (mVertices m)) (mFaces m) →
  ∃ m' pa,
    need_pointareas m = Some (m', pa)
    ∧ (∀ v, v < length (mVertices m) →
         pa !! v
         = Some (ssum (map (corner_share (mVertices m) v) (mFaces m))))
    ∧ ∀ faces', faces' ≡ₚ mFaces m →
        ∃ m'', need_pointareas (with_mFaces m faces') = Some (m'', pa).
Proof.
  intros Hnone Hr.
  destruct (need_pointareas_values m Hnone Hr) as (pa & Hrun & Hlen & Hval).
  eexists _, pa. split_and!; [exact Hrun | exact Hval |].
  intros faces' Hperm.
  destruct (need_pointareas_values (with_mFaces m faces') Hnone)
    as (pa' & Hrun' & Hlen' & Hval').
  { cbn [with_mFaces mVertices mFaces]. unfold faces_in_range.
    by rewrite Hperm. }
  cbn [with_mFaces mVertices mFaces] in Hlen', Hval'.
  assert (pa' = pa) as ->; [|by eexists].
  apply list_eq. intros v.
  destruct (decide (v < length (mVertices m))) as [Hv | Hv].
  - rewrite (Hval v Hv), (Hval' v Hv). f_equal.
    apply ssum_Permutation. by apply Permutation_map.
  - rewrite !lookup_ge_None_2 by lia. reflexivity.
Qed.

Lemma need_pointareas_per_vertex_witness :
  ∃ m' pa,
    need_pointareas unit_square = Some (m', pa)
    ∧ (∀ v, v < length (mVertices unit_square) →
         pa !! v
         = Some (ssum (map (corner_share (mVertices unit_square) v)
                           (mFaces unit_square))))
    ∧ ∀ faces', faces' ≡ₚ mFaces unit_square →
        ∃ m'', need_pointareas (with_mFaces unit_square faces')
               = Some (m'', pa).
Proof.
  apply (need_pointareas_per_vertex unit_square).
  - reflexivity.
  - repeat constructor.
Defined.

(** *** Faces without an edge of length zero *)









(** X25 ([need_pointareas], faces with an edge of length zero).  On a mesh
    without the field [point_areas] whose faces name existing vertices, a
    face that has an edge of length zero makes the point area of its first
    vertex not a number, whatever the other faces at that vertex are. *)
Theorem need_pointareas_nan_on_zero_edge
    (m : TriMesh) (f : Face) (p0 p1 p2 : Vertex) :
  fields_find "point_areas" (mFields m) = None →
  faces_in_range (length (mVertices m)) (mFaces m) →
  In f (mFaces m) →
  mVertices m !! fc0 f = Some p0 →
  mVertices m !! fc1 f = Some p1 →
  mVertices m !! fc2 f = Some p2 →
  zero_edge p0 p1 p2 →
  ∃ m' pa,
    need_pointareas m = Some (m', pa)
    ∧ fields_find "point_areas" (mFields m') = Some pa
    ∧ pa !! fc0 f = Some NaN.
Proof.
  intros Hnone Hr Hf H0 H1 H2 Hz.
  destruct (need_pointareas_values m Hnone Hr) as (pa & Hrun & Hlen & Hval).
  eexists _, pa. split_and!; [exact Hrun | apply fields_find_set |].
  rewrite (Hval (fc0 f)) by (by eapply lookup_lt_Some).
  f_equal. apply ssum_NaN.
  apply (in_map (corner_share (mVertices m) (fc0 f))) in Hf.
  enough (E : corner_share (mVertices m) (fc0 f) f = NaN) by (by rewrite <- E).
  unfold corner_share. rewrite H0, H1, H2. cbv zeta.
  rewrite Nat.eqb_refl, (corner_areas_zero_edge p0 p1 p2 Hz). reflexivity.
Qed.

Lemma need_pointareas_nan_on_zero_edge_witness :
  ∃ m' pa,
    need_pointareas pinched_fan = Some (m', pa)
    ∧ fields_find "point_areas" (mFields m') = Some pa
    ∧ pa !! 0 = Some NaN.
Proof.
  apply (need_pointareas_nan_on_zero_edge pinched_fan (mkFace 0 1 2)
           vzero vzero (mkVertex 1 0 0)).
  - reflexivity.
  - repeat constructor.
  - right. left. reflexivity.
  - reflexivity.
  - reflexivity.
  - reflexivity.
  - left. unfold len2, DOT, vsub, vzero. cbn [vx vy vz]. lra.
Defined.

Lemma fields_find_set_ne (name key : string) (data : list Scalar)
    (fl : list (string * list Scalar)) :
  name ≠ key →
  fields_find name (fields_set key data fl) = fields_find name fl.
Proof.
  intros Hne. induction fl as [|[n d] fl IH]; cbn.
  - by destruct (String.eqb_spec name key).
  - destruct (String.compare key n) eqn:E; cbn.
    + apply String.compare_eq_iff in E as <-.
      by destruct (String.eqb_spec name key).
    + by destruct (String.eqb_spec name key).
    + by rewrite IH.
Qed.

(** X18 ([need_pointareas], the cache).  The first call on a mesh without
    the field [point_areas] stores its result under that name, leaves
    vertices, faces and every other field as they were, and from then on
    the stored values are returned as they are: also after the vertices or
    the faces have been replaced, the mesh being left unchanged by the
    call. *)
Theorem need_pointareas_cached (m : TriMesh) :
  fields_find "point_areas" (mFields m) = None →
  faces_in_range (length (mVertices m)) (mFaces m) →
  ∃ m' pa,
    need_pointareas m = Some (m', pa)
    ∧ mVertices m' = mVertices m ∧ mFaces m' = mFaces m
    ∧ (∀ name, name ≠ "point_areas"%string →
         fields_find name (mFields m') = fields_find name (mFields m))
    ∧ ∀ verts faces,
        need_pointareas (with_mFaces (with_mVertices m' verts) faces)
        = Some (with_mFaces (with_mVertices m' verts) faces, pa).
Proof.
  intros Hnone Hr.
  destruct (need_pointareas_values m Hnone Hr) as (pa & Hrun & _ & _).
  eexists _, pa. split_and!; [exact Hrun | reflexivity | reflexivity | |].
  - intros name Hname. cbn [with_mFields mFields].
    by apply fields_find_set_ne.
  - intros verts faces. unfold need_pointareas.
    cbn [with_mFaces with_mVertices with_mFields mFields].
    by rewrite fields_find_set.
Qed.

Lemma need_pointareas_cached_witness :
  ∃ m' pa,
    need_pointareas
      (single_triangle vzero (mkVertex 1 0 0) (mkVertex 0 1 0) "f" 10 20 30)
    = Some (m', pa)
    ∧ mVertices m' = [vzero; mkVertex 1 0 0; mkVertex 0 1 0]
    ∧ mFaces m' = [mkFace 0 1 2]
    ∧ (∀ name, name ≠ "point_areas"%string →
         fields_find name (mFields m')
         = fields_find name [("f"%string, [10; 20; 30]%R)])
    ∧ ∀ verts faces,
        need_pointareas (with_mFaces (with_mVertices m' verts) faces)
        = Some (with_mFaces (with_mVertices m' verts) faces, pa).
Proof.
  apply (need_pointareas_cached
           (single_triangle vzero (mkVertex 1 0 0) (mkVertex 0 1 0)
              "f" 10 20 30)).
  - reflexivity.
  - repeat constructor.
Defined.

(** ** [need_normals]: the stored normals, and the cache *)

Lemma vadd_assoc (a b c : Normal) : vadd (vadd a b) c = vadd a (vadd b c).
Proof. unfold vadd. cbn [vx vy vz]. f_equal; ring. Qed.

Lemma vadd_comm (a b : Normal) : vadd a b = vadd b a.
Proof. unfold vadd. f_equal; ring. Qed.

Lemma vadd_vzero_r (a : Normal) : vadd a vzero = a.
Proof. destruct a. unfold vadd, vzero. cbn [vx vy vz]. f_equal; ring. Qed.

Lemma vscale_vzero (s : R) : vscale vzero s = vzero.
Proof. unfold vscale, vzero. cbn [vx vy vz]. f_equal; ring. Qed.

Lemma vsum_Permutation (l l' : list Normal) : l ≡ₚ l' → vsum l = vsum l'.
Proof.
  induction 1 as [|x l l' _ IH|x y l|l l' l'' _ IH1 _ IH2];
    unfold vsum in *; cbn [fold_right].
  - reflexivity.
  - by rewrite IH.
  - by rewrite <- !vadd_assoc, (vadd_comm y x).
  - by rewrite IH1.
Qed.

Lemma vadd_at_lookup (l l' : list Normal) (u : nat) (y : Normal) :
  vadd_at l u y = Some l' →
  ∀ v x, l !! v = Some x →
    l' !! v = Some (if u =? v then vadd x y else x).
Proof.
  unfold vadd_at. destruct (l !! u) as [z|] eqn:Hz; [|discriminate].
  cbn [mbind option_bind]. intros [= <-] v x Hx.
  destruct (Nat.eqb_spec u v) as [-> | Hne].
  - rewrite list_lookup_insert_eq by (by eapply lookup_lt_Some). congruence.
  - by rewrite list_lookup_insert_ne.
Qed.

Lemma normals_step_values (verts : list Vertex) (pn fn : list Normal)
    (i : nat) (f : Face) :
  length pn = length verts → i < length fn →
  fc0 f < length verts ∧ fc1 f < length verts ∧ fc2 f < length verts →
  fn !! i = Some vzero →
  ∃ pn' fn',
    normals_step verts (pn, fn) i f = Some (pn', fn')
    ∧ length pn' = length verts ∧ length fn' = length fn
    ∧ (∀ v x, pn !! v = Some x →
         pn' !! v = Some (vadd x (normal_share verts v f)))
    ∧ fn' !! i = Some (raw_normal verts f)
    ∧ ∀ j, j ≠ i → fn' !! j = fn !! j.
Proof.
  intros Hlen Hi Hf Hzero.
  destruct (normals_step_ok verts pn fn i f Hlen Hi Hf)
    as (pn' & fn' & Hrun & Lp & Lf & _).
  exists pn', fn'. split_and!; [exact Hrun | exact Lp | exact Lf | | |];
    unfold normals_step, normal_share, raw_normal, skipped in *;
    destruct (verts !! fc0 f) as [p0|]; try discriminate;
    destruct (verts !! fc1 f) as [p1|]; try discriminate;
    destruct (verts !! fc2 f) as [p2|]; try discriminate;
    cbn [mbind option_bind] in Hrun; cbv zeta;
    destruct (_ || _).
  - injection Hrun as <- <-. intros v x Hx. rewrite Hx. f_equal.
    rewrite !vscale_vzero.
    destruct (fc0 f =? v), (fc1 f =? v), (fc2 f =? v);
      by rewrite !vadd_vzero_r.
  - rewrite Hzero in Hrun. cbn [mbind option_bind] in Hrun.
    destruct (vadd_at pn (fc0 f) _) as [a0|] eqn:E0; [|discriminate].
    cbn [mbind option_bind] in Hrun.
    destruct (vadd_at a0 (fc1 f) _) as [a1|] eqn:E1; [|discriminate].
    cbn [mbind option_bind] in Hrun.
    destruct (vadd_at a1 (fc2 f) _) as [a2|] eqn:E2; [|discriminate].
    injection Hrun as <- <-. intros v x Hx.
    rewrite (vadd_at_lookup _ _ _ _ E2 v _
               (vadd_at_lookup _ _ _ _ E1 v _
                  (vadd_at_lookup _ _ _ _ E0 v x Hx))).
    f_equal.
    destruct (fc0 f =? v), (fc1 f =? v), (fc2 f =? v);
      unfold vadd, vzero; cbn [vx vy vz]; try (f_equal; ring);
      destruct x; cbn [vx vy vz]; f_equal; ring.
  - by injection Hrun as <- <-.
  - rewrite Hzero in Hrun. cbn [mbind option_bind] in Hrun.
    destruct (vadd_at pn (fc0 f) _) as [a0|]; [|discriminate].
    cbn [mbind option_bind] in Hrun.
    destruct (vadd_at a0 (fc1 f) _) as [a1|]; [|discriminate].
    cbn [mbind option_bind] in Hrun.
    destruct (vadd_at a1 (fc2 f) _) as [a2|]; [|discriminate].
    injection Hrun as <- <-. by rewrite list_lookup_insert_eq.
  - by injection Hrun as <- <-.
  - rewrite Hzero in Hrun. cbn [mbind option_bind] in Hrun.
    destruct (vadd_at pn (fc0 f) _) as [a0|]; [|discriminate].
    cbn [mbind option_bind] in Hrun.
    destruct (vadd_at a0 (fc1 f) _) as [a1|]; [|discriminate].
    cbn [mbind option_bind] in Hrun.
    destruct (vadd_at a1 (fc2 f) _) as [a2|]; [|discriminate].
    injection Hrun as <- <-. intros j Hj. by rewrite list_lookup_insert_ne.
Qed.

Lemma vadd_vzero_l (a : Normal) : vadd vzero a = a.
Proof. by rewrite vadd_comm, vadd_vzero_r. Qed.

Lemma normals_loop_values (verts : list Vertex) (faces : list Face) :
  faces_in_range (length verts) faces →
  ∀ i pn fn,
    length pn = length verts → i + length faces ≤ length fn →
    (∀ j, i ≤ j < i + length faces → fn !! j = Some vzero) →
    ∃ pn' fn',
      normals_loop verts faces i (pn, fn) = Some (pn', fn')
      ∧ length pn' = length verts ∧ length fn' = length fn
      ∧ (∀ v x, pn !! v = Some x →
           pn' !! v
           = Some (vadd x (vsum (map (normal_share verts v) faces))))
      ∧ (∀ j f, faces !! j = Some f →
           fn' !! (i + j) = Some (raw_normal verts f))
      ∧ ∀ j, j < i → fn' !! j = fn !! j.
Proof.
  intros Hr. induction Hr as [|f faces Hf _ IH]; intros i pn fn Hpn Hfn Hzero.
  - exists pn, fn. split_and!; [reflexivity | done | done | | |done].
    + intros v x Hx. rewrite Hx. cbn. by rewrite vadd_vzero_r.
    + intros j g Hg. by destruct j.
  - cbn [length] in Hfn, Hzero.
    destruct (normals_step_values verts pn fn i f Hpn ltac:(lia) Hf)
      as (pn1 & fn1 & E1 & Lp & Lf & K1 & N1 & O1); [apply Hzero; lia|].
    destruct (IH (S i) pn1 fn1 Lp ltac:(lia))
      as (pn' & fn' & E' & Lp' & Lf' & K' & N' & O').
    { intros j Hj. rewrite O1 by lia. apply Hzero. lia. }
    exists pn', fn'. split_and!; [| done | lia | | |].
    + cbn [normals_loop]. rewrite E1. exact E'.
    + intros v x Hx. rewrite (K' v _ (K1 v x Hx)). f_equal.
      cbn [map]. unfold vsum. cbn [fold_right]. apply vadd_assoc.
    + intros j g Hg. destruct j as [|j]; cbn in Hg.
      * injection Hg as <-. rewrite Nat.add_0_r, O' by lia. exact N1.
      * replace (i + S j) with (S i + j) by lia. by apply N'.
    + intros j Hj. rewrite O' by lia. apply O1. lia.
Qed.

Lemma need_normals_run (m : TriMesh) :
  mPointNormals m = [] →
  faces_in_range (length (mVertices m)) (mFaces m) →
  ∃ m' ns,
    need_normals m = Some (m', ns)
    ∧ mPointNormals m' = ns
    ∧ mVertices m' = mVertices m ∧ mFaces m' = mFaces m
    ∧ length ns = length (mVertices m)
    ∧ (∀ i f, mFaces m !! i = Some f →
         mFaceNormals m' !! i = Some (raw_normal (mVertices m) f))
    ∧ ∀ v, v < length (mVertices m) →
        ns !! v
        = Some (normalize
                  (vsum (map (normal_share (mVertices m) v) (mFaces m)))).
Proof.
  intros Hfresh Hr. unfold need_normals. rewrite Hfresh. cbn [length].
  destruct (Nat.eqb_spec 0 (length (mVertices m))) as [Hnv | Hnv]; cbn [negb].
  - exists m, []. rewrite Hfresh.
    split_and!; [done | done | done | done | done | | intros v Hv; lia].
    intros i f Hf. exfalso.
    destruct (faces_in_range_lookup _ _ i f Hr Hf) as [H0 _]. lia.
  - destruct (normals_loop_values (mVertices m) (mFaces m) Hr 0
                (replicate (length (mVertices m)) vzero)
                (replicate (length (mFaces m)) vzero))
      as (pn & fn & -> & Lp & Lf & K & N & _);
      [by rewrite length_replicate | by rewrite length_replicate
      | intros j Hj; apply lookup_replicate_2; lia |].
    cbn [mbind option_bind]. eexists _, (map normalize pn).
    split_and!; [reflexivity | reflexivity | reflexivity | reflexivity
                | by rewrite length_map | |].
    + intros i f Hf. cbn [with_normals mFaceNormals]. by apply (N i f).
    + intros v Hv. rewrite list_lookup_fmap.
      rewrite (K v vzero) by (by apply lookup_replicate_2).
      cbn [fmap option_fmap option_map]. by rewrite vadd_vzero_l.
Qed.

(** X19 ([need_normals], the stored normals).  On a mesh whose normals
    were not computed before and whose faces name existing vertices, the
    call stores for every face the cross product of its first two edge
    vectors, not normalized, or zero if the face has an edge of squared
    length zero; and the normal of a vertex is the normalized sum, over
    the faces, of the face normal divided by the two squared edge lengths
    at each corner that is this vertex.  The vertex normals therefore do
    not depend on the order of the faces.  (Scalars are real numbers; the
    vector operations are modelled from the spec.) *)
Theorem need_normals_values (m : TriMesh) :
  mPointNormals m = [] →
  faces_in_range (length (mVertices m)) (mFaces m) →
  ∃ m' ns,
    need_normals m = Some (m', ns)
    ∧ (∀ i f, mFaces m !! i = Some f →
         mFaceNormals m' !! i = Some (raw_normal (mVertices m) f))
    ∧ (∀ v, v < length (mVertices m) →
         ns !! v
         = Some (normalize
                   (vsum (map (normal_share (mVertices m) v) (mFaces m)))))
    ∧ ∀ faces', faces' ≡ₚ mFaces m →
        ∃ m'', need_normals (with_mFaces m faces') = Some (m'', ns).
Proof.
  intros Hfresh Hr.
  destruct (need_normals_run m Hfresh Hr)
    as (m' & ns & Hrun & _ & _ & _ & Hlen & Hfn & Hval).
  exists m', ns. split_and!; [exact Hrun | exact Hfn | exact Hval |].
  intros faces' Hperm.
  destruct (need_normals_run (with_mFaces m faces') Hfresh)
    as (m'' & ns' & Hrun' & _ & _ & _ & Hlen' & _ & Hval').
  { cbn [with_mFaces mVertices mFaces]. unfold faces_in_range.
    by rewrite Hperm. }
  cbn [with_mFaces mVertices mFaces] in Hlen', Hval'.
  assert (ns' = ns) as ->; [|by exists m''].
  apply list_eq. intros v.
  destruct (decide (v < length (mVertices m))) as [Hv | Hv].
  - rewrite (Hval v Hv), (Hval' v Hv). do 2 f_equal.
    apply vsum_Permutation. by apply Permutation_map.
  - rewrite !lookup_ge_None_2 by lia. reflexivity.
Qed.

Lemma need_normals_values_witness :
  ∃ m' ns,
    need_normals two_sided = Some (m', ns)
    ∧ (∀ i f, mFaces two_sided !! i = Some f →
         mFaceNormals m' !! i = Some (raw_normal (mVertices two_sided) f))
    ∧ (∀ v, v < length (mVertices two_sided) →
         ns !! v
         = Some (normalize
                   (vsum (map (normal_share (mVertices two_sided) v)
                              (mFaces two_sided)))))
    ∧ ∀ faces', faces' ≡ₚ mFaces two_sided →
        ∃ m'', need_normals (with_mFaces two_sided faces') = Some (m'', ns).
Proof.
  apply (need_normals_values two_sided).
  - reflexivity.
  - repeat constructor.
Defined.

(** X20 ([need_normals], the cache).  The normals are recomputed only if
    their number differs from the number of vertices.  After a first call
    the stored normals are therefore returned as they are, the mesh being
    left unchanged, also when the faces or the vertex positions have been
    replaced, as long as the number of vertices is the same. *)
Theorem need_normals_cached (m : TriMesh) :
  mPointNormals m = [] →
  faces_in_range (length (mVertices m)) (mFaces m) →
  ∃ m' ns,
    need_normals m = Some (m', ns)
    ∧ ∀ verts faces,
        length verts = length (mVertices m) →
        need_normals (with_mFaces (with_mVertices m' verts) faces)
        = Some (with_mFaces (with_mVertices m' verts) faces, ns).
Proof.
  intros Hfresh Hr.
  destruct (need_normals_run m Hfresh Hr)
    as (m' & ns & Hrun & Hpn & _ & _ & Hlen & _).
  exists m', ns. split; [exact Hrun|].
  intros verts faces Hverts. unfold need_normals.
  cbn [with_mFaces with_mVertices mPointNormals mVertices].
  rewrite Hpn, Hlen, Hverts, Nat.eqb_refl. reflexivity.
Qed.

Lemma need_normals_cached_witness :
  ∃ m' ns,
    need_normals two_sided = Some (m', ns)
    ∧ ∀ verts faces,
        length verts = length (mVertices two_sided) →
        need_normals (with_mFaces (with_mVertices m' verts) faces)
        = Some (with_mFaces (with_mVertices m' verts) faces, ns).
Proof.
  apply (need_normals_cached two_sided).
  - reflexivity.
  - repeat constructor.
Defined.

(** ** [project_on_surface] *)






(** ** Periodic meshes: the duplicates made by [delaunay] *)

Lemma unwrap_corner_all (P : dupMap → Prop) (dt : Delaunay) (nOrig : nat)
    (df : DFace) (s : Face * list dupMap * gmap Vertex_handle nat)
    (vid : nat) :
  (zero_offset (periodic_offset dt (vertex df vid)) = false →
   P (dup_key dt (vertex df vid))) →
  Forall P s.1.2 →
  Forall P (unwrap_corner dt nOrig df s vid).1.2.
Proof.
  destruct s as [[face dups] dh]. intros Hnew Hdups. unfold unwrap_corner.
  destruct (zero_offset _); [exact Hdups|].
  destruct (dh !! vertex df vid); cbn [fst snd]; [exact Hdups|].
  apply Forall_app. split; [exact Hdups|].
  constructor; [by apply Hnew | constructor].
Qed.

Lemma unwrap_face_all (P : dupMap → Prop) (dt : Delaunay) (nOrig : nat)
    (s : Unwrap) (df : DFace) :
  (∀ vid, vid < 3 →
     zero_offset (periodic_offset dt (vertex df vid)) = false →
     P (dup_key dt (vertex df vid))) →
  Forall P (uDuplicates s) →
  Forall P (uDuplicates (unwrap_face dt nOrig s df)).
Proof.
  intros Hnew Hdups. unfold unwrap_face.
  destruct (_ =? 0); [exact Hdups|].
  destruct (_ =? 3); [exact Hdups|].
  pose proof (unwrap_corner_all P dt nOrig df) as Hstep.
  cbn [fold_left].
  set (s0 := (mkFace _ _ _, uDuplicates s, duplicateHandles s)).
  assert (H1 : Forall P (unwrap_corner dt nOrig df s0 0).1.2)
    by (apply Hstep; [apply Hnew; lia | exact Hdups]).
  set (s1 := unwrap_corner dt nOrig df s0 0) in *.
  assert (H2 : Forall P (unwrap_corner dt nOrig df s1 1).1.2)
    by (apply Hstep; [apply Hnew; lia | exact H1]).
  set (s2 := unwrap_corner dt nOrig df s1 1) in *.
  assert (H3 : Forall P (unwrap_corner dt nOrig df s2 2).1.2)
    by (apply Hstep; [apply Hnew; lia | exact H2]).
  by destruct (unwrap_corner dt nOrig df s2 2) as [[face' dups'] dh'].
Qed.

Lemma unwrap_faces_all (P : dupMap → Prop) (dt : Delaunay) (nOrig : nat)
    (fs : list DFace) :
  (∀ df vid, In df fs → vid < 3 →
     zero_offset (periodic_offset dt (vertex df vid)) = false →
     P (dup_key dt (vertex df vid))) →
  ∀ s, Forall P (uDuplicates s) →
       Forall P (uDuplicates (fold_left (unwrap_face dt nOrig) fs s)).
Proof.
  induction fs as [|df fs IH]; intros Hnew s Hdups; [exact Hdups|].
  cbn [fold_left]. apply IH.
  - intros d vid Hd. apply Hnew. by right.
  - apply unwrap_face_all; [|exact Hdups].
    intros vid. apply Hnew. by left.
Qed.

Lemma covering_displaced (dt : Delaunay) (nOrig : nat) (vh : Vertex_handle) :
  covering_ok dt nOrig → handle_of dt vh →
  zero_offset (periodic_offset dt vh) = false →
  displaced nOrig (dup_key dt vh).
Proof.
  intros [Hrange _] Hvh Hz. destruct (Hrange vh Hvh) as (Hinfo & H1 & H2).
  unfold displaced, unit_offsets, dup_key, unwrap_offset, zero_offset in *.
  cbn [fst snd].
  apply andb_false_iff in Hz.
  destruct (Z.eqb_spec (periodic_offset dt vh).1 2),
    (Z.eqb_spec (periodic_offset dt vh).2 2),
    (Z.eqb_spec (periodic_offset dt vh).1 0),
    (Z.eqb_spec (periodic_offset dt vh).2 0);
    split_and!; try lia; destruct Hz; try discriminate; lia.
Qed.

(** X22 ([TriMeshPeriodic::delaunay], the duplicates).  On a periodic mesh
    with a valid box and an empty duplicate list, and for a triangulation
    that keeps its side, the post-processing of [delaunay] completes and
    gives every entry of the duplicate list a position: the entry names an
    existing vertex, its offsets are -1, 0 or 1 and not both 0, and the
    position is that vertex moved by the offsets times the box extent
    along x and y, with z unchanged. *)
Theorem delaunay_duplicates_are_images (p : TriMeshPeriodic) (dt : Delaunay) :
  mDuplicateVerts_OrigIds p = [] →
  covering_ok dt (length (mVertices (base p))) →
  bbox_valid p = true →
  ∃ p',
    delaunay p dt = Some p'
    ∧ ∀ i d, mDuplicateVerts_OrigIds p' !! i = Some d →
        ∃ v,
          mVertices (base p) !! d.1.1 = Some v
          ∧ unit_offsets d
          ∧ (d.1.2 ≠ 0%Z ∨ d.2 ≠ 0%Z)
          ∧ mDuplicateVerts p' !! i
            = Some (mkVertex
                      (vx v + IZR d.1.2 * (vx (mBox1 p) - vx (mBox0 p)))
                      (vy v + IZR d.2 * (vy (mBox1 p) - vy (mBox0 p)))
                      (vz v)).
Proof.
  intros Hfresh Hcov Hbox. unfold delaunay. rewrite Hfresh.
  set (nOrig := length (mVertices (base p))) in *.
  set (s0 := mkUnwrap [] (mPeriodicFaces p) (mTrimmedFaces p) [] ∅).
  assert (Hall : Forall (displaced nOrig)
                   (uDuplicates (fold_left (unwrap_face dt nOrig)
                                   (finite_faces dt) s0))).
  { apply unwrap_faces_all; [|constructor].
    intros df vid Hdf Hvid Hz. apply covering_displaced; [done | | done].
    by exists df, vid. }
  set (s := fold_left (unwrap_face dt nOrig) (finite_faces dt) s0) in *.
  set (p1 := mkTriMeshPeriodic _ _ _ _ _ _ _ _).
  assert (Hids : dups_in_range (length (mVertices (base p1)))
                   (mDuplicateVerts_OrigIds p1)).
  { cbn. eapply Forall_impl; [exact Hall|]. by intros d [Hd _]. }
  destruct (uDuplicates s) as [|d0 dups] eqn:Hdups.
  { destruct (create_duplicate_vertices_frame p1 Hids) as [dv ->].
    eexists. split; [reflexivity|].
    intros i d Hd. cbn in Hd. by destruct i. }
  assert (Hv : mVertices (base p1) ≠ []).
  { cbn. intros Hnil. apply Forall_cons in Hall as [[Hlt _] _].
    unfold nOrig in Hlt. rewrite Hnil in Hlt. cbn in Hlt. lia. }
  destruct (create_duplicate_vertices_positions p1 Hv) as (dvs & -> & Hpos);
    [cbn; discriminate | exact Hbox | exact Hids |].
  eexists. split; [reflexivity|].
  cbn [with_mDuplicateVerts mDuplicateVerts mDuplicateVerts_OrigIds p1].
  cbn [p1 mDuplicateVerts_OrigIds base with_mFaces mVertices mBox0 mBox1]
    in Hpos.
  intros i d Hd.
  destruct (Forall2_lookup_l _ _ _ _ _ Hpos Hd) as (dv & Hdv & Hdup).
  destruct (duplicate_vertex_position _ _ _ _ Hdup) as (v & Hlook & ->).
  destruct (proj1 (Forall_lookup _ _) Hall i d Hd) as (_ & Hoff & Hnz).
  exists v. split_and!; [exact Hlook | exact Hoff | exact Hnz | exact Hdv].
Qed.

Lemma delaunay_duplicates_are_images_witness :
  ∃ p',
    delaunay sample_periodic sample_covering = Some p'
    ∧ ∀ i d, mDuplicateVerts_OrigIds p' !! i = Some d →
        ∃ v,
          mVertices (base sample_periodic) !! d.1.1 = Some v
          ∧ unit_offsets d
          ∧ (d.1.2 ≠ 0%Z ∨ d.2 ≠ 0%Z)
          ∧ mDuplicateVerts p' !! i
            = Some (mkVertex
                      (vx v + IZR d.1.2 * (vx (mBox1 sample_periodic)
                                           - vx (mBox0 sample_periodic)))
                      (vy v + IZR d.2 * (vy (mBox1 sample_periodic)
                                         - vy (mBox0 sample_periodic)))
                      (vz v)).
Proof.
  apply (delaunay_duplicates_are_images sample_periodic sample_covering).
  - reflexivity.
  - exact sample_covering_ok.
  - reflexivity.
Defined.
